(** * OpenTranscriber: automatic segmentation, speaker clustering and history

    A shallow embedding of the algorithmic core of [src/app.js]
    (class [OpenTranscriber]): the undo/redo history, the three
    segmentation strategies, the pitch estimator, the 1-D k-means
    clusterer and the orchestrator that runs them; then the preview of
    the segmentation, the speaker tracks, the selection and the
    navigation between segments, the project file, the CSV export and
    the escaping for XML.

    Modelling conventions.

    - A JavaScript number is an exact rational ([Q]).  Rounding of IEEE
      doubles is outside the model, and so are [NaN] and the infinities
      but for three places: the quotients of the sample rate by the pitch
      bounds, which the form lets be 0, are taken in [JS.extended];
      [-Infinity], the initial [maxCorr] of [extractF0], is the [None] of
      an [option Q]; and a sum over a negative lag, [NaN], is never
      selected.  The sample rate of an [AudioBuffer] is positive, and the
      theorems that depend on a quotient by it say so.
    - A JavaScript array is a [list] in the array's own order: index 0 is
      the head, [push] appends at the end, [pop] removes the last element
      and [shift] removes the head.
    - An [async] method is a computation in the monad [Run]: it delivers a
      trace of values to its progress callback and then returns, throws,
      or never returns.  [await new Promise(r => setTimeout(r, 0))] only
      hands control back to the host and leaves no mark on the trace.
    - [Date.now()] and the random suffix of segment identifiers come from
      the environment and are arguments of the operations that read them.
    - The selection [this.selectedSegment] is held by the identifier of
      the selected segment: the operations modelled read its [id] only.
    - The waveform regions and the DOM are outside the model, but for the
      [TypeError] that drawing with an [undefined] colour raises (a speaker
      number below 1): the colour of a segment is an [option],
      [importProject] stops where its [try] block raises, [undo] and
      [redo] leave out the toast that follows a restore that raises, and
      the segments a run creates are shown to have a colour. *)

From Stdlib Require Import Ascii String DecimalString Bool Arith List Sorted Permutation ZArith QArith Qround Qabs Lia Lqa.
Import ListNotations.

Open Scope Q_scope.

(* ================================================================== *)
(** * JavaScript numbers and arrays *)
(* ================================================================== *)

Module JS.

(** [x > y], [x >= y] and [x < y] on numbers. *)
Definition gt (x y : Q) : bool := negb (Qle_bool x y).
Definition ge (x y : Q) : bool := Qle_bool y x.
Definition lt (x y : Q) : bool := negb (Qle_bool y x).

(** An integer (an array index or a length) as a number. *)
Definition num (n : Z) : Q := inject_Z n.

(** [a.length]. *)
Definition length {A : Type} (a : list A) : Z := Z.of_nat (List.length a).

(** [Math.floor], [Math.round] (halves go up), [Math.abs], [Math.min]. *)
Definition Math_floor (x : Q) : Z := Qfloor x.
Definition Math_round (x : Q) : Z := Qfloor (x + (1 # 2)).
Definition Math_abs (x : Q) : Q := Qabs x.
Definition Math_min (x y : Q) : Q := if Qle_bool x y then x else y.

(** [n % m] on integers held in numbers: the sign follows the dividend. *)
Definition rem (n m : Z) : Z := Z.rem n m.

(** [i % m === 0] ([i % 0] is [NaN], which is never [=== 0]). *)
Definition divisible (i m : Z) : bool :=
  negb (m =? 0)%Z && (rem i m =? 0)%Z.

(** The relative index of [Array.prototype.slice]: a negative index
    counts from the end, and the result is clamped to [0, len]. *)
Definition relative_index (len k : Z) : Z :=
  if (k <? 0)%Z then Z.max (len + k) 0 else Z.min k len.

(** [a.slice(from, to)]. *)
Definition slice {A : Type} (a : list A) (from to : Z) : list A :=
  let len := length a in
  let k := relative_index len from in
  let final := relative_index len to in
  firstn (Z.to_nat (final - k)) (skipn (Z.to_nat k) a).

(** [a.pop()] and [a.shift()]: the removed element and the rest. *)
Definition pop {A : Type} (a : list A) : option (A * list A) :=
  match rev a with
  | [] => None
  | x :: r => Some (x, rev r)
  end.

Definition shift {A : Type} (a : list A) : list A := tl a.

Definition push {A : Type} (a : list A) (x : A) : list A := a ++ [x].

(** [a[i]] for an integer [i]: [undefined] out of range. *)
Definition index {A : Type} (a : list A) (i : Z) : option A :=
  if (i <? 0)%Z then None else nth_error a (Z.to_nat i).

(** A number that can be infinite or [NaN]: a quotient whose divisor can
    be zero, and what is computed from it. *)
Inductive extended (A : Type) : Type :=
| Finite (a : A)
| Infinity
| MinusInfinity
| NaN.

Arguments Finite {A} a.
Arguments Infinity {A}.
Arguments MinusInfinity {A}.
Arguments NaN {A}.

(** [x / y] where [y] can be zero; the zero of the model is [+0]. *)
Definition div (x y : Q) : extended Q :=
  if Qeq_bool y 0 then
    if lt 0 x then Infinity else if lt x 0 then MinusInfinity else NaN
  else Finite (x / y).

(** [Math.floor(x)]. *)
Definition floor (x : extended Q) : extended Z :=
  match x with
  | Finite q => Finite (Math_floor q)
  | Infinity => Infinity
  | MinusInfinity => MinusInfinity
  | NaN => NaN
  end.

(** [Math.min(x, y)] for a finite [y]. *)
Definition min_with (x : extended Z) (y : Q) : extended Q :=
  match x with
  | Finite m => Finite (Math_min (num m) y)
  | Infinity => Finite y
  | MinusInfinity => MinusInfinity
  | NaN => NaN
  end.

End JS.

(* ================================================================== *)
(** * Asynchronous runs *)
(* ================================================================== *)

(** The errors the modelled code can raise: reading a property of
    [null]/[undefined] and [Array(k)] with an invalid length. *)
Inductive js_error : Type :=
| TypeError
| RangeError.

Inductive outcome (A : Type) : Type :=
| Returns (a : A)
| Throws (e : js_error)
| Diverges.

Arguments Returns {A} a.
Arguments Throws {A} e.
Arguments Diverges {A}.

(** A run: the values delivered to the progress callback, in order, and
    how the run ends. *)
Definition Run (A : Type) : Type := (list Q * outcome A)%type.

Definition ret {A : Type} (a : A) : Run A := ([], Returns a).

Definition throw {A : Type} (e : js_error) : Run A := ([], Throws e).

Definition diverge {A : Type} : Run A := ([], Diverges).

(** [onProgress(p)]. *)
Definition onProgress (p : Q) : Run unit := ([p], Returns tt).

Definition bind {A B : Type} (m : Run A) (k : A -> Run B) : Run B :=
  match snd m with
  | Returns a => let r := k a in (fst m ++ fst r, snd r)
  | Throws e => (fst m, Throws e)
  | Diverges => (fst m, Diverges)
  end.

(** Running [m] with the callback [(p) => onProgress(f(p))]. *)
Definition with_callback {A : Type} (f : Q -> Q) (m : Run A) : Run A :=
  (map f (fst m), snd m).

Definition trace {A : Type} (m : Run A) : list Q := fst m.

Definition result {A : Type} (m : Run A) : outcome A := snd m.

Declare Scope run_scope.
Delimit Scope run_scope with run.
Notation "x <- m ;; k" := (bind m (fun x => k))
  (at level 61, m at next level, right associativity) : run_scope.
Notation "m ;;; k" := (bind m (fun _ => k))
  (at level 61, right associativity) : run_scope.
Open Scope run_scope.

(* ================================================================== *)
(** * Data *)
(* ================================================================== *)

(** [this.audioBuffer]: channel 0 and the sample rate. *)
Record AudioBuffer : Type := mkAudioBuffer {
  channelData : list Q;
  sampleRate : Q
}.

(** The parameter object built by [autoSegment]; [pauseTolerance] is in
    milliseconds. *)
Record Params : Type := mkParams {
  silenceThreshold : Q;
  minSegmentDuration : Q;
  pauseTolerance : Q;
  numSpeakers : Z;
  f0Min : Q;
  f0Max : Q;
  f0Confidence : Q
}.

(** The speaker tag [`spk${n}`] of a provisional segment. *)
Inductive SpeakerTag : Type :=
| spk (n : Z).

(** [parseInt(tag.replace('spk', ''))]. *)
Definition speakerNumOf (t : SpeakerTag) : Z :=
  match t with spk n => n end.

(** A segment as the strategies produce it:
    [{ start, end, speaker, f0 }]. *)
Record ProvSegment : Type := mkProv {
  p_start : Q;
  p_end : Q;
  p_speaker : SpeakerTag;
  p_f0 : option Q
}.

(* ================================================================== *)
(** * Silence segmenter ([segmentBySilence]) *)
(* ================================================================== *)

(** The variables of the scan loop; [found] is the local array [segments]. *)
Record SilenceScan : Type := mkScan {
  inSpeech : bool;
  segmentStart : Q;
  silenceStart : Q;
  found : list ProvSegment
}.

Definition scan0 : SilenceScan :=
  {| inSpeech := false; segmentStart := 0; silenceStart := 0; found := [] |}.

(** The stride of the cooperative yield of the source,
    [if (i % 100000 === 0)]. *)
Definition yieldStride : Z := 100000.

Section SilenceLoop.

Variable stride : Z.
Variables rate threshold minDuration tolerance : Q.
Variable len : Z.

(** The body of the loop below the progress report, at index [i] on the
    sample [x]. *)
Definition silence_step (i : Z) (x : Q) (st : SilenceScan) : SilenceScan :=
  let time := JS.num i / rate in
  let amplitude := JS.Math_abs x in
  if JS.gt amplitude threshold then
    {| inSpeech := true;
       segmentStart := if inSpeech st then segmentStart st else time;
       silenceStart := time;
       found := found st |}
  else if inSpeech st && JS.gt (time - silenceStart st) tolerance then
    let duration := silenceStart st - segmentStart st in
    {| inSpeech := false;
       segmentStart := segmentStart st;
       silenceStart := silenceStart st;
       found :=
         if JS.ge duration minDuration
         then JS.push (found st)
                {| p_start := segmentStart st; p_end := silenceStart st;
                   p_speaker := spk 1; p_f0 := None |}
         else found st |}
  else st.

(** The progress report at index [i]. *)
Definition silence_progress (i : Z) : Run unit :=
  if JS.divisible i stride
  then onProgress (inject_Z (JS.Math_round (JS.num i / JS.num len * 100)))
  else ret tt.

(** [for (let i = 0; i < channelData.length; i++)], from index [i] on
    the samples that remain. *)
Fixpoint silence_loop (samples : list Q) (i : Z) (st : SilenceScan)
  : Run SilenceScan :=
  match samples with
  | [] => ret st
  | x :: rest =>
      silence_progress i ;;;
      silence_loop rest (i + 1)%Z (silence_step i x st)
  end.

(** The code after the loop (["Dernier segment"]). *)
Definition silence_close (st : SilenceScan) : list ProvSegment :=
  if inSpeech st then
    let duration := JS.num len / rate - segmentStart st in
    if JS.ge duration minDuration
    then JS.push (found st)
           {| p_start := segmentStart st; p_end := JS.num len / rate;
              p_speaker := spk 1; p_f0 := None |}
    else found st
  else found st.

End SilenceLoop.

(** The body of [segmentBySilence] with the yield stride as a parameter;
    [None] is [this.audioBuffer === null]. *)
Definition segmentBySilenceEvery (stride : Z) (audioBuffer : option AudioBuffer)
    (params : Params) : Run (list ProvSegment) :=
  match audioBuffer with
  | None => throw TypeError
  | Some buf =>
      let channelData := channelData buf in
      let sampleRate := sampleRate buf in
      let threshold := silenceThreshold params in
      let minDuration := minSegmentDuration params in
      let pauseTolerance := pauseTolerance params / 1000 in
      let len := JS.length channelData in
      st <- silence_loop stride sampleRate threshold minDuration pauseTolerance
              len channelData 0 scan0 ;;
      ret (silence_close sampleRate minDuration len st)
  end.

(** [segmentBySilence(params, onProgress)]. *)
Definition segmentBySilence : option AudioBuffer -> Params -> Run (list ProvSegment) :=
  segmentBySilenceEvery yieldStride.


(* ================================================================== *)
(** * Pitch estimator ([extractF0]) *)
(* ================================================================== *)

(** The inner loop [for (i = 0; i < segment.length - lag; i++)
    corr += segment[i] * segment[i + lag]], on the segment and on the
    segment from index [lag] on. *)
Fixpoint corr_loop (segment lagged : list Q) (corr : Q) : Q :=
  match segment, lagged with
  | x :: xs, y :: ys => corr_loop xs ys (corr + x * y)
  | _, _ => corr
  end.

(** The autocorrelation sum at a lag that is not negative. *)
Definition autocorr (segment : list Q) (lag : Z) : Q :=
  corr_loop segment (skipn (Z.to_nat lag) segment) 0.

(** The integers [from <= l < bound], in order: the values of the counter
    of [for (l = from; l < bound; l++)]. *)
Definition lag_range (from : Z) (bound : Q) : list Z :=
  map (fun j => (from + Z.of_nat j)%Z) (seq 0 (Z.to_nat (Qceiling bound - from))).

(** [corr > maxCorr], where [None] is the initial [-Infinity]. *)
Definition exceeds (corr : Q) (maxCorr : option Q) : bool :=
  match maxCorr with
  | None => true
  | Some m => JS.gt corr m
  end.

(** The body of the loop over lags on [(maxCorr, bestLag)].  At a negative
    lag [segment[i + lag]] is [undefined], the sum is [NaN] and the
    comparison fails. *)
Definition lag_step (segment : list Q) (acc : option Q * Z) (lag : Z)
  : option Q * Z :=
  if (lag <? 0)%Z then acc
  else
    let corr := autocorr segment lag in
    if exceeds corr (fst acc) then (Some corr, lag) else acc.

(** [minLag] and the bound [Math.min(maxLag, segment.length / 2)] of the
    loop over lags.  The two quotients are infinite when the pitch bound
    they divide by is 0. *)
Definition min_lag (rate f0Max : Q) : JS.extended Z :=
  JS.floor (JS.div rate f0Max).

Definition lag_bound (rate f0Min : Q) (segment : list Q) : JS.extended Q :=
  let maxLag := JS.floor (JS.div rate f0Min) in
  JS.min_with maxLag (JS.num (JS.length segment) / 2).

(** The lags the loop visits,
    [for (lag = minLag; lag < Math.min(maxLag, segment.length / 2); lag++)].
    The test fails at once when [minLag] is [Infinity] or [NaN] and when
    the bound is [-Infinity] or [NaN]. *)
Definition candidate_lags (rate f0Min f0Max : Q) (segment : list Q) : list Z :=
  match min_lag rate f0Max, lag_bound rate f0Min segment with
  | JS.Finite minLag, JS.Finite bound => lag_range minLag bound
  | _, _ => []
  end.

(** From [minLag = -Infinity] the counter never moves ([lag++] leaves it
    at [-Infinity]) and the loop never ends below a finite bound. *)
Definition endless_lags (rate f0Min f0Max : Q) (segment : list Q) : bool :=
  match min_lag rate f0Max, lag_bound rate f0Min segment with
  | JS.MinusInfinity, JS.Finite _ => true
  | _, _ => false
  end.

(** [bestLag] after the loop. *)
Definition best_lag (rate f0Min f0Max : Q) (segment : list Q) : Z :=
  snd (fold_left (lag_step segment) (candidate_lags rate f0Min f0Max segment)
         (None, 0%Z)).

(** The samples [extractF0] works on. *)
Definition f0_segment (buf : AudioBuffer) (startTime endTime : Q) : list Q :=
  let startSample := JS.Math_floor (startTime * sampleRate buf) in
  let endSample := JS.Math_floor (endTime * sampleRate buf) in
  JS.slice (channelData buf) startSample endSample.

(** [extractF0(startTime, endTime, f0Min, f0Max)]; the result [None] is
    [null]. *)
Definition extractF0 (audioBuffer : option AudioBuffer)
    (startTime endTime f0Min f0Max : Q) : Run (option Q) :=
  match audioBuffer with
  | None => throw TypeError
  | Some buf =>
      let segment := f0_segment buf startTime endTime in
      if (JS.length segment <? 400)%Z then ret None
      else if endless_lags (sampleRate buf) f0Min f0Max segment then diverge
      else
        let bestLag := best_lag (sampleRate buf) f0Min f0Max segment in
        if (0 <? bestLag)%Z
        then ret (Some (sampleRate buf / JS.num bestLag))
        else ret None
  end.

(* ================================================================== *)
(** * Speaker clusterer ([kMeansClustering], [findNearestCluster]) *)
(* ================================================================== *)

(** [dist < minDist], where [None] is the initial [Infinity]. *)
Definition below (dist : Q) (minDist : option Q) : bool :=
  match minDist with
  | None => true
  | Some m => JS.lt dist m
  end.

(** The body of [centroids.forEach((centroid, idx) => ...)] on
    [(minDist, bestCluster)], and the index of the next centroid. *)
Definition nearest_step (value : Q) (acc : option Q * Z * Z) (centroid : Q)
  : option Q * Z * Z :=
  let '(minDist, bestCluster, idx) := acc in
  let dist := JS.Math_abs (value - centroid) in
  if below dist minDist
  then (Some dist, idx, (idx + 1)%Z)
  else (minDist, bestCluster, (idx + 1)%Z).

(** [findNearestCluster(value, centroids)]. *)
Definition findNearestCluster (value : Q) (centroids : list Q) : Z :=
  snd (fst (fold_left (nearest_step value) centroids (None, 0%Z, 0%Z))).

(** [values.slice().sort((a, b) => a - b)]: a stable ascending sort. *)
Fixpoint sort_insert (x : Q) (l : list Q) : list Q :=
  match l with
  | [] => [x]
  | y :: r => if Qle_bool x y then x :: l else y :: sort_insert x r
  end.

Definition sort_ascending (values : list Q) : list Q :=
  fold_right sort_insert [] values.

(** The indices [0, 1, ..., n-1]. *)
Definition indices (n : Z) : list Z :=
  map Z.of_nat (seq 0 (Z.to_nat n)).

(** The initial centroids:
    [sorted[Math.min(i * step, sorted.length - 1)]] for [i < k]. *)
Definition initial_centroids (values : list Q) (k : Z) : list Q :=
  let sorted := sort_ascending values in
  let step := JS.Math_floor (JS.num (JS.length sorted) / JS.num k) in
  map (fun i => nth (Z.to_nat (Z.min (i * step) (JS.length sorted - 1))) sorted 0)
      (indices k).

(** [clusters[idx]] after [values.forEach]: the values whose nearest
    centroid is [idx], in the order of [values].  The source repeats the
    loop of [findNearestCluster] inline. *)
Definition cluster_of (values centroids : list Q) (idx : Z) : list Q :=
  filter (fun val => (findNearestCluster val centroids =? idx)%Z) values.

(** One round: every centroid with a cluster that is not empty moves to
    the mean of the cluster. *)
Definition kmeans_round (values centroids : list Q) : list Q :=
  map (fun '(idx, centroid) =>
         let cluster := cluster_of values centroids idx in
         if (0 <? JS.length cluster)%Z
         then fold_left Qplus cluster 0 / JS.num (JS.length cluster)
         else centroid)
      (combine (indices (JS.length centroids)) centroids).

(** [for (let iter = 0; iter < 10; iter++)]. *)
Definition kmeans_rounds (values centroids : list Q) : list Q :=
  Nat.iter 10 (kmeans_round values) centroids.

(** [kMeansClustering(values, k)].  With [k < 0], [Array(k)] raises a
    [RangeError]; with [k = 0] there is no centroid, [bestCluster] stays 0
    and [clusters[0].push] raises a [TypeError] at the first value. *)
Definition kMeansClustering (values : list Q) (k : Z) : outcome (list Q) :=
  if (JS.length values <? k)%Z then Returns (JS.slice values 0 k)
  else if (k <? 0)%Z then Throws RangeError
  else if (k =? 0)%Z then
    match values with
    | [] => Returns []
    | _ :: _ => Throws TypeError
    end
  else Returns (kmeans_rounds values (initial_centroids values k)).


(* ================================================================== *)
(** * Silence and pitch strategy ([segmentBySilenceAndF0]) *)
(* ================================================================== *)

(** [for (let i = 0; i < segments.length; i++)]: the progress report, the
    pitch of segment [i] and its assignment to [segments[i].f0]; [n] is
    [segments.length]. *)
Fixpoint f0_loop (audioBuffer : option AudioBuffer) (f0Min f0Max : Q) (n : Z)
    (segs : list ProvSegment) (i : Z) : Run (list ProvSegment) :=
  match segs with
  | [] => ret []
  | seg :: rest =>
      onProgress (50 + inject_Z (JS.Math_round (JS.num i / JS.num n * 50))) ;;;
      f0 <- extractF0 audioBuffer (p_start seg) (p_end seg) f0Min f0Max ;;
      rest' <- f0_loop audioBuffer f0Min f0Max n rest (i + 1)%Z ;;
      ret ({| p_start := p_start seg; p_end := p_end seg;
              p_speaker := p_speaker seg; p_f0 := f0 |} :: rest')
  end.

(** [segments.map(s => s.f0).filter(f0 => f0 !== null)]. *)
Definition f0_values (segs : list ProvSegment) : list Q :=
  flat_map (fun seg => match p_f0 seg with Some f => [f] | None => [] end) segs.

(** The relabelling [segments.forEach(seg => ...)] once the centroids are
    known. *)
Definition label_segment (clusters : list Q) (seg : ProvSegment) : ProvSegment :=
  match p_f0 seg with
  | Some f =>
      let clusterIndex := findNearestCluster f clusters in
      {| p_start := p_start seg; p_end := p_end seg;
         p_speaker := spk (clusterIndex + 1); p_f0 := p_f0 seg |}
  | None => seg
  end.

Definition segmentBySilenceAndF0 (audioBuffer : option AudioBuffer)
    (params : Params) : Run (list ProvSegment) :=
  segs <- with_callback (fun p => p * (1 # 2)) (segmentBySilence audioBuffer params) ;;
  let numSpeakers := numSpeakers params in
  let f0Min := f0Min params in
  let f0Max := f0Max params in
  segs <- f0_loop audioBuffer f0Min f0Max (JS.length segs) segs 0 ;;
  let f0Values := f0_values segs in
  if (0 <? JS.length f0Values)%Z then
    match kMeansClustering f0Values numSpeakers with
    | Returns clusters => ret (map (label_segment clusters) segs)
    | Throws e => throw e
    | Diverges => diverge
    end
  else ret segs.

(** [segmentBySlidingWindow] delegates. *)
Definition segmentBySlidingWindow (audioBuffer : option AudioBuffer)
    (params : Params) : Run (list ProvSegment) :=
  segmentBySilenceAndF0 audioBuffer params.

(* ================================================================== *)
(** * Voice-activity strategy ([segmentByVADClustering]) *)
(* ================================================================== *)

Record Feature : Type := mkFeature {
  time : Q;
  energy : Q;
  zcr : Q;
  spectralCentroid : Q;
  isVoiced : bool
}.

(** [calculateEnergy(frame)]. *)
Definition calculateEnergy (frame : list Q) : Q :=
  fold_left (fun sum x => sum + x * x) frame 0 / JS.num (JS.length frame).

(** The loop of [calculateZCR] from index 1 on; [prev] is [frame[i - 1]]. *)
Fixpoint zcr_loop (prev : Q) (frame : list Q) (count : Z) : Z :=
  match frame with
  | [] => count
  | x :: rest =>
      let crossing :=
        (JS.ge x 0 && JS.lt prev 0) || (JS.lt x 0 && JS.ge prev 0) in
      zcr_loop x rest (if crossing then count + 1 else count)%Z
  end.

(** [calculateZCR(frame)]. *)
Definition calculateZCR (frame : list Q) : Q :=
  let count := match frame with [] => 0%Z | x :: rest => zcr_loop x rest 0 end in
  JS.num count / JS.num (JS.length frame).

(** The loop of [calculateSpectralCentroid] on [(weightedSum, sum)]. *)
Fixpoint centroid_loop (rate : Q) (len : Z) (frame : list Q) (i : Z)
    (acc : Q * Q) : Q * Q :=
  match frame with
  | [] => acc
  | x :: rest =>
      let magnitude := JS.Math_abs x in
      let freq := JS.num i * rate / JS.num len in
      centroid_loop rate len rest (i + 1)%Z
        (fst acc + freq * magnitude, snd acc + magnitude)
  end.

(** [calculateSpectralCentroid(frame, sampleRate)]. *)
Definition calculateSpectralCentroid (frame : list Q) (rate : Q) : Q :=
  let '(weightedSum, sum) := centroid_loop rate (JS.length frame) frame 0 (0, 0) in
  if JS.gt sum 0 then weightedSum / sum else 0.

(** The fixed energy cutoff of [isVoiced: energy > 0.01]. *)
Definition energyCutoff : Q := 1 # 100.

(** The feature record of the frame that starts at sample [i]. *)
Definition feature_at (buf : AudioBuffer) (frameSize i : Z) : Feature :=
  let frame := JS.slice (channelData buf) i (i + frameSize) in
  let energy := calculateEnergy frame in
  {| time := JS.num i / sampleRate buf;
     energy := energy;
     zcr := calculateZCR frame;
     spectralCentroid := calculateSpectralCentroid frame (sampleRate buf);
     isVoiced := JS.gt energy energyCutoff |}.

(** [for (let i = 0; i < channelData.length - frameSize; i += hopSize)].
    Every turn of the loop costs one unit of [fuel]; the loop that has used
    it all never ends. *)
Fixpoint feature_loop (fuel : nat) (buf : AudioBuffer) (frameSize hopSize : Z)
    (i : Z) : Run (list Feature) :=
  if (i <? JS.length (channelData buf) - frameSize)%Z then
    match fuel with
    | O => diverge
    | S fuel' =>
        let feat := feature_at buf frameSize i in
        (if JS.divisible i 10000
         then onProgress
                (10 + inject_Z (JS.Math_round
                   (JS.num i / JS.num (JS.length (channelData buf)) * 40)))
         else ret tt) ;;;
        rest <- feature_loop fuel' buf frameSize hopSize (i + hopSize)%Z ;;
        ret (feat :: rest)
    end
  else ret [].

(** The body of [features.forEach(feat => ...)] on
    [(currentSegment, segments)]; [currentSegment] is [null] or
    [{ start, features }]. *)
Definition vad_step (acc : option (Q * list Feature) * list ProvSegment)
    (feat : Feature) : option (Q * list Feature) * list ProvSegment :=
  let (currentSegment, segs) := acc in
  if isVoiced feat then
    match currentSegment with
    | None => (Some (time feat, [feat]), segs)
    | Some (start, feats) => (Some (start, JS.push feats feat), segs)
    end
  else
    match currentSegment with
    | Some (start, feats) =>
        if (10 <? JS.length feats)%Z then
          let lastFeat := last feats feat in
          (None, JS.push segs
                   {| p_start := start; p_end := time lastFeat;
                      p_speaker := spk 1; p_f0 := None |})
        else (None, segs)
    | None => (None, segs)
    end.

(** The segments built from the features. *)
Definition vad_segments (features : list Feature) : list ProvSegment :=
  snd (fold_left vad_step features (None, [])).

(** The first loop of [segmentByVADClustering]: the features of the
    frames of 25 ms taken every 10 ms.  A loop that ends takes fewer turns
    than the buffer has samples. *)
Definition vad_features (buf : AudioBuffer) : Run (list Feature) :=
  let frameSize := JS.Math_floor (sampleRate buf * (25 # 1000)) in
  let hopSize := JS.Math_floor (sampleRate buf * (10 # 1000)) in
  feature_loop (length (channelData buf)) buf frameSize hopSize 0.

Definition segmentByVADClustering (audioBuffer : option AudioBuffer)
    (params : Params) : Run (list ProvSegment) :=
  onProgress 10 ;;;
  match audioBuffer with
  | None => throw TypeError
  | Some buf =>
      features <- vad_features buf ;;
      onProgress 50 ;;;
      let segs := vad_segments features in
      onProgress 100 ;;;
      ret segs
  end.


(* ================================================================== *)
(** * Application state *)
(* ================================================================== *)

Open Scope string_scope.

Record Color : Type := mkColor {
  bg : string;
  border : string
}.

(** [this.speakerColors]. *)
Definition speakerColors : list Color :=
  [ {| bg := "rgba(239, 83, 80, 0.5)"; border := "#ef5350" |};
    {| bg := "rgba(102, 187, 106, 0.5)"; border := "#66bb6a" |};
    {| bg := "rgba(66, 165, 245, 0.5)"; border := "#42a5f5" |};
    {| bg := "rgba(255, 238, 88, 0.5)"; border := "#ffee58" |};
    {| bg := "rgba(171, 71, 188, 0.5)"; border := "#ab47bc" |};
    {| bg := "rgba(255, 167, 38, 0.5)"; border := "#ffa726" |};
    {| bg := "rgba(38, 166, 154, 0.5)"; border := "#26a69a" |};
    {| bg := "rgba(236, 64, 122, 0.5)"; border := "#ec407a" |} ].

(** [this.speakerColors[(speakerNum - 1) % this.speakerColors.length]];
    [None] is [undefined]. *)
Definition colorOf (speakerNum : Z) : option Color :=
  JS.index speakerColors (JS.rem (speakerNum - 1) (JS.length speakerColors)).

(** A speaker number without colour in the palette.  Code that draws
    with such a colour raises a [TypeError]: [createSegment] reads
    [segment.color.bg] for the region of the master waveform, after it
    has pushed the segment, and the constructor of [SpeakerTrack] reads
    [this.color.border] in [createUI]. *)
Definition colourless (speakerNum' : Z) : bool :=
  match colorOf speakerNum' with
  | Some _ => false
  | None => true
  end.

(** A live segment of [this.segments]. *)
Record Segment : Type := mkSegment {
  seg_id : string;
  start : Q;
  end_ : Q;
  speaker : Z;
  transcription : string;
  color : option Color
}.

(** A speaker track, without its waveform and its DOM nodes. *)
Record SpeakerTrack : Type := mkTrack {
  speakerNum : Z;
  name : string
}.

(** The entries of a saved state. *)
Record SavedSegment : Type := mkSavedSegment {
  saved_id : string;
  saved_start : Q;
  saved_end : Q;
  saved_speaker : Z;
  saved_transcription : string
}.

Record SavedSpeaker : Type := mkSavedSpeaker {
  saved_num : Z;
  saved_name : string
}.

(** An element of the undo and redo stacks. *)
Record HistoryState : Type := mkHistoryState {
  action : string;
  timestamp : Z;
  state_segments : list SavedSegment;
  state_speakers : list SavedSpeaker
}.

(** [showToast(message, type)] is recorded in the log [toasts]. *)
Record App : Type := mkApp {
  speakerTracks : list SpeakerTrack;
  segments : list Segment;
  selectedSegment : option string;
  audioBuffer : option AudioBuffer;
  undoStack : list HistoryState;
  redoStack : list HistoryState;
  toasts : list (string * string)
}.

Definition maxHistorySize : Z := 50.

Definition showToast (message type : string) (app : App) : App :=
  {| speakerTracks := speakerTracks app; segments := segments app;
     selectedSegment := selectedSegment app; audioBuffer := audioBuffer app;
     undoStack := undoStack app; redoStack := redoStack app;
     toasts := JS.push (toasts app) (message, type) |}.

Definition with_stacks (undoStack' redoStack' : list HistoryState) (app : App) : App :=
  {| speakerTracks := speakerTracks app; segments := segments app;
     selectedSegment := selectedSegment app; audioBuffer := audioBuffer app;
     undoStack := undoStack'; redoStack := redoStack';
     toasts := toasts app |}.

(* ================================================================== *)
(** * Undo and redo *)
(* ================================================================== *)

Definition save_segment (s : Segment) : SavedSegment :=
  {| saved_id := seg_id s; saved_start := start s; saved_end := end_ s;
     saved_speaker := speaker s; saved_transcription := transcription s |}.

Definition save_speaker (t : SpeakerTrack) : SavedSpeaker :=
  {| saved_num := speakerNum t; saved_name := name t |}.

(** The object literal that [saveState], [undo] and [redo] build from the
    live state; [now] is [Date.now()]. *)
Definition current_state (actionName : string) (now : Z) (app : App) : HistoryState :=
  {| action := actionName;
     timestamp := now;
     state_segments := map save_segment (segments app);
     state_speakers := map save_speaker (speakerTracks app) |}.

(** [saveState(actionName)]. *)
Definition saveState (actionName : string) (now : Z) (app : App) : App :=
  let state := current_state actionName now app in
  let pushed := JS.push (undoStack app) state in
  let limited :=
    if (maxHistorySize <? JS.length pushed)%Z then JS.shift pushed else pushed in
  with_stacks limited [] app.

Definition restore_segment (s : SavedSegment) : Segment :=
  {| seg_id := saved_id s; start := saved_start s; end_ := saved_end s;
     speaker := saved_speaker s; transcription := saved_transcription s;
     color := colorOf (saved_speaker s) |}.

(** [const track = this.speakerTracks.find(t => t.speakerNum === spk.id);
    if (track) track.name = spk.name]. *)
Fixpoint rename_track (spk : SavedSpeaker) (tracks : list SpeakerTrack)
  : list SpeakerTrack :=
  match tracks with
  | [] => []
  | t :: rest =>
      if (speakerNum t =? saved_num spk)%Z
      then {| speakerNum := speakerNum t; name := saved_name spk |} :: rest
      else t :: rename_track spk rest
  end.

(** [restoreState(state)]: the editor is closed, the segments are
    replaced and the tracks found by number are renamed. *)
Definition restoreState (state : HistoryState) (app : App) : App :=
  {| speakerTracks :=
       fold_left (fun tracks spk => rename_track spk tracks)
                 (state_speakers state) (speakerTracks app);
     segments := map restore_segment (state_segments state);
     selectedSegment := None;
     audioBuffer := audioBuffer app;
     undoStack := undoStack app; redoStack := redoStack app;
     toasts := toasts app |}.

(** [redrawAllSegments()] reads [seg.color.bg] of every segment and raises
    on a segment whose speaker is [colourless].  [restoreState] calls it
    once the segments and the names are set, so that the state is
    restored all the same and only what follows the call is left out. *)
Definition redraw_raises (state : HistoryState) : bool :=
  existsb (fun s => colourless (saved_speaker s)) (state_segments state).

(** [undo()]; [this.undoStack.length === 0] is [JS.pop] finding nothing.
    The toast follows [restoreState] and is not reached when it raises. *)
Definition undo (now : Z) (app : App) : App :=
  match JS.pop (undoStack app) with
  | None => showToast "Nothing to undo" "info" app
  | Some (previousState, rest) =>
      let currentState := current_state "before_undo" now app in
      let app1 := with_stacks rest (JS.push (redoStack app) currentState) app in
      let app2 := restoreState previousState app1 in
      if redraw_raises previousState then app2
      else showToast ("Undo: " ++ action previousState) "info" app2
  end.

(** [redo()]. *)
Definition redo (now : Z) (app : App) : App :=
  match JS.pop (redoStack app) with
  | None => showToast "Nothing to redo" "info" app
  | Some (redoState, rest) =>
      let currentState := current_state "before_redo" now app in
      let app1 := with_stacks (JS.push (undoStack app) currentState) rest app in
      let app2 := restoreState redoState app1 in
      if redraw_raises redoState then app2
      else showToast "Redo applied" "info" app2
  end.

(** [clearHistory()]. *)
Definition clearHistory (app : App) : App := with_stacks [] [] app.

(** The operations of the history manager. *)
Inductive HistoryOp : Type :=
| Capture (actionName : string) (now : Z)
| Undo (now : Z)
| Redo (now : Z).

Definition run_op (app : App) (op : HistoryOp) : App :=
  match op with
  | Capture actionName now => saveState actionName now app
  | Undo now => undo now app
  | Redo now => redo now app
  end.

(* ================================================================== *)
(** * Segments and speakers *)
(* ================================================================== *)

Definition with_live (tracks : list SpeakerTrack) (segs : list Segment)
    (selected : option string) (app : App) : App :=
  {| speakerTracks := tracks; segments := segs; selectedSegment := selected;
     audioBuffer := audioBuffer app;
     undoStack := undoStack app; redoStack := redoStack app;
     toasts := toasts app |}.

(** [createSegment(start, end, speakerNum, transcription)]: the
    application after the call, whether it returns or, the speaker being
    [colourless], raises once the segment is pushed; [id] is the
    identifier the source builds from the clock and a random suffix. *)
Definition createSegment (id : string) (start' end' : Q) (speakerNum' : Z)
    (transcription' : string) (app : App) : App :=
  let segment :=
    {| seg_id := id; start := start'; end_ := end'; speaker := speakerNum';
       transcription := transcription'; color := colorOf speakerNum' |} in
  with_live (speakerTracks app) (JS.push (segments app) segment)
    (selectedSegment app) app.

(** A project file after [JSON.parse] and the format check. *)
Record ProjectSegment : Type := mkProjectSegment {
  project_start : Q;
  project_end : Q;
  project_speaker : Z;
  project_transcription : string
}.

Record Project : Type := mkProject {
  project_speakers : list SavedSpeaker;
  project_segments : list ProjectSegment
}.

(** The decimal numeral of an integer in a template literal. *)
Definition numeral (n : Z) : string := NilZero.string_of_int (Z.to_int n).

(** The items of an array with their indices, as [forEach] visits them. *)
Definition indexed {A : Type} (a : list A) : list (Z * A) :=
  combine (indices (JS.length a)) a.

(** [project.speakers.forEach(spk => ...)]: the tracks created, and
    whether the loop raised.  The constructor raises before the track is
    pushed. *)
Fixpoint import_tracks (speakers : list SavedSpeaker)
    (tracks : list SpeakerTrack) : list SpeakerTrack * bool :=
  match speakers with
  | [] => (tracks, false)
  | speaker' :: rest =>
      if colourless (saved_num speaker') then (tracks, true)
      else
        import_tracks rest
          (JS.push tracks {| speakerNum := saved_num speaker';
                             name := saved_name speaker' |})
  end.

(** [project.segments.forEach(seg => this.createSegment(...))]: the
    application after the loop, and whether the loop raised. *)
Fixpoint import_segments (ids : Z -> string)
    (segs : list (Z * ProjectSegment)) (app : App) : App * bool :=
  match segs with
  | [] => (app, false)
  | (k, seg) :: rest =>
      let app' :=
        createSegment (ids k) (project_start seg) (project_end seg)
          (project_speaker seg) (project_transcription seg) app in
      if colourless (project_speaker seg) then (app', true)
      else import_segments ids rest app'
  end.

(** The body of [importProject] from [saveState('before import')] on, with
    its [catch]; [ids k] is the identifier of the [k]-th segment
    created. *)
Definition importProject (project : Project) (now : Z) (ids : Z -> string)
    (app : App) : App :=
  let app1 := saveState "before import" now app in
  let '(tracks, raised) :=
    if (0 <? JS.length (project_speakers project))%Z
    then import_tracks (project_speakers project) []
    else (speakerTracks app1, false) in
  if raised then
    showToast "Error: invalid file" "danger"
      (with_live tracks (segments app1) (selectedSegment app1) app1)
  else
    let app2 := with_live tracks [] (selectedSegment app1) app1 in
    let '(app3, raised') :=
      import_segments ids (indexed (project_segments project)) app2 in
    if raised' then showToast "Error: invalid file" "danger" app3
    else
      showToast
        ("Project imported: " ++ numeral (JS.length (project_segments project))
           ++ " segments")
        "success" app3.

(* ================================================================== *)
(** * Orchestrator ([runAutoSegmentation], [autoSegment]) *)
(* ================================================================== *)

(** The [switch (strategy)]; an unknown strategy leaves [segments = []]. *)
Definition run_strategy (strategy : string) (audioBuffer : option AudioBuffer)
    (params : Params) : Run (list ProvSegment) :=
  if (strategy =? "silence")%string then segmentBySilence audioBuffer params
  else if (strategy =? "silence_f0")%string then segmentBySilenceAndF0 audioBuffer params
  else if (strategy =? "vad_clustering")%string then segmentByVADClustering audioBuffer params
  else if (strategy =? "sliding_window")%string then segmentBySlidingWindow audioBuffer params
  else ret [].

(** [segments.forEach(seg => this.createSegment(seg.start, seg.end,
    speakerNum, ''))].  No call raises here: the strategies tag their
    segments [spk1] or above, and these speakers have a colour. *)
Definition create_all (ids : Z -> string) (segs : list ProvSegment) (app : App) : App :=
  fold_left
    (fun a '(k, seg) =>
       createSegment (ids k) (p_start seg) (p_end seg)
         (speakerNumOf (p_speaker seg)) "" a)
    (indexed segs) app.

(** [runAutoSegmentation(strategy, params)]: the application after the
    run and the segments returned.  An error of the strategy is thrown
    again, the application being as it was. *)
Definition runAutoSegmentation (strategy : string) (params : Params)
    (ids : Z -> string) (app : App) : Run (App * list ProvSegment) :=
  segs <- run_strategy strategy (audioBuffer app) params ;;
  ret (create_all ids segs app, segs).

(** The numeric fields [autoSegment] reads from the form. *)
Record FormInputs : Type := mkFormInputs {
  in_silenceThreshold : Q;
  in_minSegmentDuration : Q;
  in_minSilenceDuration : Q;
  in_numSpeakers : Z;
  in_f0Min : Q;
  in_f0Max : Q;
  in_f0Confidence : Q
}.

Definition params_of (inputs : FormInputs) : Params :=
  {| silenceThreshold := in_silenceThreshold inputs;
     minSegmentDuration := in_minSegmentDuration inputs;
     pauseTolerance := in_minSilenceDuration inputs * 1000;
     numSpeakers := in_numSpeakers inputs;
     f0Min := in_f0Min inputs;
     f0Max := in_f0Max inputs;
     f0Confidence := in_f0Confidence inputs |}.

(** [autoSegment()]. *)
Definition autoSegment (strategy : string) (inputs : FormInputs) (now : Z)
    (ids : Z -> string) (app : App) : Run App :=
  let params := params_of inputs in
  let app1 := saveState "auto-segmentation" now app in
  let run := runAutoSegmentation strategy params ids app1 in
  match result run with
  | Returns (app2, segs) =>
      (trace run,
       Returns (showToast (numeral (JS.length segs) ++ " segments created!")
                  "success" app2))
  | Throws _ =>
      (trace run, Returns (showToast "Segmentation error" "danger" app1))
  | Diverges => (trace run, Diverges)
  end.

Close Scope string_scope.

(* ================================================================== *)
(** * Preview of the silence segmentation ([previewSegmentation]) *)
(* ================================================================== *)

(** The variables of the loop of [previewSegmentation]. *)
Record PreviewScan : Type := mkPreview {
  pv_count : Z;
  pv_inSpeech : bool;
  pv_segmentStart : Q;
  pv_silenceStart : Q
}.

Definition preview0 : PreviewScan :=
  {| pv_count := 0; pv_inSpeech := false;
     pv_segmentStart := 0; pv_silenceStart := 0 |}.

(** The body of the loop at index [i] on the sample [x]; the pause
    tolerance is the literal [0.3]. *)
Definition preview_step (rate threshold minDuration : Q) (i : Z) (x : Q)
    (st : PreviewScan) : PreviewScan :=
  let amplitude := JS.Math_abs x in
  let time := JS.num i / rate in
  if JS.gt amplitude threshold then
    {| pv_count := pv_count st;
       pv_inSpeech := true;
       pv_segmentStart := if pv_inSpeech st then pv_segmentStart st else time;
       pv_silenceStart := time |}
  else if pv_inSpeech st && JS.gt (time - pv_silenceStart st) (3 # 10) then
    let duration := pv_silenceStart st - pv_segmentStart st in
    {| pv_count :=
         if JS.ge duration minDuration then (pv_count st + 1)%Z else pv_count st;
       pv_inSpeech := false;
       pv_segmentStart := pv_segmentStart st;
       pv_silenceStart := pv_silenceStart st |}
  else st.

Fixpoint preview_loop (rate threshold minDuration : Q) (samples : list Q)
    (i : Z) (st : PreviewScan) : PreviewScan :=
  match samples with
  | [] => st
  | x :: rest =>
      preview_loop rate threshold minDuration rest (i + 1)%Z
        (preview_step rate threshold minDuration i x st)
  end.

(** [previewSegmentation()]: the count it writes in
    [previewSegmentCount]; [threshold] and [minDuration] are the two
    fields it reads from the form. *)
Definition previewSegmentation (audioBuffer : option AudioBuffer)
    (threshold minDuration : Q) : outcome Z :=
  match audioBuffer with
  | None => Throws TypeError
  | Some buf =>
      Returns
        (pv_count
           (preview_loop (sampleRate buf) threshold minDuration
              (channelData buf) 0 preview0))
  end.

(* ================================================================== *)
(** * Speaker tracks ([addSpeaker], [removeSpeaker]) *)
(* ================================================================== *)

(** The name of a new or renumbered track, [`Speaker ${speakerNum}`]. *)
Definition default_name (speakerNum' : Z) : string :=
  ("Speaker " ++ numeral speakerNum')%string.

(** [addSpeaker()]. *)
Definition addSpeaker (app : App) : App :=
  let speakerNum' := (JS.length (speakerTracks app) + 1)%Z in
  with_live
    (JS.push (speakerTracks app)
       {| speakerNum := speakerNum'; name := default_name speakerNum' |})
    (segments app) (selectedSegment app) app.

(** [createDefaultSpeakers()]. *)
Definition createDefaultSpeakers (app : App) : App :=
  addSpeaker (addSpeaker (addSpeaker app)).

(** The tracks after [splice(index, 1)] at the first track numbered
    [speakerNum']. *)
Fixpoint remove_track (speakerNum' : Z) (tracks : list SpeakerTrack)
  : list SpeakerTrack :=
  match tracks with
  | [] => []
  | t :: rest =>
      if (speakerNum t =? speakerNum')%Z then rest
      else t :: remove_track speakerNum' rest
  end.

(** [this.speakerTracks.forEach((t, idx) => t.updateNumber(idx + 1))]:
    [updateNumber] sets the number and the default name. *)
Definition renumber (tracks : list SpeakerTrack) : list SpeakerTrack :=
  map (fun idx => {| speakerNum := idx + 1; name := default_name (idx + 1) |})
      (indices (JS.length tracks)).

(** [removeSpeaker(speakerNum)]. *)
Definition removeSpeaker (speakerNum' : Z) (app : App) : App :=
  if existsb (fun t => (speakerNum t =? speakerNum')%Z) (speakerTracks app) then
    with_live
      (renumber (remove_track speakerNum' (speakerTracks app)))
      (filter (fun s => negb (speaker s =? speakerNum')%Z) (segments app))
      (selectedSegment app) app
  else app.

(** The operations on the roster. *)
Inductive RosterOp : Type :=
| AddSpeaker
| RemoveSpeaker (speakerNum' : Z).

Definition run_roster_op (app : App) (op : RosterOp) : App :=
  match op with
  | AddSpeaker => addSpeaker app
  | RemoveSpeaker speakerNum' => removeSpeaker speakerNum' app
  end.

(* ================================================================== *)
(** * Selection ([deleteSegment], [goToNextSegment], [goToPreviousSegment]) *)
(* ================================================================== *)

(** [selectSegment(segment)] and [closeEditor()]: the selection is held
    by the identifier of the selected segment. *)
Definition selectSegment (segment : Segment) (app : App) : App :=
  with_live (speakerTracks app) (segments app) (Some (seg_id segment)) app.

Definition closeEditor (app : App) : App :=
  with_live (speakerTracks app) (segments app) None app.

(** [deleteSegment()]. *)
Definition deleteSegment (now : Z) (app : App) : App :=
  match selectedSegment app with
  | None => app
  | Some id =>
      let app1 := saveState "delete segment" now app in
      let app2 :=
        with_live (speakerTracks app1)
          (filter (fun s => negb (seg_id s =? id)%string) (segments app1))
          (selectedSegment app1) app1 in
      showToast "Segment deleted" "info" (closeEditor app2)
  end.

(** [segments.sort((a, b) => a.start - b.start)]: a stable sort by
    start. *)
Fixpoint insert_by_start (s : Segment) (l : list Segment) : list Segment :=
  match l with
  | [] => [s]
  | t :: rest =>
      if Qle_bool (start s) (start t) then s :: l
      else t :: insert_by_start s rest
  end.

Definition sort_by_start (l : list Segment) : list Segment :=
  fold_right insert_by_start [] l.

(** [a.findIndex(p)], counting from [i]: [-1] when no element passes. *)
Fixpoint findIndex_from {A : Type} (p : A -> bool) (a : list A) (i : Z) : Z :=
  match a with
  | [] => (-1)%Z
  | x :: rest => if p x then i else findIndex_from p rest (i + 1)%Z
  end.

Definition findIndex {A : Type} (p : A -> bool) (a : list A) : Z :=
  findIndex_from p a 0.

(** [goToNextSegment()].  The index read is below the length, so that the
    segment exists. *)
Definition goToNextSegment (app : App) : App :=
  match selectedSegment app with
  | None => app
  | Some id =>
      let sorted := sort_by_start (segments app) in
      let currentIndex := findIndex (fun s => (seg_id s =? id)%string) sorted in
      if (currentIndex <? JS.length sorted - 1)%Z then
        match JS.index sorted (currentIndex + 1) with
        | Some segment => selectSegment segment app
        | None => app
        end
      else app
  end.

(** [goToPreviousSegment()]. *)
Definition goToPreviousSegment (app : App) : App :=
  match selectedSegment app with
  | None => app
  | Some id =>
      let sorted := sort_by_start (segments app) in
      let currentIndex := findIndex (fun s => (seg_id s =? id)%string) sorted in
      if (0 <? currentIndex)%Z then
        match JS.index sorted (currentIndex - 1) with
        | Some segment => selectSegment segment app
        | None => app
        end
      else app
  end.

(* ================================================================== *)
(** * Saving and exporting ([saveProject], [exportCSV], [escapeXml]) *)
(* ================================================================== *)

(** The speakers and the segments of the object [saveProject] writes, as
    [importProject] reads them back: it reads neither the identifiers of
    the segments nor the version, the date and the audio entry. *)
Definition saveProject (app : App) : Project :=
  {| project_speakers := map save_speaker (speakerTracks app);
     project_segments :=
       map (fun s => {| project_start := start s; project_end := end_ s;
                        project_speaker := speaker s;
                        project_transcription := transcription s |})
           (segments app) |}.

(** The characters [&], [<], [>], the double quote, the apostrophe and
    the line feed. *)
Definition amp : ascii := Ascii.ascii_of_nat 38.
Definition lt_sign : ascii := Ascii.ascii_of_nat 60.
Definition gt_sign : ascii := Ascii.ascii_of_nat 62.
Definition quote : ascii := Ascii.ascii_of_nat 34.
Definition apos : ascii := Ascii.ascii_of_nat 39.
Definition newline : ascii := Ascii.ascii_of_nat 10.

(** [text.replace(/c/g, by)] for a single character [c]. *)
Fixpoint replace_all (c : ascii) (by_ : string) (text : string) : string :=
  match text with
  | EmptyString => EmptyString
  | String x rest =>
      if Ascii.eqb x c then (by_ ++ replace_all c by_ rest)%string
      else String x (replace_all c by_ rest)
  end.

(** [escapeXml(text)]. *)
Definition escapeXml (text : string) : string :=
  replace_all apos "&apos;"
    (replace_all quote "&quot;"
       (replace_all gt_sign "&gt;"
          (replace_all lt_sign "&lt;"
             (replace_all amp "&amp;" text)))).

(** One line of [exportCSV]; [toFixed3] is [Number.prototype.toFixed]
    at three decimals. *)
Definition csv_line (toFixed3 : Q -> string) (s : Segment) : string :=
  (seg_id s ++ "," ++ toFixed3 (start s) ++ "," ++ toFixed3 (end_ s) ++ ","
   ++ toFixed3 (end_ s - start s) ++ "," ++ numeral (speaker s) ++ ","
   ++ String quote
        (replace_all quote (String quote (String quote EmptyString))
           (transcription s))
   ++ String quote (String newline EmptyString))%string.

(** [exportCSV()]: the text handed to [downloadFile] and the application
    afterwards; [this.segments.sort] sorts the live array in place. *)
Definition exportCSV (toFixed3 : Q -> string) (app : App) : string * App :=
  let sorted := sort_by_start (segments app) in
  let csv :=
    fold_left (fun csv s => (csv ++ csv_line toFixed3 s)%string) sorted
      ("ID,Start,End,Duration,Speaker,Transcription"
       ++ String newline EmptyString)%string in
  (csv, with_live (speakerTracks app) sorted (selectedSegment app) app).

(* ================================================================== *)
(** * Vocabulary of the statements *)
(* ================================================================== *)

(** The scan loop of [segmentBySilence] without its progress reports. *)
Fixpoint silence_run (rate threshold minDuration tolerance : Q)
    (samples : list Q) (i : Z) (st : SilenceScan) : SilenceScan :=
  match samples with
  | [] => st
  | x :: rest =>
      silence_run rate threshold minDuration tolerance rest (i + 1)%Z
        (silence_step rate threshold minDuration tolerance i x st)
  end.

(** The duration of a provisional segment. *)
Definition duration (seg : ProvSegment) : Q := p_end seg - p_start seg.

(** The segment [segmentBySilence] emits for the span [[from, to]]. *)
Definition silence_segment (from to : Q) : ProvSegment :=
  {| p_start := from; p_end := to; p_speaker := spk 1; p_f0 := None |}.

(** The live state that a capture records: the segments and the speakers
    as [saveState] copies them. *)
Definition live_state (app : App) : list SavedSegment * list SavedSpeaker :=
  (map save_segment (segments app), map save_speaker (speakerTracks app)).

(** The states reached from [app] by a sequence of history operations. *)
Definition run_ops (ops : list HistoryOp) (app : App) : App :=
  fold_left run_op ops app.

(** The number of saved states on both stacks. *)
Definition history_size (app : App) : Z :=
  (JS.length (undoStack app) + JS.length (redoStack app))%Z.

(** The live segment [runAutoSegmentation] creates, under the identifier
    [id], for a provisional segment. *)
Definition created_segment (id : string) (seg : ProvSegment) : Segment :=
  {| seg_id := id; start := p_start seg; end_ := p_end seg;
     speaker := speakerNumOf (p_speaker seg); transcription := "";
     color := colorOf (speakerNumOf (p_speaker seg)) |}.

(** A provisional segment without pitch and with the default tag. *)
Definition unlabelled (seg : ProvSegment) : Prop :=
  p_f0 seg = None /\ p_speaker seg = spk 1.

(** A voiced frame. *)
Definition voiced (feat : Feature) : Prop := isVoiced feat = true.

(** The segment of a run of frames: from the time of its first frame to
    the time of its last frame. *)
Definition run_segment (run : list Feature) : list ProvSegment :=
  match run with
  | [] => []
  | first :: _ =>
      [ {| p_start := time first; p_end := time (last run first);
           p_speaker := spk 1; p_f0 := None |} ]
  end.

(** [Runs features runs]: [runs] lists, in order, the maximal runs of
    consecutive voiced frames of [features] that are followed by a frame
    that is not voiced.  A run that reaches the last frame is not
    listed. *)
Inductive Runs : list Feature -> list (list Feature) -> Prop :=
| runs_nil : Runs [] []
| runs_unvoiced (feat : Feature) (features : list Feature) (runs : list (list Feature)) :
    isVoiced feat = false ->
    Runs features runs ->
    Runs (feat :: features) runs
| runs_closed (run : list Feature) (feat : Feature) (features : list Feature)
    (runs : list (list Feature)) :
    run <> [] ->
    Forall voiced run ->
    isVoiced feat = false ->
    Runs features runs ->
    Runs (run ++ feat :: features) (run :: runs)
| runs_open (run : list Feature) :
    run <> [] ->
    Forall voiced run ->
    Runs run [].

(** A run of more than ten frames. *)
Definition long_run (run : list Feature) : bool := (10 <? JS.length run)%Z.

(** The frames before a run start a new run: there is none, or the last
    of them is not voiced. *)
Definition closed_before (pre : list Feature) : Prop :=
  pre = [] \/ exists pre' feat, pre = pre' ++ [feat] /\ isVoiced feat = false.

(** A number that is an integer. *)
Definition integral (v : Q) : Prop := exists z : Z, v == inject_Z z.

(** Reports in order, none below [lo] and none above [hi]. *)
Definition between (lo hi : Q) (reports : list Q) : Prop :=
  StronglySorted Qle reports /\ Forall (fun v => lo <= v <= hi) reports.

(** The rounded percentage [Math.round(i / n * c)] of a loop, for
    [c] = 100, 50 or 40. *)
Definition rounded (c : Z) (n i : Z) : Q :=
  inject_Z (JS.Math_round (JS.num i / JS.num n * inject_Z c)).

(* ================================================================== *)
(** * Sample inputs *)
(* ================================================================== *)

(** The parameters of the form with its default pitch bounds. *)
Definition sample_params (threshold minDuration toleranceMs : Q) : Params :=
  {| silenceThreshold := threshold; minSegmentDuration := minDuration;
     pauseTolerance := toleranceMs; numSpeakers := 2;
     f0Min := 75; f0Max := 300; f0Confidence := 1 # 4 |}.

(** One loud sample followed by silence, at 8192 Hz. *)
Definition click_buffer : AudioBuffer :=
  {| channelData := [1 # 2; 0; 0]; sampleRate := 8192 |}.

(** Two seconds of silence, one second at amplitude 0.5 and one second of
    silence, at 8 Hz. *)
Definition speech_buffer : AudioBuffer :=
  {| channelData := repeat 0 16 ++ repeat (1 # 2) 8 ++ repeat 0 8;
     sampleRate := 8 |}.

(** An application with three default speakers, no segment, no audio and
    an empty history. *)
Definition sample_app : App :=
  {| speakerTracks :=
       [ {| speakerNum := 1; name := "Speaker 1"%string |};
         {| speakerNum := 2; name := "Speaker 2"%string |};
         {| speakerNum := 3; name := "Speaker 3"%string |} ];
     segments := [];
     selectedSegment := None;
     audioBuffer := None;
     undoStack := []; redoStack := [];
     toasts := [] |}.

(** A project file with one speaker and one segment. *)
Definition sample_project : Project :=
  {| project_speakers := [ {| saved_num := 1; saved_name := "Alice"%string |} ];
     project_segments :=
       [ {| project_start := 0; project_end := 1; project_speaker := 1;
            project_transcription := "hello"%string |} ] |}.

(** Identifiers [seg_0], [seg_1], ... *)
Definition sample_ids (k : Z) : string := ("seg_" ++ numeral k)%string.

(** Fifty-one captures, stamped 0 to 50. *)
Definition sample_captures : list HistoryOp :=
  map (fun now => Capture "edit"%string now) (indices 51).

(** The three default tracks renamed, and one segment of speaker 2. *)
Definition renamed_tracks : list SpeakerTrack :=
  [ {| speakerNum := 1; name := "Ann"%string |};
    {| speakerNum := 2; name := "Bob"%string |};
    {| speakerNum := 3; name := "Cy"%string |} ].

Definition sample_segment : Segment :=
  {| seg_id := "seg_0"%string; start := 1 # 2; end_ := 3 # 2; speaker := 2;
     transcription := "bonjour"%string; color := colorOf 2 |}.

(** Four hundred samples of digital silence, at 8192 Hz. *)
Definition silent_buffer : AudioBuffer :=
  {| channelData := repeat 0 400; sampleRate := 8192 |}.

(** The parameters of the form with the pitch bounds exchanged:
    [f0Min = 300] and [f0Max = 75]. *)
Definition inverted_params : Params :=
  {| silenceThreshold := 1 # 10; minSegmentDuration := 3 # 10;
     pauseTolerance := 200; numSpeakers := 2;
     f0Min := 300; f0Max := 75; f0Confidence := 1 # 4 |}.

(** [sample_app] once [speech_buffer] is loaded. *)
Definition loaded_app : App :=
  {| speakerTracks := speakerTracks sample_app;
     segments := [];
     selectedSegment := None;
     audioBuffer := Some speech_buffer;
     undoStack := []; redoStack := [];
     toasts := [] |}.

(** At 8000 Hz (frames of 200 samples every 80 samples): 800 samples at
    full scale and 201 samples of silence.  Frames 0 to 9 are voiced and
    frame 10, the last, is not. *)
Definition ten_frames_buffer : AudioBuffer :=
  {| channelData := repeat 1 800 ++ repeat 0 201; sampleRate := 8000 |}.

(** The same with 880 samples at full scale: frames 0 to 10 are voiced
    and frame 11, the last, is not. *)
Definition eleven_frames_buffer : AudioBuffer :=
  {| channelData := repeat 1 880 ++ repeat 0 201; sampleRate := 8000 |}.

(** 1081 samples at full scale: the twelve frames are voiced. *)
Definition loud_buffer : AudioBuffer :=
  {| channelData := repeat 1 1081; sampleRate := 8000 |}.

(** A frame feature of energy [e] at time [t]. *)
Definition sample_feature (t e : Q) : Feature :=
  {| time := t; energy := e; zcr := 0; spectralCentroid := 0;
     isVoiced := JS.gt e energyCutoff |}.

(** The features [vad_features] computes on a buffer, when it returns. *)
Definition features_of (buf : AudioBuffer) : list Feature :=
  match result (vad_features buf) with
  | Returns features => features
  | _ => []
  end.

(** The twelve features of [loud_buffer]. *)
Definition loud_features : list Feature :=
  Eval vm_compute in features_of loud_buffer.

(** Eleven voiced frames, one every 10 ms, and a frame of silence. *)
Definition voiced_frames : list Feature :=
  map (fun k => sample_feature (inject_Z k / 100) 1) (indices 11).

Definition silent_frame : Feature := sample_feature (11 # 100) 0.

(** [sample_app] once [eleven_frames_buffer] is loaded. *)
Definition voiced_app : App :=
  {| speakerTracks := speakerTracks sample_app;
     segments := [];
     selectedSegment := None;
     audioBuffer := Some eleven_frames_buffer;
     undoStack := []; redoStack := [];
     toasts := [] |}.

(** [sample_app] once 101000 samples of silence at 8000 Hz are loaded. *)
Definition long_silence_app : App :=
  {| speakerTracks := speakerTracks sample_app;
     segments := [];
     selectedSegment := None;
     audioBuffer :=
       Some {| channelData := repeat 0 (Z.to_nat 101000); sampleRate := 8000 |};
     undoStack := []; redoStack := [];
     toasts := [] |}.

(** A segment that ends before another starts. *)
Definition precedes (a b : ProvSegment) : Prop := p_end a < p_start b.

(** The state of the scan loop before index [i]: the segments found are
    disjoint and in order, each ends before the time of index [i], and
    the segment still open starts after them. *)
Definition scan_ordered (rate : Q) (i : Z) (st : SilenceScan) : Prop :=
  StronglySorted precedes (found st) /\
  Forall (fun s => 0 <= p_start s /\ p_start s <= p_end s /\
                   p_end s < JS.num i / rate) (found st) /\
  (inSpeech st = true ->
   0 <= segmentStart st /\ segmentStart st <= silenceStart st /\
   silenceStart st < JS.num i / rate /\
   Forall (fun s => p_end s < segmentStart st) (found st)).

(** The loop of [previewSegmentation] and the loop of [segmentBySilence]
    in step: the count is the number of segments found. *)
Definition preview_matches (pv : PreviewScan) (st : SilenceScan) : Prop :=
  pv_count pv = JS.length (found st) /\
  pv_inSpeech pv = inSpeech st /\
  pv_segmentStart pv = segmentStart st /\
  pv_silenceStart pv = silenceStart st.

(** A segment that ends before the end of the buffer. *)
Definition ends_inside (buf : AudioBuffer) (seg : ProvSegment) : bool :=
  JS.lt (p_end seg) (JS.num (JS.length (channelData buf)) / sampleRate buf).


(** The six pitches of the clustering scenario. *)
Definition sample_pitches : list Q := [100; 102; 98; 200; 205; 198].

(** A live segment as [runAutoSegmentation] creates it: a speaker number
    from 1 on, a colour of the palette and no transcription. *)
Definition well_coloured (s : Segment) : Prop :=
  (1 <= speaker s)%Z /\
  (exists c, color s = Some c /\ In c speakerColors) /\
  transcription s = ""%string.

(** Tracks numbered 1, 2, ..., in order. *)
Definition numbered (tracks : list SpeakerTrack) : Prop :=
  map speakerNum tracks = map (fun idx => idx + 1)%Z (indices (JS.length tracks)).

(** A track that carries the name its number gives it. *)
Definition default_named (t : SpeakerTrack) : Prop :=
  name t = default_name (speakerNum t).

(** Three tracks with names of their own, and segments of speakers 2
    and 3. *)
Definition named_app : App :=
  {| speakerTracks := renamed_tracks;
     segments :=
       [ sample_segment;
         {| seg_id := "seg_1"%string; start := 2; end_ := 3; speaker := 3;
            transcription := "salut"%string; color := colorOf 3 |} ];
     selectedSegment := Some "seg_0"%string;
     audioBuffer := None;
     undoStack := []; redoStack := [];
     toasts := [] |}.

(** The four strategies of the form. *)
Definition named_strategy (strategy : string) : Prop :=
  strategy = "silence"%string \/ strategy = "silence_f0"%string \/
  strategy = "vad_clustering"%string \/ strategy = "sliding_window"%string.

(** The values of the form by default. *)
Definition sample_inputs : FormInputs :=
  {| in_silenceThreshold := 1 # 10; in_minSegmentDuration := 3 # 10;
     in_minSilenceDuration := 2 # 10; in_numSpeakers := 2;
     in_f0Min := 75; in_f0Max := 300; in_f0Confidence := 1 # 4 |}.

(** A live segment that has a colour of the palette, the one of its
    speaker. *)
Definition coloured (s : Segment) : Prop :=
  color s = colorOf (speaker s) /\ exists c, color s = Some c /\ In c speakerColors.

(** A segment that starts no later than another. *)
Definition starts_before (a b : Segment) : Prop := start a <= start b.

(** [named_app] with its two segments exchanged. *)
Definition unsorted_app : App :=
  {| speakerTracks := renamed_tracks;
     segments := rev (segments named_app);
     selectedSegment := Some "seg_0"%string;
     audioBuffer := None;
     undoStack := []; redoStack := [];
     toasts := [] |}.

(** A [toFixed(3)] for the examples: the integer part only. *)
Definition sample_toFixed3 (x : Q) : string := numeral (Qfloor x).

(** [named_app] with a selection that none of its segments carries. *)
Definition stale_app : App :=
  with_live (speakerTracks named_app) (segments named_app)
    (Some "seg_9"%string) named_app.

(** The entity of one character, or the character itself. *)
Definition escape_char (c : ascii) : string :=
  if Ascii.eqb c amp then "&amp;"%string
  else if Ascii.eqb c lt_sign then "&lt;"%string
  else if Ascii.eqb c gt_sign then "&gt;"%string
  else if Ascii.eqb c quote then "&quot;"%string
  else if Ascii.eqb c apos then "&apos;"%string
  else String c EmptyString.

(** A text escaped in one pass, character by character. *)
Fixpoint escape_chars (text : string) : string :=
  match text with
  | EmptyString => EmptyString
  | String c rest => (escape_char c ++ escape_chars rest)%string
  end.

(** The characters that markup may not hold as they are: [<], [>], the
    double quote and the apostrophe. *)
Definition markup (c : ascii) : Prop :=
  c = lt_sign \/ c = gt_sign \/ c = quote \/ c = apos.

(** The character [c] occurs in [text]. *)
Definition occurs (c : ascii) (text : string) : Prop :=
  In c (list_ascii_of_string text).

(** A frame taken before another. *)
Definition earlier (a b : Feature) : Prop := time a < time b.

(** The state of the loop over the features when every frame seen has a
    time in [lo, hi) and at most [t]: the segments are in order, one
    ending before the next starts, each starts before it ends, and the
    open run, if any, starts after them. *)
Definition vad_ordered (lo hi t : Q)
    (acc : option (Q * list Feature) * list ProvSegment) : Prop :=
  StronglySorted precedes (snd acc) /\
  Forall (fun s => lo <= p_start s /\ p_start s < p_end s /\ p_end s < hi)
         (snd acc) /\
  match fst acc with
  | None => Forall (fun s => p_end s <= t) (snd acc)
  | Some (start, feats) =>
      exists first rest,
        feats = first :: rest /\ start = time first /\
        StronglySorted earlier feats /\
        Forall (fun f => lo <= time f /\ time f <= t /\ time f < hi) feats /\
        Forall (fun s => p_end s < start) (snd acc)
  end.



(** One period of a train of pulses, one pulse every 16 samples. *)
Definition pulse_period : list Q := 1 :: repeat 0 15.

(** At 2000 Hz: 401 samples at full scale, 30 samples of silence, 25
    periods of the train of pulses closed by a last pulse, and 30 samples
    of silence.  The first sound has its greatest autocorrelation sum at
    the first lag examined, the second at the lag of 16 samples. *)
Definition two_voices_buffer : AudioBuffer :=
  {| channelData :=
       repeat 1 401 ++ repeat 0 30
       ++ concat (repeat pulse_period 25) ++ [1] ++ repeat 0 30;
     sampleRate := 2000 |}.

(** A threshold of 0.1, segments of 0.1 s at least, pauses of more than
    10 ms, two speakers and pitches between 100 Hz and 200 Hz. *)
Definition two_voices_params : Params :=
  {| silenceThreshold := 1 # 10; minSegmentDuration := 1 # 10;
     pauseTolerance := 10; numSpeakers := 2;
     f0Min := 100; f0Max := 200; f0Confidence := 1 # 4 |}.

(** A segment after the pitch loop and the segment it comes from: the
    same bounds and tag, and the pitch [extractF0] returns on its
    bounds. *)
Definition estimated_from (audioBuffer : option AudioBuffer) (f0Min f0Max : Q)
    (seg estimated : ProvSegment) : Prop :=
  p_start estimated = p_start seg /\
  p_end estimated = p_end seg /\
  p_speaker estimated = p_speaker seg /\
  extractF0 audioBuffer (p_start seg) (p_end seg) f0Min f0Max
  = ret (p_f0 estimated).

(** At 2000 Hz (frames of 50 samples every 20 samples): twice 300 samples
    at full scale and 100 samples of silence.  The frames at the samples
    0 to 280 and 360 to 680 are voiced, the others are not. *)
Definition two_runs_buffer : AudioBuffer :=
  {| channelData := repeat 1 300 ++ repeat 0 100 ++ repeat 1 300 ++ repeat 0 100;
     sampleRate := 2000 |}.

(** [sample_app] once [two_voices_buffer] is loaded. *)
Definition two_voices_app : App :=
  {| speakerTracks := speakerTracks sample_app;
     segments := [];
     selectedSegment := None;
     audioBuffer := Some two_voices_buffer;
     undoStack := []; redoStack := [];
     toasts := [] |}.

(** [two_voices_params] with the pitch bounds exchanged: [f0Min = 200]
    and [f0Max = 100]. *)
Definition inverted_voices_params : Params :=
  {| silenceThreshold := 1 # 10; minSegmentDuration := 1 # 10;
     pauseTolerance := 10; numSpeakers := 2;
     f0Min := 200; f0Max := 100; f0Confidence := 1 # 4 |}.

(** A project file whose only speaker is numbered 0, and one whose only
    segment is of speaker 0. *)
Definition colourless_speaker_project : Project :=
  {| project_speakers := [ {| saved_num := 0; saved_name := "Zero"%string |} ];
     project_segments := [] |}.

Definition colourless_segment_project : Project :=
  {| project_speakers := [];
     project_segments :=
       [ {| project_start := 0; project_end := 1; project_speaker := 0;
            project_transcription := "hello"%string |} ] |}.

(* ================================================================== *)
(** * Numbers and runs: basic facts *)
(* ================================================================== *)

Lemma gt_true x y : JS.gt x y = true <-> y < x.
Proof.
  unfold JS.gt. rewrite negb_true_iff, <- not_true_iff_false, Qle_bool_iff.
  split; [apply Qnot_le_lt | apply Qlt_not_le].
Qed.

Lemma gt_false x y : JS.gt x y = false <-> x <= y.
Proof.
  unfold JS.gt. rewrite negb_false_iff. apply Qle_bool_iff.
Qed.

Lemma ge_true x y : JS.ge x y = true <-> y <= x.
Proof. unfold JS.ge. apply Qle_bool_iff. Qed.

Lemma result_ret {A : Type} (a : A) : result (ret a) = Returns a.
Proof. reflexivity. Qed.

Lemma result_bind {A B : Type} (m : Run A) (k : A -> Run B) :
  result (bind m k) =
  match result m with
  | Returns a => result (k a)
  | Throws e => Throws e
  | Diverges => Diverges
  end.
Proof. unfold bind, result. destruct (snd m); reflexivity. Qed.

Lemma trace_bind {A B : Type} (m : Run A) (k : A -> Run B) :
  trace (bind m k) =
  trace m ++ match result m with
             | Returns a => trace (k a)
             | _ => []
             end.
Proof.
  unfold bind, result, trace. destruct (snd m); simpl; auto using app_nil_r.
Qed.

Lemma lt_true x y : JS.lt x y = true <-> x < y.
Proof. unfold JS.lt. apply (gt_true y x). Qed.

Lemma result_with_callback {A : Type} (f : Q -> Q) (m : Run A) :
  result (with_callback f m) = result m.
Proof. reflexivity. Qed.

Lemma trace_with_callback {A : Type} (f : Q -> Q) (m : Run A) :
  trace (with_callback f m) = map f (trace m).
Proof. reflexivity. Qed.

(* ================================================================== *)
(** * Silence segmenter *)
(* ================================================================== *)

Section SilenceFacts.

Variable stride : Z.
Variables rate threshold minDuration tolerance : Q.
Variable len : Z.

Local Abbreviation step := (silence_step rate threshold minDuration tolerance).
Local Abbreviation run := (silence_run rate threshold minDuration tolerance).

Lemma silence_progress_returns i :
  result (silence_progress stride len i) = Returns tt.
Proof. unfold silence_progress. destruct (JS.divisible i stride); reflexivity. Qed.

(** The loop always ends, in the state of the scan without reports. *)
Lemma silence_loop_result samples : forall i st,
  result (silence_loop stride rate threshold minDuration tolerance len samples i st)
  = Returns (run samples i st).
Proof.
  induction samples as [|x rest IH]; intros i st; simpl.
  - reflexivity.
  - rewrite result_bind, silence_progress_returns. apply IH.
Qed.

(** What one step does to the segments found so far. *)
Lemma silence_step_found i x st :
  found (step i x st) = found st \/
  (found (step i x st) = found st ++ [silence_segment (segmentStart st) (silenceStart st)]
   /\ minDuration <= silenceStart st - segmentStart st).
Proof.
  unfold silence_step.
  destruct (JS.gt (JS.Math_abs x) threshold); [left; reflexivity|].
  destruct (inSpeech st && JS.gt (JS.num i / rate - silenceStart st) tolerance);
    [|left; reflexivity].
  simpl. destruct (JS.ge (silenceStart st - segmentStart st) minDuration) eqn:E.
  - right. split; [reflexivity | now apply ge_true].
  - left; reflexivity.
Qed.

Lemma silence_run_long_enough samples : forall i st,
  Forall (fun seg => minDuration <= duration seg) (found st) ->
  Forall (fun seg => minDuration <= duration seg) (found (run samples i st)).
Proof.
  induction samples as [|x rest IH]; intros i st H; simpl; [exact H|].
  apply IH. destruct (silence_step_found i x st) as [E | [E Hd]]; rewrite E.
  - exact H.
  - apply Forall_app. split; [exact H|]. constructor; [exact Hd | constructor].
Qed.

Lemma silence_close_long_enough st :
  Forall (fun seg => minDuration <= duration seg) (found st) ->
  Forall (fun seg => minDuration <= duration seg)
         (silence_close rate minDuration len st).
Proof.
  intros H. unfold silence_close.
  destruct (inSpeech st); [|exact H].
  destruct (JS.ge (JS.num len / rate - segmentStart st) minDuration) eqn:E; [|exact H].
  apply Forall_app. split; [exact H|].
  constructor; [|constructor]. now apply ge_true in E.
Qed.

(** A sample at or below the threshold never opens a segment. *)
Lemma silence_run_quiet samples : forall i st,
  Forall (fun x => Qabs x <= threshold) samples ->
  inSpeech st = false ->
  run samples i st = st.
Proof.
  induction samples as [|x rest IH]; intros i st Hq Hs; simpl; [reflexivity|].
  inversion Hq as [|? ? Hx Hrest]; subst.
  assert (E : step i x st = st).
  { unfold silence_step.
    apply gt_false in Hx. unfold JS.Math_abs. rewrite Hx, Hs. reflexivity. }
  rewrite E. now apply IH.
Qed.

(** While every sample is above the threshold the open segment stays
    open. *)
Lemma silence_run_loud samples : forall i st,
  Forall (fun x => threshold < Qabs x) samples ->
  inSpeech st = true ->
  inSpeech (run samples i st) = true /\
  segmentStart (run samples i st) = segmentStart st /\
  found (run samples i st) = found st.
Proof.
  induction samples as [|x rest IH]; intros i st Hq Hs; simpl; [auto|].
  inversion Hq as [|? ? Hx Hrest]; subst.
  assert (E : step i x st =
              {| inSpeech := true; segmentStart := segmentStart st;
                 silenceStart := JS.num i / rate; found := found st |}).
  { unfold silence_step.
    apply gt_true in Hx. unfold JS.Math_abs. rewrite Hx, Hs. reflexivity. }
  rewrite E.
  exact (IH (i + 1)%Z
            {| inSpeech := true; segmentStart := segmentStart st;
               silenceStart := JS.num i / rate; found := found st |}
            Hrest eq_refl).
Qed.

(** The scan of two runs of samples in a row. *)
Lemma silence_run_app front back : forall i st,
  run (front ++ back) i st = run back (i + JS.length front) (run front i st).
Proof.
  induction front as [|x front IH]; intros i st; cbn [app silence_run].
  - unfold JS.length. cbn [length]. now rewrite Z.add_0_r.
  - rewrite IH. unfold JS.length. cbn [length]. rewrite Nat2Z.inj_succ.
    f_equal. lia.
Qed.

(** Samples above the threshold, from index [i] on: the segment opens at
    the first one, unless it is open already, and the last one is the
    latest sound heard. *)
Lemma silence_run_speech samples : forall i st,
  samples <> [] ->
  Forall (fun x => threshold < Qabs x) samples ->
  run samples i st =
  {| inSpeech := true;
     segmentStart := if inSpeech st then segmentStart st else JS.num i / rate;
     silenceStart := JS.num (i + JS.length samples - 1) / rate;
     found := found st |}.
Proof.
  induction samples as [|x rest IH]; intros i st Hne Hloud; [congruence|].
  inversion Hloud as [|? ? Hx Hrest]; subst. cbn [silence_run].
  assert (E : step i x st =
              {| inSpeech := true;
                 segmentStart :=
                   if inSpeech st then segmentStart st else JS.num i / rate;
                 silenceStart := JS.num i / rate; found := found st |}).
  { unfold silence_step. apply gt_true in Hx. unfold JS.Math_abs.
    now rewrite Hx. }
  rewrite E. destruct rest as [|y rest].
  - cbn [silence_run].
    replace (i + JS.length [x] - 1)%Z with i
      by (unfold JS.length; cbn [length]; lia).
    reflexivity.
  - rewrite IH by (try discriminate; exact Hrest).
    cbn [inSpeech segmentStart found].
    replace (i + 1 + JS.length (y :: rest) - 1)%Z
      with (i + JS.length (x :: y :: rest) - 1)%Z
      by (unfold JS.length; cbn [length]; lia).
    reflexivity.
Qed.

(** Samples at or below the threshold after speech, the last of them
    later than the pause tolerance after the latest sound: the open
    segment is closed in the loop, and kept exactly when it lasts
    [minDuration] or more. *)
Lemma silence_run_pause samples : forall i st,
  samples <> [] ->
  Forall (fun x => Qabs x <= threshold) samples ->
  inSpeech st = true ->
  tolerance < JS.num (i + JS.length samples - 1) / rate - silenceStart st ->
  run samples i st =
  {| inSpeech := false;
     segmentStart := segmentStart st;
     silenceStart := silenceStart st;
     found :=
       if JS.ge (silenceStart st - segmentStart st) minDuration
       then JS.push (found st)
              (silence_segment (segmentStart st) (silenceStart st))
       else found st |}.
Proof.
  induction samples as [|x rest IH]; intros i st Hne Hquiet Hopen Hlate;
    [congruence|].
  inversion Hquiet as [|? ? Hx Hrest]; subst. cbn [silence_run].
  apply gt_false in Hx.
  destruct (JS.gt (JS.num i / rate - silenceStart st) tolerance) eqn:Etest.
  - assert (E : step i x st =
                {| inSpeech := false;
                   segmentStart := segmentStart st;
                   silenceStart := silenceStart st;
                   found :=
                     if JS.ge (silenceStart st - segmentStart st) minDuration
                     then JS.push (found st)
                            (silence_segment (segmentStart st) (silenceStart st))
                     else found st |}).
    { unfold silence_step, JS.Math_abs. rewrite Hx, Hopen, Etest. reflexivity. }
    rewrite E. now apply silence_run_quiet.
  - assert (E : step i x st = st).
    { unfold silence_step, JS.Math_abs. rewrite Hx, Hopen, Etest. reflexivity. }
    rewrite E. destruct rest as [|y rest].
    + exfalso.
      replace (i + JS.length [x] - 1)%Z with i in Hlate
        by (unfold JS.length; cbn [length]; lia).
      apply gt_true in Hlate. congruence.
    + apply IH; [discriminate | exact Hrest | exact Hopen |].
      replace (i + 1 + JS.length (y :: rest) - 1)%Z
        with (i + JS.length (x :: y :: rest) - 1)%Z
        by (unfold JS.length; cbn [length]; lia).
      exact Hlate.
Qed.

End SilenceFacts.

(** What [segmentBySilenceEvery] returns, whatever the stride. *)
Lemma segmentBySilenceEvery_result stride buf params :
  result (segmentBySilenceEvery stride (Some buf) params) =
  Returns
    (silence_close (sampleRate buf) (minSegmentDuration params)
       (JS.length (channelData buf))
       (silence_run (sampleRate buf) (silenceThreshold params)
          (minSegmentDuration params) (pauseTolerance params / 1000)
          (channelData buf) 0 scan0)).
Proof.
  unfold segmentBySilenceEvery. rewrite result_bind, silence_loop_result.
  reflexivity.
Qed.

(** With the audio loaded [segmentBySilence] returns. *)
Lemma segmentBySilence_returns buf params :
  exists segs, result (segmentBySilence (Some buf) params) = Returns segs.
Proof.
  eexists. unfold segmentBySilence. apply segmentBySilenceEvery_result.
Qed.

(** C1, as amended: with the audio loaded [segmentBySilence] returns, and
    every segment it returns lasts at least [minSegmentDuration]
    ([end - start >= minSegmentDuration], the bound included), so that
    [end > start] as soon as [minSegmentDuration] is positive.  The
    threshold test is strict: a buffer whose samples all have
    [|x| <= threshold] gives no segment.  The duration test is inclusive,
    after the loop and in the loop.  After the loop: a buffer whose samples
    are all above the threshold gives the segment of the whole buffer
    exactly when [minSegmentDuration <= duration].  In the loop: on
    samples at or below the threshold, then samples above it, then samples
    at or below it of which the last comes later than the pause tolerance
    after the last sample above it, the result is the segment from the
    first to the last sample above the threshold when
    [minSegmentDuration <= duration], the two being equal included, and no
    segment when [duration < minSegmentDuration]. *)
Theorem segmentBySilence_minimum_duration :
  forall (buf : AudioBuffer) (params : Params),
  exists segs,
    result (segmentBySilence (Some buf) params) = Returns segs /\
    (forall seg, In seg segs ->
       minSegmentDuration params <= duration seg /\
       (0 < minSegmentDuration params -> p_start seg < p_end seg)) /\
    (Forall (fun x => Qabs x <= silenceThreshold params) (channelData buf) ->
     segs = []) /\
    (Forall (fun x => silenceThreshold params < Qabs x) (channelData buf) ->
     channelData buf <> [] ->
     let whole :=
       silence_segment (JS.num 0 / sampleRate buf)
         (JS.num (JS.length (channelData buf)) / sampleRate buf) in
     segs = if Qle_bool (minSegmentDuration params) (duration whole)
            then [whole] else []) /\
    (forall lead speech trail,
       channelData buf = lead ++ speech ++ trail ->
       Forall (fun x => Qabs x <= silenceThreshold params) lead ->
       speech <> [] ->
       Forall (fun x => silenceThreshold params < Qabs x) speech ->
       trail <> [] ->
       Forall (fun x => Qabs x <= silenceThreshold params) trail ->
       let first := JS.num (JS.length lead) / sampleRate buf in
       let last :=
         JS.num (JS.length lead + JS.length speech - 1) / sampleRate buf in
       pauseTolerance params / 1000
       < JS.num (JS.length (channelData buf) - 1) / sampleRate buf - last ->
       (minSegmentDuration params <= last - first ->
        segs = [silence_segment first last]) /\
       (last - first < minSegmentDuration params -> segs = [])).
Proof.
  intros buf params. eexists. split.
  { unfold segmentBySilence. apply segmentBySilenceEvery_result. }
  split; [|split; [|split]].
  - intros seg Hin.
    assert (H : Forall (fun s => minSegmentDuration params <= duration s)
                  (silence_close (sampleRate buf) (minSegmentDuration params)
                     (JS.length (channelData buf))
                     (silence_run (sampleRate buf) (silenceThreshold params)
                        (minSegmentDuration params) (pauseTolerance params / 1000)
                        (channelData buf) 0 scan0))).
    { apply silence_close_long_enough, silence_run_long_enough. constructor. }
    rewrite Forall_forall in H. specialize (H seg Hin).
    split; [exact H|]. intros Hpos. unfold duration in H. lra.
  - intros Hq. rewrite silence_run_quiet by (auto; reflexivity). reflexivity.
  - intros Hl Hne. destruct (channelData buf) as [|x rest] eqn:E; [congruence|].
    inversion Hl as [|? ? Hx Hrest]; subst. simpl silence_run.
    assert (E1 : silence_step (sampleRate buf) (silenceThreshold params)
                   (minSegmentDuration params) (pauseTolerance params / 1000)
                   0 x scan0 =
                 {| inSpeech := true; segmentStart := JS.num 0 / sampleRate buf;
                    silenceStart := JS.num 0 / sampleRate buf; found := [] |}).
    { unfold silence_step. apply gt_true in Hx. unfold JS.Math_abs.
      rewrite Hx. reflexivity. }
    rewrite E1.
    destruct (silence_run_loud (sampleRate buf) (silenceThreshold params)
                (minSegmentDuration params) (pauseTolerance params / 1000)
                rest 1%Z
                {| inSpeech := true; segmentStart := JS.num 0 / sampleRate buf;
                   silenceStart := JS.num 0 / sampleRate buf; found := [] |}
                Hrest eq_refl) as (Hs & Hstart & Hfound).
    unfold silence_close. rewrite Hs, Hstart, Hfound. simpl.
    unfold JS.ge, duration. simpl. reflexivity.
  - intros lead speech trail Hdata Hlead Hne Hspeech Hne' Htrail first last Hlate.
    rewrite Hdata in *.
    rewrite !silence_run_app.
    rewrite (silence_run_quiet _ _ _ _ lead 0 scan0 Hlead eq_refl).
    rewrite (silence_run_speech _ _ _ _ speech _ scan0 Hne Hspeech).
    cbn [inSpeech scan0].
    replace (0 + JS.length lead + JS.length speech - 1)%Z
      with (JS.length lead + JS.length speech - 1)%Z by lia.
    replace (0 + JS.length lead)%Z with (JS.length lead) by lia.
    fold first last.
    rewrite silence_run_pause; cbn [inSpeech segmentStart silenceStart found];
      [|exact Hne' | exact Htrail | reflexivity|].
    + unfold silence_close. cbn [inSpeech found].
      destruct (JS.ge (last - first) (minSegmentDuration params)) eqn:E.
      * apply ge_true in E. split; [reflexivity|]. intros Hshort. lra.
      * split; [|reflexivity]. intros Hlong. apply ge_true in Hlong. congruence.
    + replace (JS.length lead + JS.length speech + JS.length trail - 1)%Z
        with (JS.length (lead ++ speech ++ trail) - 1)%Z; [exact Hlate|].
      unfold JS.length. rewrite !length_app. lia.
Qed.

(** C1, witness: on two seconds of silence, one second of speech and one
    second of silence at 8 Hz, with the threshold at 0, the level of the
    silence, and [minSegmentDuration] at 7/8 s, the very duration of the
    speech: the segment is closed in the loop and kept. *)
Lemma segmentBySilence_minimum_duration_witness :
  exists segs,
    result (segmentBySilence (Some speech_buffer) (sample_params 0 (7 # 8) 200))
    = Returns segs /\
    segs = [silence_segment (16 # 8) (23 # 8)] /\
    duration (silence_segment (16 # 8) (23 # 8)) == 7 # 8 /\
    forall seg, In seg segs -> 7 # 8 <= duration seg /\ p_start seg < p_end seg.
Proof.
  destruct (segmentBySilence_minimum_duration speech_buffer
              (sample_params 0 (7 # 8) 200))
    as (segs & Hr & Hall & _ & _ & Hloop).
  assert (Hquiet : forall n, Forall (fun x => Qabs x <= 0) (repeat 0 n)).
  { intros n. apply Forall_forall. intros x Hx. apply repeat_spec in Hx.
    subst x. apply Qle_refl. }
  assert (Hloud : Forall (fun x => 0 < Qabs x) (repeat (1 # 2) 8)).
  { apply Forall_forall. intros x Hx. apply repeat_spec in Hx.
    subst x. reflexivity. }
  destruct (Hloop (repeat 0 16) (repeat (1 # 2) 8) (repeat 0 8) eq_refl
              (Hquiet 16%nat) ltac:(discriminate) Hloud ltac:(discriminate)
              (Hquiet 8%nat) ltac:(reflexivity)) as [Hkept _].
  exists segs. split; [exact Hr|]. split.
  - apply Hkept. unfold Qle. simpl. lia.
  - split; [reflexivity|]. intros seg Hin. destruct (Hall seg Hin) as [Hd Hpos].
    split; [exact Hd | apply Hpos; reflexivity].
Defined.

(** C1, counterexample: with [minSegmentDuration = 0] and
    [pauseTolerance = 0] a single loud sample is returned as a segment
    whose end equals its start. *)
Lemma segmentBySilence_empty_segment :
  exists seg,
    result (segmentBySilence (Some click_buffer) (sample_params (1 # 10) 0 0))
    = Returns [seg] /\
    p_end seg <= p_start seg.
Proof.
  exists (silence_segment (0 # 8192) (0 # 8192)). split.
  - vm_compute. reflexivity.
  - simpl. apply Qle_refl.
Qed.

(* ================================================================== *)
(** * History *)
(* ================================================================== *)

Lemma length_push {A : Type} (a : list A) (x : A) :
  JS.length (JS.push a x) = (JS.length a + 1)%Z.
Proof. unfold JS.length, JS.push. rewrite length_app. simpl. lia. Qed.

Lemma length_nonneg {A : Type} (a : list A) : (0 <= JS.length a)%Z.
Proof. unfold JS.length. lia. Qed.

Lemma pop_push {A : Type} (a : list A) (x : A) :
  JS.pop (JS.push a x) = Some (x, a).
Proof.
  unfold JS.pop, JS.push. rewrite rev_unit, rev_involutive. reflexivity.
Qed.

(** A successful [pop] took the last element. *)
Lemma pop_some {A : Type} (a rest : list A) (x : A) :
  JS.pop a = Some (x, rest) -> a = JS.push rest x.
Proof.
  unfold JS.pop, JS.push. destruct (rev a) as [|y r] eqn:E; [discriminate|].
  intros H. injection H as <- <-.
  rewrite <- (rev_involutive a), E. reflexivity.
Qed.

Lemma shift_push {A : Type} (a : list A) (x : A) :
  a <> [] -> JS.shift (JS.push a x) = JS.push (JS.shift a) x.
Proof. destruct a; [congruence | reflexivity]. Qed.

(** The stacks after a capture. *)
Lemma saveState_stacks actionName now app :
  redoStack (saveState actionName now app) = [] /\
  undoStack (saveState actionName now app) =
    if (maxHistorySize <? JS.length (undoStack app) + 1)%Z
    then JS.push (JS.shift (undoStack app)) (current_state actionName now app)
    else JS.push (undoStack app) (current_state actionName now app).
Proof.
  unfold saveState. simpl. split; [reflexivity|].
  rewrite length_push.
  destruct (maxHistorySize <? JS.length (undoStack app) + 1)%Z eqn:E; [|reflexivity].
  apply shift_push. intros Hnil. rewrite Hnil in E. discriminate.
Qed.

Lemma length_shift {A : Type} (a : list A) :
  a <> [] -> JS.length (JS.shift a) = (JS.length a - 1)%Z.
Proof.
  destruct a; [congruence|]. intros _.
  unfold JS.length, JS.shift. cbn [tl List.length]. lia.
Qed.

Lemma saveState_size actionName now app :
  (history_size app <= maxHistorySize)%Z ->
  (history_size (saveState actionName now app) <= maxHistorySize)%Z.
Proof.
  unfold history_size. intros H.
  destruct (saveState_stacks actionName now app) as [Hr Hu]. rewrite Hr, Hu.
  pose proof (length_nonneg (undoStack app)).
  pose proof (length_nonneg (redoStack app)).
  change (JS.length (@nil HistoryState)) with 0%Z.
  destruct (maxHistorySize <? JS.length (undoStack app) + 1)%Z eqn:E;
    rewrite length_push.
  - assert (Hne : undoStack app <> []).
    { intros Hnil. rewrite Hnil in E. discriminate. }
    rewrite (length_shift _ Hne). lia.
  - apply Z.ltb_ge in E. lia.
Qed.

Lemma undo_size now app : history_size (undo now app) = history_size app.
Proof.
  unfold undo, history_size. destruct (JS.pop (undoStack app)) as [[x rest]|] eqn:E.
  - destruct (redraw_raises x); simpl; apply pop_some in E;
      rewrite E, !length_push; lia.
  - reflexivity.
Qed.

Lemma redo_size now app : history_size (redo now app) = history_size app.
Proof.
  unfold redo, history_size. destruct (JS.pop (redoStack app)) as [[x rest]|] eqn:E.
  - destruct (redraw_raises x); simpl; apply pop_some in E;
      rewrite E, !length_push; lia.
  - reflexivity.
Qed.

Lemma run_ops_size ops : forall app,
  (history_size app <= maxHistorySize)%Z ->
  (history_size (run_ops ops app) <= maxHistorySize)%Z.
Proof.
  induction ops as [|op ops IH]; intros app H; simpl; [exact H|].
  apply IH. destruct op; simpl.
  - now apply saveState_size.
  - now rewrite undo_size.
  - now rewrite redo_size.
Qed.

(** C5: from an empty history, after any sequence of captures, undos and
    redos the undo stack holds at most [maxHistorySize = 50] states; a
    further capture empties the redo stack; below capacity it pushes the
    new state on top of the undo stack, and at capacity it pushes the new
    state and drops the state at index 0, the oldest. *)
Theorem history_bounded :
  forall (app0 : App) (ops : list HistoryOp),
    undoStack app0 = [] -> redoStack app0 = [] ->
    let app := run_ops ops app0 in
    (JS.length (undoStack app) <= 50)%Z /\
    forall actionName now,
      let app' := saveState actionName now app in
      redoStack app' = [] /\
      (JS.length (undoStack app) < 50 ->
       undoStack app' =
       JS.push (undoStack app) (current_state actionName now app))%Z /\
      (JS.length (undoStack app) = 50 ->
       undoStack app' =
       JS.push (JS.shift (undoStack app)) (current_state actionName now app))%Z.
Proof.
  intros app0 ops Hu Hr app.
  assert (Hsize : (history_size app <= maxHistorySize)%Z).
  { apply run_ops_size. unfold history_size. rewrite Hu, Hr. discriminate. }
  split.
  - unfold history_size in Hsize. pose proof (length_nonneg (redoStack app)).
    change maxHistorySize with 50%Z in Hsize. lia.
  - intros actionName now app'.
    destruct (saveState_stacks actionName now app) as [Hredo Hundo].
    split; [exact Hredo|]. split; intros Hlen; unfold app'; rewrite Hundo.
    + replace (maxHistorySize <? JS.length (undoStack app) + 1)%Z with false;
        [reflexivity|].
      symmetry. apply Z.ltb_ge. change maxHistorySize with 50%Z. lia.
    + replace (maxHistorySize <? JS.length (undoStack app) + 1)%Z with true;
        [reflexivity|].
      symmetry. apply Z.ltb_lt. change maxHistorySize with 50%Z. lia.
Qed.

(** C5, witness: fifty-one captures from the empty history of
    [sample_app]. *)
Lemma history_bounded_witness :
  let app := run_ops sample_captures sample_app in
  (JS.length (undoStack app) <= 50)%Z /\
  forall actionName now,
    let app' := saveState actionName now app in
    redoStack app' = [] /\
    (JS.length (undoStack app) < 50 ->
     undoStack app' =
     JS.push (undoStack app) (current_state actionName now app))%Z /\
    (JS.length (undoStack app) = 50 ->
     undoStack app' =
     JS.push (JS.shift (undoStack app)) (current_state actionName now app))%Z.
Proof.
  exact (history_bounded sample_app sample_captures eq_refl eq_refl).
Defined.

(** After the fifty-one captures the stack holds the states stamped 1 to
    50: the state stamped 0 was the one dropped. *)
Example sample_captures_evict_oldest :
  map timestamp (undoStack (run_ops sample_captures sample_app))
  = map Z.of_nat (seq 1 50).
Proof. vm_compute. reflexivity. Qed.

(** Saving a restored segment, and restoring nothing but the fields
    saved. *)
Lemma save_restore_segment s : save_segment (restore_segment s) = s.
Proof. destruct s; reflexivity. Qed.

Lemma save_restore_segments saved :
  map save_segment (map restore_segment saved) = saved.
Proof.
  rewrite map_map. rewrite <- (map_id saved) at 2.
  apply map_ext. exact save_restore_segment.
Qed.

(** A renaming passes over the tracks that carry another number. *)
Lemma rename_track_skip spk done tracks :
  ~ In (saved_num spk) (map speakerNum done) ->
  rename_track spk (done ++ tracks) = done ++ rename_track spk tracks.
Proof.
  induction done as [|t done IH]; intros Hnot; simpl; [reflexivity|].
  destruct (speakerNum t =? saved_num spk)%Z eqn:E.
  - apply Z.eqb_eq in E. exfalso. apply Hnot. left. exact E.
  - f_equal. apply IH. intros Hin. apply Hnot. right. exact Hin.
Qed.

(** Renaming the tracks from a copy of a roster with the same numbers, all
    distinct, gives the roster copied. *)
Lemma restore_names saved : forall done tracks,
  (forall spk, In spk saved -> ~ In (saved_num spk) (map speakerNum done)) ->
  NoDup (map saved_num saved) ->
  map speakerNum tracks = map saved_num saved ->
  map save_speaker
    (fold_left (fun ts spk => rename_track spk ts) saved (done ++ tracks))
  = map save_speaker done ++ saved.
Proof.
  induction saved as [|spk saved IH]; intros done tracks Hdone Hnodup Hnums.
  - destruct tracks; [|discriminate]. simpl. now rewrite !app_nil_r.
  - destruct tracks as [|t tracks]; [discriminate|].
    simpl in Hnums. injection Hnums as Ht Hrest.
    inversion Hnodup as [|? ? Hfresh Hnodup']; subst.
    cbn [fold_left]. rewrite rename_track_skip by (apply Hdone; now left).
    cbn [rename_track]. rewrite Ht, Z.eqb_refl.
    change (done ++ {| speakerNum := saved_num spk; name := saved_name spk |}
                 :: tracks)
      with (done ++ [{| speakerNum := saved_num spk; name := saved_name spk |}]
                 ++ tracks).
    rewrite app_assoc, IH; [| | exact Hnodup' | exact Hrest].
    + rewrite map_app, <- app_assoc. destruct spk; reflexivity.
    + intros spk' Hin. rewrite map_app, in_app_iff. intros [Hd | [Hs | []]].
      * apply (Hdone spk'); [now right | exact Hd].
      * simpl in Hs. apply Hfresh. rewrite Hs. now apply in_map.
Qed.

(** The live state after a restore, when the roster has the numbers of the
    roster saved. *)
Lemma restoreState_live state app :
  NoDup (map saved_num (state_speakers state)) ->
  map speakerNum (speakerTracks app) = map saved_num (state_speakers state) ->
  live_state (restoreState state app) = (state_segments state, state_speakers state).
Proof.
  intros Hnodup Hnums. unfold live_state, restoreState. simpl.
  rewrite save_restore_segments. f_equal.
  apply (restore_names (state_speakers state) [] (speakerTracks app));
    [intros ? ? [] | exact Hnodup | exact Hnums].
Qed.

Lemma saved_nums tracks :
  map saved_num (map save_speaker tracks) = map speakerNum tracks.
Proof. rewrite map_map. reflexivity. Qed.

(** The numbers of the tracks survive a renaming. *)
Lemma rename_track_nums spk tracks :
  map speakerNum (rename_track spk tracks) = map speakerNum tracks.
Proof.
  induction tracks as [|t tracks IH]; simpl; [reflexivity|].
  destruct (speakerNum t =? saved_num spk)%Z; simpl; [reflexivity | now rewrite IH].
Qed.

Lemma restoreState_nums state app :
  map speakerNum (speakerTracks (restoreState state app))
  = map speakerNum (speakerTracks app).
Proof.
  unfold restoreState. simpl.
  generalize (speakerTracks app).
  induction (state_speakers state) as [|spk saved IH]; intros tracks; simpl.
  - reflexivity.
  - rewrite IH. apply rename_track_nums.
Qed.

(** The top of the undo stack after a capture is the state captured. *)
Lemma pop_saveState actionName now app :
  exists rest,
    JS.pop (undoStack (saveState actionName now app))
    = Some (current_state actionName now app, rest).
Proof.
  destruct (saveState_stacks actionName now app) as [_ Hu]. rewrite Hu.
  destruct (maxHistorySize <? JS.length (undoStack app) + 1)%Z;
    eexists; apply pop_push.
Qed.

(** C6, as amended: let "B" be captured in a live state [beforeB] and the
    application be edited afterwards, the speaker tracks keeping the
    numbers they had at the capture, all distinct.  Then [undo] brings
    the segments and the speaker names back to those of [beforeB], and a
    [redo] right after brings back those the application had when [undo]
    was called.  On an empty undo stack [undo] changes nothing and only
    raises the toast "Nothing to undo". *)
Theorem undo_redo_restore :
  (forall (appA : App) (nowA nowB nowU nowR : Z)
          (tracks1 tracks2 : list SpeakerTrack) (segs1 segs2 : list Segment)
          (sel1 sel2 : option string),
     let atA := saveState "A" nowA appA in
     let beforeB := with_live tracks1 segs1 sel1 atA in
     let atB := saveState "B" nowB beforeB in
     let beforeUndo := with_live tracks2 segs2 sel2 atB in
     let afterUndo := undo nowU beforeUndo in
     let afterRedo := redo nowR afterUndo in
     NoDup (map speakerNum tracks1) ->
     map speakerNum tracks2 = map speakerNum tracks1 ->
     live_state afterUndo = live_state beforeB /\
     live_state afterRedo = live_state beforeUndo) /\
  (forall (now : Z) (app : App),
     undoStack app = [] ->
     undo now app = showToast "Nothing to undo" "info" app).
Proof.
  split.
  - intros appA nowA nowB nowU nowR tracks1 tracks2 segs1 segs2 sel1 sel2
           atA beforeB atB beforeUndo afterUndo afterRedo Hnodup Hnums.
    destruct (pop_saveState "B" nowB beforeB) as [rest Hpop].
    assert (Hundo : afterUndo =
              (if redraw_raises (current_state "B" nowB beforeB)
               then fun a => a
               else showToast ("Undo: " ++ "B") "info")
                (restoreState (current_state "B" nowB beforeB)
                   (with_stacks rest
                      (JS.push (redoStack beforeUndo)
                         (current_state "before_undo" nowU beforeUndo))
                      beforeUndo))).
    { unfold afterUndo, undo.
      change (undoStack beforeUndo) with (undoStack atB).
      unfold atB. rewrite Hpop.
      destruct (redraw_raises (current_state "B" nowB beforeB)); reflexivity. }
    split.
    + rewrite Hundo.
      destruct (redraw_raises (current_state "B" nowB beforeB));
        [|change (live_state (showToast ?m ?t ?a)) with (live_state a)];
        (rewrite restoreState_live;
         [reflexivity
         | simpl; rewrite saved_nums; exact Hnodup
         | simpl; rewrite saved_nums; exact Hnums]).
    + unfold afterRedo, redo. rewrite Hundo.
      destruct (redraw_raises (current_state "B" nowB beforeB));
        cbn [redoStack showToast restoreState with_stacks];
        rewrite pop_push;
        (destruct (redraw_raises (current_state "before_undo" nowU beforeUndo));
         [|change (live_state (showToast ?m ?t ?a)) with (live_state a)];
         (rewrite restoreState_live;
          [reflexivity
          | simpl; rewrite saved_nums, Hnums; exact Hnodup
          | cbn [speakerTracks with_stacks showToast];
            rewrite restoreState_nums; simpl; rewrite saved_nums;
            reflexivity])).
  - intros now app Hempty. unfold undo. rewrite Hempty. reflexivity.
Qed.

(** C6, witness: "B" is captured with the tracks renamed and one segment;
    the names are then reset and the segment removed; [undo] brings both
    back and [redo] removes them again.  [undo] on the empty history of
    [sample_app] only raises the toast. *)
Lemma undo_redo_restore_witness :
  (let atA := saveState "A" 1 sample_app in
   let beforeB := with_live renamed_tracks [sample_segment] None atA in
   let atB := saveState "B" 2 beforeB in
   let beforeUndo := with_live (speakerTracks sample_app) [] None atB in
   live_state (undo 3 beforeUndo) = live_state beforeB /\
   live_state (redo 4 (undo 3 beforeUndo)) = live_state beforeUndo) /\
  undo 5 sample_app = showToast "Nothing to undo" "info" sample_app.
Proof.
  split.
  - apply (proj1 undo_redo_restore sample_app 1%Z 2%Z 3%Z 4%Z renamed_tracks
             (speakerTracks sample_app) [sample_segment] [] None None).
    + simpl. repeat constructor; simpl; intuition discriminate.
    + reflexivity.
  - apply (proj2 undo_redo_restore 5%Z sample_app). reflexivity.
Defined.

(** C6, counterexample: "A" is captured, a project with the single speaker
    "Alice" is imported, which captures "before import" and replaces the
    three tracks, and [undo] is called.  The state captured before the
    import had three speakers; the state after [undo] has the one track
    of the project, under the name the first track had. *)
Lemma undo_after_import_keeps_roster :
  let atA := saveState "A" 1 sample_app in
  let imported := importProject sample_project 2 sample_ids atA in
  map action (undoStack imported) = ["A"; "before import"]%string /\
  JS.pop (undoStack imported) = Some (current_state "before import" 2 atA,
                                      undoStack atA) /\
  live_state (undo 3 imported)
  = ([], [ {| saved_num := 1; saved_name := "Speaker 1" |} ]) /\
  live_state (undo 3 imported) <> live_state atA.
Proof.
  vm_compute. repeat split. discriminate.
Qed.

(* ================================================================== *)
(** * Speaker clusterer *)
(* ================================================================== *)

(** [a.slice(0, k)] with [k] beyond the length is a copy of [a]. *)
Lemma slice_beyond {A : Type} (a : list A) (k : Z) :
  (JS.length a < k)%Z -> JS.slice a 0 k = a.
Proof.
  intros Hk. pose proof (length_nonneg a) as Hlen.
  unfold JS.slice, JS.relative_index.
  replace (k <? 0)%Z with false by (symmetry; apply Z.ltb_ge; lia).
  change (0 <? 0)%Z with false. cbv iota.
  rewrite (Z.min_l 0 (JS.length a)) by lia.
  rewrite (Z.min_r k (JS.length a)) by lia.
  rewrite Z.sub_0_r. unfold JS.length. rewrite Nat2Z.id.
  simpl. apply firstn_all.
Qed.

(** C9, as amended: with fewer values than [k], [kMeansClustering]
    returns the input itself, which is the first [k] values of the input
    and holds fewer than [k] centroids, and no round of clustering is
    run. *)
Theorem kMeansClustering_degenerate :
  forall (values : list Q) (k : Z),
    (JS.length values < k)%Z ->
    kMeansClustering values k = Returns values /\
    firstn (Z.to_nat k) values = values /\
    exists centroids,
      kMeansClustering values k = Returns centroids /\
      (JS.length centroids < k)%Z.
Proof.
  intros values k Hk.
  assert (E : kMeansClustering values k = Returns values).
  { unfold kMeansClustering.
    replace (JS.length values <? k)%Z with true by (symmetry; apply Z.ltb_lt; lia).
    now rewrite slice_beyond. }
  split; [exact E|]. split.
  - apply firstn_all2. unfold JS.length in Hk. lia.
  - exists values. split; [exact E | exact Hk].
Qed.

(** C9, witness: one pitch and two speakers. *)
Lemma kMeansClustering_degenerate_witness :
  kMeansClustering [100] 2 = Returns [100] /\
  firstn (Z.to_nat 2) [100] = [100] /\
  exists centroids,
    kMeansClustering [100] 2 = Returns centroids /\
    (JS.length centroids < 2)%Z.
Proof.
  apply (kMeansClustering_degenerate [100] 2%Z). reflexivity.
Defined.

(** C9, counterexample: one pitch and [k = 2] give one centroid, not
    two. *)
Lemma kMeansClustering_fewer_centroids :
  exists centroids,
    kMeansClustering [100] 2 = Returns centroids /\
    JS.length centroids <> 2%Z.
Proof.
  exists [100]. split; [reflexivity | discriminate].
Qed.

(** The scenario of the specification: two centroids, at 100 and 201. *)
Example kMeansClustering_two_speakers :
  kMeansClustering [100; 102; 98; 200; 205; 198] 2 = Returns [300 # 3; 603 # 3].
Proof. vm_compute. reflexivity. Qed.

(* ================================================================== *)
(** * Pitch estimator *)
(* ================================================================== *)

(** An integer is below a bound exactly when it is below its ceiling. *)
Lemma lt_ceiling (l : Z) (b : Q) : (l < Qceiling b)%Z <-> inject_Z l < b.
Proof.
  split; intros H.
  - apply Qle_lt_trans with (inject_Z (Qceiling b - 1)).
    + rewrite <- Zle_Qle. lia.
    + apply Qceiling_lt.
  - rewrite Zlt_Qlt. apply Qlt_le_trans with b; [exact H | apply Qle_ceiling].
Qed.

(** The lags of the loop are the integers from [from] up to the bound. *)
Lemma in_lag_range (from : Z) (bound : Q) (l : Z) :
  In l (lag_range from bound) <-> (from <= l)%Z /\ inject_Z l < bound.
Proof.
  unfold lag_range. rewrite in_map_iff. rewrite <- lt_ceiling. split.
  - intros (j & <- & Hj). apply in_seq in Hj. lia.
  - intros [Hfrom Hlt]. exists (Z.to_nat (l - from)). split; [lia|].
    apply in_seq. lia.
Qed.

Lemma lag_range_increasing (from : Z) (bound : Q) :
  StronglySorted Z.lt (lag_range from bound).
Proof.
  unfold lag_range. generalize (Z.to_nat (Qceiling bound - from)) as n.
  generalize 0%nat as a. intros a n. revert a.
  induction n as [|n IH]; intros a; simpl; constructor.
  - apply IH.
  - apply Forall_forall. intros l Hl. apply in_map_iff in Hl.
    destruct Hl as (j & <- & Hj). apply in_seq in Hj. lia.
Qed.

Lemma sorted_snoc (l : list Z) (x : Z) :
  StronglySorted Z.lt (l ++ [x]) ->
  StronglySorted Z.lt l /\ forall y, In y l -> (y < x)%Z.
Proof.
  induction l as [|a l IH]; simpl; intros H.
  - split; [constructor | intros ? []].
  - inversion H as [|? ? Hs Hall]; subst. destruct (IH Hs) as [Hl Hx].
    rewrite Forall_forall in Hall. split.
    + constructor; [exact Hl|]. apply Forall_forall. intros y Hy.
      apply Hall. apply in_or_app. now left.
    + intros y [<- | Hy]; [|now apply Hx].
      apply Hall. apply in_or_app. right. now left.
Qed.

(** The loop over lags keeps the first lag of greatest sum. *)
Lemma best_lag_fold (segment : list Q) (lags : list Z) :
  StronglySorted Z.lt lags ->
  (forall l, In l lags -> (0 <= l)%Z) ->
  lags <> [] ->
  exists best,
    fold_left (lag_step segment) lags (None, 0%Z)
    = (Some (autocorr segment best), best) /\
    In best lags /\
    (forall l, In l lags -> autocorr segment l <= autocorr segment best) /\
    (forall l, In l lags -> (l < best)%Z ->
       autocorr segment l < autocorr segment best).
Proof.
  induction lags as [|x lags IH] using rev_ind; intros Hsorted Hpos Hne;
    [congruence|].
  apply sorted_snoc in Hsorted. destruct Hsorted as [Hsorted Hlast].
  assert (Hx : (x <? 0)%Z = false).
  { apply Z.ltb_ge. apply Hpos. apply in_or_app. right. now left. }
  rewrite fold_left_app. cbn [fold_left].
  destruct lags as [|y lags'] eqn:Elags.
  - exists x. simpl. unfold lag_step. rewrite Hx. simpl.
    split; [reflexivity|]. split; [now left|]. split.
    + intros l [<- | []]. apply Qle_refl.
    + intros l [<- | []] Hlt. lia.
  - rewrite <- Elags in *.
    destruct IH as (best & Hfold & Hin & Hmax & Hfirst).
    { exact Hsorted. }
    { intros l Hl. apply Hpos. apply in_or_app. now left. }
    { rewrite Elags. discriminate. }
    rewrite Hfold. unfold lag_step. rewrite Hx. cbn [fst exceeds].
    destruct (JS.gt (autocorr segment x) (autocorr segment best)) eqn:E.
    + apply gt_true in E. exists x. split; [reflexivity|].
      split; [apply in_or_app; right; now left|]. split.
      * intros l Hl. apply in_app_or in Hl. destruct Hl as [Hl | [<- | []]].
        -- apply Qle_trans with (autocorr segment best);
             [now apply Hmax | now apply Qlt_le_weak].
        -- apply Qle_refl.
      * intros l Hl Hlt. apply in_app_or in Hl. destruct Hl as [Hl | [<- | []]].
        -- apply Qle_lt_trans with (autocorr segment best);
             [now apply Hmax | exact E].
        -- lia.
    + apply gt_false in E. exists best. split; [reflexivity|].
      split; [apply in_or_app; now left|]. split.
      * intros l Hl. apply in_app_or in Hl. destruct Hl as [Hl | [<- | []]].
        -- now apply Hmax.
        -- exact E.
      * intros l Hl Hlt. apply in_app_or in Hl. destruct Hl as [Hl | [<- | []]].
        -- now apply Hfirst.
        -- specialize (Hlast best Hin). lia.
Qed.

Lemma lt_Math_min (x a b : Q) : x < JS.Math_min a b <-> x < a /\ x < b.
Proof.
  unfold JS.Math_min. destruct (Qle_bool a b) eqn:E.
  - apply Qle_bool_iff in E. split; [intros H | intros [H _]; exact H].
    split; [exact H | now apply Qlt_le_trans with a].
  - assert (Hba : b < a).
    { apply Qnot_le_lt. intros H. apply Qle_bool_iff in H. congruence. }
    split; [intros H | intros [_ H]; exact H].
    split; [now apply Qlt_trans with b | exact H].
Qed.

Lemma Math_min_le_l (a b : Q) : JS.Math_min a b <= a.
Proof.
  unfold JS.Math_min. destruct (Qle_bool a b) eqn:E; [apply Qle_refl|].
  apply Qlt_le_weak, Qnot_le_lt. intros H. apply Qle_bool_iff in H. congruence.
Qed.

(** A quotient of positive numbers has a floor that is not negative. *)
Lemma floor_quotient_nonneg (a b : Q) :
  0 < a -> 0 < b -> (0 <= Qfloor (a / b))%Z.
Proof.
  intros Ha Hb. change 0%Z with (Qfloor 0). apply Qfloor_resp_le.
  apply Qle_shift_div_l; [exact Hb|]. rewrite Qmult_0_l. now apply Qlt_le_weak.
Qed.

Lemma div_finite (x y : Q) : ~ y == 0 -> JS.div x y = JS.Finite (x / y).
Proof.
  intros Hy. unfold JS.div. destruct (Qeq_bool y 0) eqn:E; [|reflexivity].
  apply Qeq_bool_iff in E. contradiction.
Qed.


(** With pitch bounds other than 0 the two quotients are finite. *)
Lemma candidate_lags_finite rate f0Min f0Max segment :
  ~ f0Min == 0 -> ~ f0Max == 0 ->
  candidate_lags rate f0Min f0Max segment =
  lag_range (JS.Math_floor (rate / f0Max))
    (JS.Math_min (JS.num (JS.Math_floor (rate / f0Min)))
       (JS.num (JS.length segment) / 2)).
Proof.
  intros Hmin Hmax. unfold candidate_lags, min_lag, lag_bound.
  now rewrite !div_finite by assumption.
Qed.

(** With a positive sample rate [minLag] is not [-Infinity]: the loop
    over lags ends. *)
Lemma endless_lags_positive rate f0Min f0Max segment :
  0 < rate -> endless_lags rate f0Min f0Max segment = false.
Proof.
  intros Hrate. unfold endless_lags, min_lag, JS.div.
  apply lt_true in Hrate.
  destruct (Qeq_bool f0Max 0); [rewrite Hrate|]; cbn [JS.floor];
    [reflexivity|].
  destruct (lag_bound rate f0Min segment); reflexivity.
Qed.


Lemma candidate_lags_increasing rate f0Min f0Max segment :
  StronglySorted Z.lt (candidate_lags rate f0Min f0Max segment).
Proof.
  unfold candidate_lags.
  destruct (min_lag rate f0Max); try constructor.
  destruct (lag_bound rate f0Min segment); try constructor.
  apply lag_range_increasing.
Qed.











(* ================================================================== *)
(** * Orchestrator *)
(* ================================================================== *)

(** The segments of the silence segmenter carry no pitch and the default
    tag. *)
Lemma silence_run_unlabelled rate threshold minDuration tolerance samples :
  forall i st,
    Forall unlabelled (found st) ->
    Forall unlabelled
      (found (silence_run rate threshold minDuration tolerance samples i st)).
Proof.
  induction samples as [|x rest IH]; intros i st H; simpl; [exact H|].
  apply IH.
  destruct (silence_step_found rate threshold minDuration tolerance i x st)
    as [E | [E _]]; rewrite E; [exact H|].
  apply Forall_app. split; [exact H|]. repeat constructor.
Qed.

Lemma segmentBySilence_unlabelled buf params segs :
  result (segmentBySilence (Some buf) params) = Returns segs ->
  Forall unlabelled segs.
Proof.
  unfold segmentBySilence. rewrite segmentBySilenceEvery_result.
  intros H. injection H as <-. unfold silence_close.
  set (st := silence_run _ _ _ _ _ _ _).
  assert (Hst : Forall unlabelled (found st))
    by (apply silence_run_unlabelled; constructor).
  destruct (inSpeech st); [|exact Hst].
  destruct (JS.ge _ _); [|exact Hst].
  apply Forall_app. split; [exact Hst|]. repeat constructor.
Qed.

(** With [0 < f0Max <= f0Min] the range of lags is empty and the pitch is
    [null]. *)
Lemma extractF0_inverted_bounds buf startTime endTime f0Min f0Max :
  0 < sampleRate buf -> 0 < f0Max -> f0Max <= f0Min ->
  extractF0 (Some buf) startTime endTime f0Min f0Max = ret None.
Proof.
  intros Hrate Hmax Hle. unfold extractF0.
  destruct (JS.length (f0_segment buf startTime endTime) <? 400)%Z;
    [reflexivity|].
  rewrite endless_lags_positive by exact Hrate.
  assert (Hlags : candidate_lags (sampleRate buf) f0Min f0Max
                    (f0_segment buf startTime endTime) = []).
  { rewrite candidate_lags_finite by (intros E; rewrite E in *; lra).
    unfold lag_range.
    set (bound := JS.Math_min _ _).
    assert (Hb : (Qceiling bound
                  <= JS.Math_floor (sampleRate buf / f0Max))%Z).
    { apply Z.le_trans with (JS.Math_floor (sampleRate buf / f0Min)).
      - rewrite <- (Qceiling_Z (JS.Math_floor (sampleRate buf / f0Min))).
        apply Qceiling_resp_le. apply Math_min_le_l.
      - apply Qfloor_resp_le.
        assert (Hmin : 0 < f0Min) by (now apply Qlt_le_trans with f0Max).
        apply Qle_shift_div_r; [exact Hmin|].
        apply Qle_trans with (sampleRate buf / f0Max * f0Max).
        + rewrite Qmult_comm, Qmult_div_r; [apply Qle_refl|].
          intros E. rewrite E in Hmax. discriminate.
        + rewrite !(Qmult_comm (sampleRate buf / f0Max)).
          apply Qmult_le_compat_r; [exact Hle|].
          apply Qle_shift_div_l; [exact Hmax|].
          rewrite Qmult_0_l. now apply Qlt_le_weak. }
    replace (Z.to_nat (Qceiling bound - JS.Math_floor (sampleRate buf / f0Max)))
      with 0%nat by lia.
    reflexivity. }
  unfold best_lag. rewrite Hlags. reflexivity.
Qed.

(** A pitch loop whose estimates are all [null] gives the segments back
    and reports one value per segment. *)
Lemma f0_loop_unlabelled audioBuffer f0Min f0Max n segs : forall i,
  Forall unlabelled segs ->
  (forall seg, In seg segs ->
     extractF0 audioBuffer (p_start seg) (p_end seg) f0Min f0Max = ret None) ->
  result (f0_loop audioBuffer f0Min f0Max n segs i) = Returns segs.
Proof.
  induction segs as [|seg rest IH]; intros i Hun Hnull; cbn [f0_loop];
    [reflexivity|].
  inversion Hun as [|? ? [Hf0 Hspk] Hrest]; subst.
  rewrite result_bind. cbn [result onProgress snd].
  rewrite result_bind, (Hnull seg) by (now left). cbn [result ret snd].
  rewrite result_bind, IH; [|exact Hrest | intros s Hs; apply Hnull; now right].
  cbn [result ret snd]. destruct seg; simpl in *; subst; reflexivity.
Qed.

Lemma f0_values_unlabelled segs : Forall unlabelled segs -> f0_values segs = [].
Proof.
  induction 1 as [|seg rest [Hf0 _] _ IH]; simpl; [reflexivity|].
  rewrite Hf0. exact IH.
Qed.

(** The segments of the application after [create_all]. *)
Lemma create_all_segments ids segs : forall app,
  segments (create_all ids segs app) =
  segments app ++ map (fun '(k, seg) => created_segment (ids k) seg) (indexed segs).
Proof.
  unfold create_all. generalize (indexed segs) as l.
  induction l as [|[k seg] l IH]; intros app; simpl.
  - now rewrite app_nil_r.
  - rewrite IH. simpl. unfold JS.push. now rewrite <- app_assoc.
Qed.

(** C3, as amended: [runAutoSegmentation] checks no parameter.  With the
    audio loaded, a positive sample rate and pitch bounds out of domain,
    [0 < f0Max <= f0Min], the strategy ['silence_f0'] runs to its end and
    returns: every pitch estimate is [null], the segments returned are
    those of the silence segmenter with their default tag, and one live
    segment is created for each of them. *)
Theorem runAutoSegmentation_no_validation :
  forall (app : App) (buf : AudioBuffer) (params : Params) (ids : Z -> string),
    audioBuffer app = Some buf ->
    0 < sampleRate buf ->
    0 < f0Max params ->
    f0Max params <= f0Min params ->
    exists segs,
      result (segmentBySilence (Some buf) params) = Returns segs /\
      Forall unlabelled segs /\
      result (runAutoSegmentation "silence_f0" params ids app)
      = Returns (create_all ids segs app, segs) /\
      segments (create_all ids segs app)
      = segments app
        ++ map (fun '(k, seg) => created_segment (ids k) seg) (indexed segs).
Proof.
  intros app buf params ids Hbuf Hrate Hmax Hle.
  destruct (segmentBySilence_returns buf params) as [segs Hsegs].
  pose proof (segmentBySilence_unlabelled buf params segs Hsegs) as Hun.
  exists segs. split; [exact Hsegs|]. split; [exact Hun|].
  split; [|apply create_all_segments].
  unfold runAutoSegmentation. rewrite result_bind, Hbuf.
  change (run_strategy "silence_f0" (Some buf) params)
    with (segmentBySilenceAndF0 (Some buf) params).
  unfold segmentBySilenceAndF0.
  rewrite result_bind, result_with_callback, Hsegs.
  rewrite result_bind, f0_loop_unlabelled; [|exact Hun|].
  - rewrite (f0_values_unlabelled segs Hun). reflexivity.
  - intros seg _. now apply extractF0_inverted_bounds.
Qed.

(** C3, witness: [two_voices_buffer], whose two segments have 400
    samples each, with [f0Min = 200] and [f0Max = 100]. *)
Lemma runAutoSegmentation_no_validation_witness :
  exists segs,
    result (segmentBySilence (Some two_voices_buffer) inverted_voices_params)
    = Returns segs /\
    Forall unlabelled segs /\
    result (runAutoSegmentation "silence_f0" inverted_voices_params sample_ids
              two_voices_app)
    = Returns (create_all sample_ids segs two_voices_app, segs) /\
    segments (create_all sample_ids segs two_voices_app)
    = segments two_voices_app
      ++ map (fun '(k, seg) => created_segment (sample_ids k) seg) (indexed segs).
Proof.
  apply (runAutoSegmentation_no_validation two_voices_app two_voices_buffer
           inverted_voices_params sample_ids);
    [reflexivity | reflexivity | reflexivity | unfold Qle; simpl; lia].
Defined.

(** C3, counterexample: with [f0Max = 75 <= f0Min = 300] the run does not
    fail; it returns one segment and the application, which had no
    segment, has one after the run. *)
Lemma runAutoSegmentation_runs_out_of_domain :
  f0Max inverted_params <= f0Min inverted_params /\
  segments loaded_app = [] /\
  exists app' seg,
    result (runAutoSegmentation "silence_f0" inverted_params sample_ids loaded_app)
    = Returns (app', [seg]) /\
    segments app' = [created_segment "seg_0" seg].
Proof.
  split; [discriminate|]. split; [reflexivity|].
  eexists. exists (silence_segment (16 # 8) (23 # 8)).
  split; vm_compute; reflexivity.
Qed.

(** [autoSegment] has pushed the undo state before the run starts, and
    ends on the toast of success. *)
Example autoSegment_out_of_domain :
  exists app',
    result (autoSegment "silence_f0"
              {| in_silenceThreshold := 1 # 10; in_minSegmentDuration := 3 # 10;
                 in_minSilenceDuration := 2 # 10; in_numSpeakers := 2;
                 in_f0Min := 300; in_f0Max := 75; in_f0Confidence := 1 # 4 |}
              7 sample_ids loaded_app) = Returns app' /\
    map action (undoStack app') = ["auto-segmentation"]%string /\
    toasts app' = [("1 segments created!", "success")]%string /\
    length (segments app') = 1%nat.
Proof.
  eexists. split; [vm_compute; reflexivity|].
  split; [|split]; reflexivity.
Qed.

(* ================================================================== *)
(** * Voice-activity strategy *)
(* ================================================================== *)

(** A voiced frame adds no segment. *)
Lemma vad_fold_voiced run : forall acc,
  Forall voiced run ->
  snd (fold_left vad_step run acc) = snd acc.
Proof.
  induction run as [|feat run IH]; intros acc Hv; simpl; [reflexivity|].
  inversion Hv as [|? ? Hf Hrun]; subst. rewrite IH by exact Hrun.
  unfold vad_step. destruct acc as [[[start feats]|] segs]; rewrite Hf; reflexivity.
Qed.

(** Voiced frames extend the open run. *)
Lemma vad_fold_extend run : forall start feats segs,
  Forall voiced run ->
  fold_left vad_step run (Some (start, feats), segs)
  = (Some (start, feats ++ run), segs).
Proof.
  induction run as [|feat run IH]; intros start feats segs Hv; simpl.
  - now rewrite app_nil_r.
  - inversion Hv as [|? ? Hf Hrun]; subst. unfold voiced in Hf. rewrite Hf.
    rewrite IH by exact Hrun. unfold JS.push. now rewrite <- app_assoc.
Qed.

(** A run from its first frame on. *)
Lemma vad_fold_open first run segs :
  Forall voiced (first :: run) ->
  fold_left vad_step (first :: run) (None, segs)
  = (Some (time first, first :: run), segs).
Proof.
  intros Hv. inversion Hv as [|? ? Hf Hrun]; subst. unfold voiced in Hf.
  simpl. rewrite Hf. now rewrite vad_fold_extend.
Qed.

(** A frame that is not voiced leaves no run open. *)
Lemma vad_step_unvoiced acc feat :
  isVoiced feat = false -> fst (vad_step acc feat) = None.
Proof.
  intros Hf. unfold vad_step. destruct acc as [[[start feats]|] segs]; rewrite Hf.
  - destruct (10 <? JS.length feats)%Z; reflexivity.
  - reflexivity.
Qed.

Lemma last_default {A : Type} (a : list A) (d d' : A) :
  a <> [] -> last a d = last a d'.
Proof.
  induction a as [|x a IH]; [congruence|]. intros _.
  destruct a as [|y a]; [reflexivity|].
  change (last (y :: a) d = last (y :: a) d'). apply IH. discriminate.
Qed.

(** A run and the frame that closes it. *)
Lemma vad_fold_closed run feat segs :
  run <> [] ->
  Forall voiced run ->
  isVoiced feat = false ->
  fold_left vad_step (run ++ [feat]) (None, segs)
  = (None, segs ++ (if long_run run then run_segment run else [])).
Proof.
  intros Hne Hv Hf. destruct run as [|first run]; [congruence|].
  rewrite fold_left_app, vad_fold_open by exact Hv.
  cbn [fold_left vad_step]. rewrite Hf. unfold long_run.
  destruct (10 <? JS.length (first :: run))%Z.
  - unfold JS.push, run_segment.
    rewrite (last_default (first :: run) feat first) by discriminate.
    reflexivity.
  - now rewrite app_nil_r.
Qed.

(** The state of the loop after frames that start a new run. *)
Lemma vad_fold_closed_before pre :
  closed_before pre -> fst (fold_left vad_step pre (None, [])) = None.
Proof.
  intros [-> | (pre' & feat & -> & Hf)]; [reflexivity|].
  rewrite fold_left_app. cbn [fold_left]. now apply vad_step_unvoiced.
Qed.

(** The segments of the loop from a state without open run. *)
Lemma vad_fold_runs features runs :
  Runs features runs ->
  forall segs,
    snd (fold_left vad_step features (None, segs))
    = segs ++ flat_map run_segment (filter long_run runs).
Proof.
  induction 1 as [| feat features runs Hf _ IH
                  | run feat features runs Hne Hv Hf _ IH
                  | run Hne Hv]; intros segs.
  - simpl. now rewrite app_nil_r.
  - cbn [fold_left vad_step]. rewrite Hf. apply IH.
  - change (run ++ feat :: features) with (run ++ [feat] ++ features).
    rewrite app_assoc, fold_left_app, vad_fold_closed by assumption.
    rewrite IH. cbn [filter]. destruct (long_run run).
    + cbn [flat_map]. now rewrite app_assoc.
    + now rewrite app_nil_r.
  - rewrite vad_fold_voiced by exact Hv. simpl. now rewrite app_nil_r.
Qed.

(** Every sequence of frames has its runs. *)
Lemma runs_exist features : exists runs, Runs features runs.
Proof.
  induction features as [|feat features [runs IH]].
  - exists []. constructor.
  - destruct (isVoiced feat) eqn:Hf.
    + inversion IH as [| g fs rs Hg Hrest | run g fs rs Hne Hv Hg Hrest
                       | run Hne Hv]; subst.
      * exists []. apply runs_open; [discriminate | now repeat constructor].
      * exists ([feat] :: runs).
        apply (runs_closed [feat] g fs runs);
          [discriminate | now repeat constructor | exact Hg | exact Hrest].
      * exists ((feat :: run) :: rs).
        apply (runs_closed (feat :: run) g fs rs);
          [discriminate | now constructor | exact Hg | exact Hrest].
      * exists []. apply runs_open; [discriminate | now constructor].
    + exists runs. now constructor.
Qed.

(** The frames of the feature loop are voiced exactly above the cutoff. *)
Lemma feature_loop_voiced buf frameSize hopSize :
  forall fuel i features,
    result (feature_loop fuel buf frameSize hopSize i) = Returns features ->
    Forall (fun feat => isVoiced feat = true <-> energyCutoff < energy feat)
           features.
Proof.
  induction fuel as [|fuel IH]; intros i features; cbn [feature_loop];
    destruct (i <? JS.length (channelData buf) - frameSize)%Z;
    try (intros H; injection H as <-; constructor);
    try discriminate.
  rewrite result_bind.
  replace (result (if JS.divisible i 10000 then _ else ret tt))
    with (Returns tt) by (destruct (JS.divisible i 10000); reflexivity).
  rewrite result_bind.
  destruct (result (feature_loop fuel buf frameSize hopSize (i + hopSize)))
    as [rest| |] eqn:E; try discriminate.
  intros H. injection H as <-. constructor; [|now apply (IH (i + hopSize)%Z)].
  unfold feature_at. cbn [isVoiced energy]. apply gt_true.
Qed.

(** The feature loop ends when the hop is positive and the fuel covers the
    samples that remain. *)
Lemma feature_loop_returns buf frameSize hopSize :
  (1 <= hopSize)%Z ->
  forall fuel i,
    (JS.length (channelData buf) - frameSize - i <= Z.of_nat fuel)%Z ->
    exists features,
      result (feature_loop fuel buf frameSize hopSize i) = Returns features.
Proof.
  intros Hhop. induction fuel as [|fuel IH]; intros i Hfuel.
  - exists []. cbn [feature_loop].
    replace (i <? JS.length (channelData buf) - frameSize)%Z with false
      by (symmetry; apply Z.ltb_ge; lia).
    reflexivity.
  - cbn [feature_loop].
    destruct (i <? JS.length (channelData buf) - frameSize)%Z;
      [|exists []; reflexivity].
    destruct (IH (i + hopSize)%Z) as (rest & Hrest); [lia|].
    exists (feature_at buf frameSize i :: rest).
    rewrite result_bind.
    replace (result (if JS.divisible i 10000 then _ else ret tt))
      with (Returns tt) by (destruct (JS.divisible i 10000); reflexivity).
    rewrite result_bind, Hrest. reflexivity.
Qed.

(** At 100 Hz and above the hop is at least one sample. *)
Lemma hop_positive (rate : Q) :
  100 <= rate -> (1 <= JS.Math_floor (rate * (10 # 1000)))%Z.
Proof.
  intros H. change 1%Z with (Qfloor 1). apply Qfloor_resp_le. lra.
Qed.

Lemma frame_nonneg (rate : Q) :
  0 <= rate -> (0 <= JS.Math_floor (rate * (25 # 1000)))%Z.
Proof.
  intros H. change 0%Z with (Qfloor 0). apply Qfloor_resp_le. lra.
Qed.

Lemma vad_features_returns buf :
  100 <= sampleRate buf ->
  exists features, result (vad_features buf) = Returns features.
Proof.
  intros Hrate. unfold vad_features. apply feature_loop_returns.
  - now apply hop_positive.
  - assert (H0 : 0 <= sampleRate buf) by lra.
    pose proof (frame_nonneg (sampleRate buf) H0) as Hframe.
    unfold JS.length. lia.
Qed.

(** What [segmentByVADClustering] returns. *)
Lemma segmentByVADClustering_result buf params :
  result (segmentByVADClustering (Some buf) params) =
  match result (vad_features buf) with
  | Returns features => Returns (vad_segments features)
  | Throws e => Throws e
  | Diverges => Diverges
  end.
Proof.
  unfold segmentByVADClustering. rewrite result_bind. cbn [result onProgress snd].
  rewrite result_bind. destruct (result (vad_features buf)); reflexivity.
Qed.

(** C7, as amended: a frame is voiced exactly when its energy is above
    0.01, and the segments a run returns are those of the maximal runs of
    consecutive voiced frames that a following unvoiced frame closes and
    that count more than ten frames (a run of ten frames or fewer is
    discarded), each from the time of its first frame to the time of its
    last voiced frame.  The run returns at a sample rate of 100 Hz or
    more. *)
Theorem segmentByVADClustering_closed_long_runs :
  (forall (features : list Feature) (runs : list (list Feature)),
     Runs features runs ->
     vad_segments features = flat_map run_segment (filter long_run runs)) /\
  (forall (buf : AudioBuffer) (params : Params) (segs : list ProvSegment),
     result (segmentByVADClustering (Some buf) params) = Returns segs ->
     exists features runs,
       result (vad_features buf) = Returns features /\
       Forall (fun feat => isVoiced feat = true <-> 1 # 100 < energy feat)
              features /\
       Runs features runs /\
       segs = flat_map run_segment (filter long_run runs)) /\
  (forall (buf : AudioBuffer) (params : Params),
     100 <= sampleRate buf ->
     exists segs,
       result (segmentByVADClustering (Some buf) params) = Returns segs).
Proof.
  split; [|split].
  - intros features runs H. unfold vad_segments.
    now rewrite (vad_fold_runs features runs H []).
  - intros buf params segs. rewrite segmentByVADClustering_result.
    destruct (result (vad_features buf)) as [features| |] eqn:Hfeat;
      try discriminate.
    intros H. injection H as <-.
    destruct (runs_exist features) as [runs Hruns].
    exists features, runs. split; [reflexivity|]. split.
    + unfold vad_features in Hfeat. now apply feature_loop_voiced in Hfeat.
    + split; [exact Hruns|].
      unfold vad_segments. now rewrite (vad_fold_runs features runs Hruns []).
  - intros buf params Hrate.
    destruct (vad_features_returns buf Hrate) as (features & Hfeat).
    rewrite segmentByVADClustering_result, Hfeat. eexists. reflexivity.
Qed.

(** C7, witness: the run of eleven frames of [voiced_frames] closed by
    [silent_frame], and the buffer [eleven_frames_buffer]. *)
Lemma segmentByVADClustering_closed_long_runs_witness :
  vad_segments (voiced_frames ++ [silent_frame])
  = flat_map run_segment (filter long_run [voiced_frames]) /\
  exists segs features runs,
    result (segmentByVADClustering (Some eleven_frames_buffer)
              (sample_params (1 # 10) (3 # 10) 200)) = Returns segs /\
    result (vad_features eleven_frames_buffer) = Returns features /\
    Forall (fun feat => isVoiced feat = true <-> 1 # 100 < energy feat)
           features /\
    Runs features runs /\
    segs = flat_map run_segment (filter long_run runs).
Proof.
  split.
  - apply (proj1 segmentByVADClustering_closed_long_runs).
    apply (runs_closed voiced_frames silent_frame [] []).
    + discriminate.
    + repeat constructor.
    + reflexivity.
    + constructor.
  - destruct (proj2 (proj2 segmentByVADClustering_closed_long_runs)
                eleven_frames_buffer (sample_params (1 # 10) (3 # 10) 200))
      as [segs Hsegs].
    + unfold Qle; simpl; lia.
    + destruct (proj1 (proj2 segmentByVADClustering_closed_long_runs)
                  eleven_frames_buffer (sample_params (1 # 10) (3 # 10) 200)
                  segs Hsegs)
        as (features & runs & H).
      exists segs, features, runs. split; [exact Hsegs | exact H].
Defined.

(** On [eleven_frames_buffer] the run of eleven frames is returned, from
    the time of frame 0 to the time of frame 10. *)
Example segmentByVADClustering_eleven_frames :
  result (segmentByVADClustering (Some eleven_frames_buffer)
            (sample_params (1 # 10) (3 # 10) 200))
  = Returns [silence_segment (0 # 8000) (800 # 8000)].
Proof. vm_compute. reflexivity. Qed.

(** C7, counterexample: on [ten_frames_buffer] the frames 0 to 9 are
    voiced and frame 10 is not: a run of ten frames, which is not shorter
    than ten, closed by an unvoiced frame.  No segment is returned. *)
Lemma segmentByVADClustering_discards_ten_frames :
  exists features,
    result (vad_features ten_frames_buffer) = Returns features /\
    map isVoiced features = repeat true 10 ++ [false] /\
    result (segmentByVADClustering (Some ten_frames_buffer)
              (sample_params (1 # 10) (3 # 10) 200))
    = Returns [].
Proof.
  eexists. split; [vm_compute; reflexivity|].
  split; vm_compute; reflexivity.
Qed.

(** C10: when the frames of the buffer end with voiced frames, the
    segments returned are those of the frames before them: the trailing
    run gives no segment, whatever its length.  The same run followed by
    one unvoiced frame is returned as soon as it counts more than ten
    frames. *)
Theorem segmentByVADClustering_drops_trailing_run :
  (forall (buf : AudioBuffer) (params : Params) (pre run : list Feature),
     result (vad_features buf) = Returns (pre ++ run) ->
     Forall voiced run ->
     result (segmentByVADClustering (Some buf) params)
     = Returns (vad_segments pre)) /\
  (forall (pre run : list Feature) (feat : Feature),
     closed_before pre ->
     run <> [] ->
     Forall voiced run ->
     isVoiced feat = false ->
     vad_segments (pre ++ run) = vad_segments pre /\
     vad_segments (pre ++ run ++ [feat])
     = vad_segments pre ++ (if long_run run then run_segment run else [])).
Proof.
  split.
  - intros buf params pre run Hfeat Hv.
    rewrite segmentByVADClustering_result, Hfeat. f_equal.
    unfold vad_segments. rewrite fold_left_app. now apply vad_fold_voiced.
  - intros pre run feat Hpre Hne Hv Hf. unfold vad_segments. split.
    + rewrite fold_left_app. now apply vad_fold_voiced.
    + rewrite fold_left_app.
      pose proof (vad_fold_closed_before pre Hpre) as Hnone.
      destruct (fold_left vad_step pre (None, [])) as [current segs].
      simpl in Hnone. subst current.
      now rewrite vad_fold_closed.
Qed.

(** C10, witness: the twelve frames of [loud_buffer] are voiced and no
    segment is returned; the eleven frames of [voiced_frames] give no
    segment alone and one segment once [silent_frame] follows them. *)
Lemma segmentByVADClustering_drops_trailing_run_witness :
  (result (vad_features loud_buffer) = Returns ([] ++ loud_features) /\
   length loud_features = 12%nat /\
   result (segmentByVADClustering (Some loud_buffer)
             (sample_params (1 # 10) (3 # 10) 200))
   = Returns (vad_segments [])) /\
  vad_segments ([] ++ voiced_frames) = vad_segments [] /\
  vad_segments ([] ++ voiced_frames ++ [silent_frame])
  = vad_segments []
    ++ (if long_run voiced_frames then run_segment voiced_frames else []).
Proof.
  split.
  - assert (Hfeat : result (vad_features loud_buffer)
                    = Returns ([] ++ loud_features))
      by (vm_compute; reflexivity).
    split; [exact Hfeat|]. split; [reflexivity|].
    apply (proj1 segmentByVADClustering_drops_trailing_run loud_buffer
             (sample_params (1 # 10) (3 # 10) 200) [] loud_features Hfeat).
    repeat constructor.
  - apply (proj2 segmentByVADClustering_drops_trailing_run [] voiced_frames
             silent_frame).
    + left. reflexivity.
    + discriminate.
    + repeat constructor.
    + reflexivity.
Defined.

(* ================================================================== *)
(** * Progress reports *)
(* ================================================================== *)

Lemma between_nil lo hi : between lo hi [].
Proof. split; constructor. Qed.

Lemma between_cons lo lo' hi v reports :
  lo <= v -> v <= lo' -> v <= hi ->
  between lo' hi reports ->
  between lo hi (v :: reports).
Proof.
  intros Hlo Hv Hhi [Hsorted Hall]. rewrite Forall_forall in Hall. split.
  - constructor; [exact Hsorted|]. apply Forall_forall. intros x Hx.
    apply Qle_trans with lo'; [exact Hv | apply (Hall x Hx)].
  - constructor; [now split|]. apply Forall_forall. intros x Hx.
    destruct (Hall x Hx) as [H1 H2]. split; [|exact H2].
    apply Qle_trans with v; [exact Hlo|]. now apply Qle_trans with lo'.
Qed.

Lemma between_weaken lo lo' hi hi' reports :
  lo <= lo' -> hi' <= hi -> between lo' hi' reports -> between lo hi reports.
Proof.
  intros Hlo Hhi [Hsorted Hall]. split; [exact Hsorted|].
  apply Forall_forall. intros x Hx. rewrite Forall_forall in Hall.
  destruct (Hall x Hx) as [H1 H2]. split.
  - now apply Qle_trans with lo'.
  - now apply Qle_trans with hi'.
Qed.

Lemma between_app lo mid hi reports reports' :
  lo <= mid -> mid <= hi ->
  between lo mid reports -> between mid hi reports' ->
  between lo hi (reports ++ reports').
Proof.
  intros Hlo Hhi. induction reports as [|v reports IH]; intros H H'; simpl.
  - now apply between_weaken with mid hi; [| apply Qle_refl |].
  - destruct H as [Hsorted Hall].
    inversion Hsorted as [|? ? Hs Hv]; subst.
    inversion Hall as [|? ? [Hv1 Hv2] Hrest]; subst.
    assert (IH' : between lo hi (reports ++ reports'))
      by (apply IH; [now split | exact H']).
    destruct IH' as [IHs IHa]. split.
    + constructor; [exact IHs|]. apply Forall_app. split; [exact Hv|].
      destruct H' as [_ Hall']. apply Forall_forall. intros x Hx.
      rewrite Forall_forall in Hall'. destruct (Hall' x Hx) as [H1 _].
      now apply Qle_trans with mid.
    + constructor; [|exact IHa]. split; [exact Hv1|].
      now apply Qle_trans with mid.
Qed.

Lemma between_map (f : Q -> Q) lo hi lo' hi' reports :
  (forall x y, x <= y -> f x <= f y) ->
  (forall x, lo <= x <= hi -> lo' <= f x <= hi') ->
  between lo hi reports -> between lo' hi' (map f reports).
Proof.
  intros Hmono Hrange [Hsorted Hall]. split.
  - induction Hsorted as [|v reports Hs IH Hv]; simpl; constructor.
    + apply IH. now inversion Hall.
    + apply Forall_forall. intros y Hy. apply in_map_iff in Hy.
      destruct Hy as (x & <- & Hx). apply Hmono.
      rewrite Forall_forall in Hv. now apply Hv.
  - apply Forall_forall. intros y Hy. apply in_map_iff in Hy.
    destruct Hy as (x & <- & Hx). apply Hrange.
    rewrite Forall_forall in Hall. now apply Hall.
Qed.

(** The share [i / n] of a loop at index [i] of [n]. *)
Lemma share_bounds (i n : Z) :
  (0 <= i <= n)%Z -> (0 < n)%Z -> 0 <= JS.num i / JS.num n <= 1.
Proof.
  intros Hi Hn. unfold JS.num.
  assert (Hn' : 0 < inject_Z n) by (change 0 with (inject_Z 0); now rewrite <- Zlt_Qlt).
  split.
  - apply Qle_shift_div_l; [exact Hn'|]. rewrite Qmult_0_l.
    change 0 with (inject_Z 0). rewrite <- Zle_Qle. lia.
  - apply Qle_shift_div_r; [exact Hn'|]. rewrite Qmult_1_l.
    rewrite <- Zle_Qle. lia.
Qed.

Lemma share_le (i j n : Z) :
  (i <= j)%Z -> (0 < n)%Z -> JS.num i / JS.num n <= JS.num j / JS.num n.
Proof.
  intros Hij Hn. unfold JS.num, Qdiv. apply Qmult_le_compat_r.
  - rewrite <- Zle_Qle. exact Hij.
  - apply Qinv_le_0_compat. change 0 with (inject_Z 0). rewrite <- Zle_Qle. lia.
Qed.

Lemma round_le (x y : Q) : x <= y -> (JS.Math_round x <= JS.Math_round y)%Z.
Proof. intros H. apply Qfloor_resp_le. lra. Qed.

Lemma rounded_le (c n i j : Z) :
  (0 <= c)%Z -> (i <= j)%Z -> (0 < n)%Z -> rounded c n i <= rounded c n j.
Proof.
  intros Hc Hij Hn. unfold rounded. rewrite <- Zle_Qle. apply round_le.
  apply Qmult_le_compat_r; [now apply share_le|].
  change 0 with (inject_Z 0). now rewrite <- Zle_Qle.
Qed.

Lemma rounded_bounds (c n i : Z) :
  (0 <= c)%Z -> (0 <= i <= n)%Z -> (0 < n)%Z ->
  0 <= rounded c n i <= inject_Z c.
Proof.
  intros Hc Hi Hn. destruct (share_bounds i n Hi Hn) as [H0 H1].
  assert (Hc' : 0 <= inject_Z c)
    by (change 0 with (inject_Z 0); now rewrite <- Zle_Qle).
  unfold rounded. split.
  - change 0 with (inject_Z (Qfloor 0)). rewrite <- Zle_Qle.
    apply Qfloor_resp_le.
    assert (0 <= JS.num i / JS.num n * inject_Z c)
      by (apply Qmult_le_0_compat; assumption).
    lra.
  - rewrite <- Zle_Qle. rewrite <- (Qfloor_Z c) at 2.
    unfold JS.Math_round.
    apply Z.le_trans with (Qfloor (inject_Z c + (1 # 2))).
    + apply Qfloor_resp_le.
      assert (JS.num i / JS.num n * inject_Z c <= 1 * inject_Z c)
        by (apply Qmult_le_compat_r; assumption).
      lra.
    + assert (H : inject_Z c + (1 # 2) < inject_Z (c + 1))
        by (rewrite inject_Z_plus; change (inject_Z 1) with 1; lra).
      rewrite Qfloor_Z.
      assert (Hlt : (Qfloor (inject_Z c + (1 # 2)) < c + 1)%Z).
      { rewrite Zlt_Qlt. eapply Qle_lt_trans; [apply Qfloor_le | exact H]. }
      lia.
Qed.

Lemma integral_inject (z : Z) : integral (inject_Z z).
Proof. exists z. reflexivity. Qed.

Lemma integral_plus (c : Z) (v : Q) : integral v -> integral (inject_Z c + v).
Proof.
  intros [z Hz]. exists (c + z)%Z. rewrite inject_Z_plus, Hz. reflexivity.
Qed.

Lemma trace_ret {A : Type} (a : A) : trace (ret a) = [].
Proof. reflexivity. Qed.

(** The reports of the scan loop of [segmentBySilence]. *)
Lemma silence_loop_trace stride rate threshold minDuration tolerance len samples :
  forall i st,
    (0 <= i)%Z ->
    (i + JS.length samples <= len)%Z ->
    let reports :=
      trace (silence_loop stride rate threshold minDuration tolerance len
               samples i st) in
    between (rounded 100 len i) 100 reports /\ Forall integral reports.
Proof.
  induction samples as [|x rest IH]; intros i st Hi Hlen; cbn [silence_loop].
  - split; [apply between_nil | constructor].
  - assert (Hrest : (i + 1 + JS.length rest <= len)%Z).
    { unfold JS.length in *. cbn [length] in Hlen. lia. }
    assert (Hpos : (0 < len)%Z).
    { pose proof (length_nonneg rest). lia. }
    destruct (IH (i + 1)%Z (silence_step rate threshold minDuration tolerance i x st))
      as [Hb Hint]; [lia | exact Hrest |].
    rewrite trace_bind, silence_progress_returns.
    unfold silence_progress. destruct (JS.divisible i stride); simpl app.
    + split.
      * apply between_cons with (rounded 100 len (i + 1)).
        -- apply Qle_refl.
        -- apply rounded_le; lia.
        -- pose proof (length_nonneg rest).
           apply (rounded_bounds 100 len i); lia.
        -- exact Hb.
      * constructor; [apply integral_inject | exact Hint].
    + split; [|exact Hint].
      apply between_weaken with (rounded 100 len (i + 1)) 100;
        [apply rounded_le; lia | apply Qle_refl | exact Hb].
Qed.

(** The reports of [segmentBySilence]: integers in order between 0 and
    100. *)
Lemma segmentBySilence_trace audioBuffer params :
  between 0 100 (trace (segmentBySilence audioBuffer params)) /\
  Forall integral (trace (segmentBySilence audioBuffer params)).
Proof.
  destruct audioBuffer as [buf|]; [|split; [apply between_nil | constructor]].
  unfold segmentBySilence, segmentBySilenceEvery.
  rewrite trace_bind, silence_loop_result, trace_ret, app_nil_r.
  destruct (channelData buf) as [|x rest] eqn:E.
  - split; [apply between_nil | constructor].
  - rewrite <- E.
    destruct (silence_loop_trace yieldStride (sampleRate buf)
                (silenceThreshold params) (minSegmentDuration params)
                (pauseTolerance params / 1000) (JS.length (channelData buf))
                (channelData buf) 0 scan0) as [Hb Hint]; [lia | lia |].
    split; [|exact Hint].
    apply between_weaken with (rounded 100 (JS.length (channelData buf)) 0) 100;
      [| apply Qle_refl | exact Hb].
    apply (rounded_bounds 100 (JS.length (channelData buf)) 0); [lia | |].
    + pose proof (length_nonneg (channelData buf)). lia.
    + rewrite E. unfold JS.length. cbn [length]. lia.
Qed.

(** With the audio loaded the pitch estimator returns and reports
    nothing. *)
Lemma extractF0_run buf startTime endTime f0Min f0Max :
  0 < sampleRate buf ->
  exists f0, extractF0 (Some buf) startTime endTime f0Min f0Max = ret f0.
Proof.
  intros Hrate. unfold extractF0.
  destruct (JS.length (f0_segment buf startTime endTime) <? 400)%Z;
    [eexists; reflexivity|].
  rewrite endless_lags_positive by exact Hrate.
  destruct (0 <? best_lag (sampleRate buf) f0Min f0Max
                   (f0_segment buf startTime endTime))%Z;
    eexists; reflexivity.
Qed.

(** The reports of the pitch loop. *)
Lemma f0_loop_trace buf f0Min f0Max n segs :
  0 < sampleRate buf ->
  forall i,
    (0 <= i)%Z ->
    (i + JS.length segs <= n)%Z ->
    let reports := trace (f0_loop (Some buf) f0Min f0Max n segs i) in
    between (50 + rounded 50 n i) 100 reports /\ Forall integral reports.
Proof.
  intros Hrate.
  induction segs as [|seg rest IH]; intros i Hi Hn; cbn [f0_loop].
  - split; [apply between_nil | constructor].
  - assert (Hrest : (i + 1 + JS.length rest <= n)%Z).
    { unfold JS.length in *. cbn [length] in Hn. lia. }
    assert (Hpos : (0 < n)%Z).
    { pose proof (length_nonneg rest). lia. }
    destruct (IH (i + 1)%Z) as [Hb Hint]; [lia | exact Hrest |].
    destruct (extractF0_run buf (p_start seg) (p_end seg) f0Min f0Max Hrate)
      as [f0 Hf0].
    rewrite trace_bind. cbn [trace result onProgress fst snd].
    rewrite trace_bind, Hf0, trace_ret, result_ret. cbn [app].
    rewrite trace_bind. 
    replace (match result (f0_loop (Some buf) f0Min f0Max n rest (i + 1)) with
             | Returns a => trace (ret ({| p_start := p_start seg;
                                          p_end := p_end seg;
                                          p_speaker := p_speaker seg;
                                          p_f0 := f0 |} :: a))
             | _ => []
             end) with (@nil Q)
      by (destruct (result (f0_loop (Some buf) f0Min f0Max n rest (i + 1)));
          reflexivity).
    rewrite app_nil_r.
    pose proof (length_nonneg rest) as Hlen.
    destruct (rounded_bounds 50 n i) as [H0 H50]; [lia | lia | lia |].
    pose proof (rounded_le 50 n i (i + 1)) as Hstep.
    change (inject_Z 50) with 50 in H50.
    split.
    + change (between (50 + rounded 50 n i) 100
                (50 + rounded 50 n i
                 :: trace (f0_loop (Some buf) f0Min f0Max n rest (i + 1)))).
      apply between_cons with (50 + rounded 50 n (i + 1)).
      * apply Qle_refl.
      * assert (rounded 50 n i <= rounded 50 n (i + 1)) by (apply Hstep; lia).
        lra.
      * lra.
      * exact Hb.
    + constructor; [|exact Hint].
      apply (integral_plus 50). apply integral_inject.
Qed.

Lemma rounded_zero (c n : Z) : 0 <= rounded c n 0.
Proof.
  unfold rounded, JS.Math_round.
  change 0 with (inject_Z (Qfloor 0)) at 1. rewrite <- Zle_Qle.
  apply Qfloor_resp_le.
  assert (E : JS.num 0 / JS.num n * inject_Z c == 0)
    by (unfold JS.num, Qdiv; change (inject_Z 0) with 0; ring).
  rewrite E. lra.
Qed.

(** The reports of [segmentBySilenceAndF0]: the halves of the reports of
    the scan, then those of the pitch loop. *)
Lemma segmentBySilenceAndF0_trace buf params :
  0 < sampleRate buf ->
  let reports := trace (segmentBySilenceAndF0 (Some buf) params) in
  between 0 100 reports /\ Forall (fun v => integral (2 * v)) reports.
Proof.
  intros Hrate. unfold segmentBySilenceAndF0.
  destruct (segmentBySilence_returns buf params) as [segs Hsegs].
  destruct (segmentBySilence_trace (Some buf) params) as [Hb Hint].
  rewrite trace_bind, result_with_callback, trace_with_callback, Hsegs.
  rewrite trace_bind.
  destruct (f0_loop_trace buf (f0Min params) (f0Max params) (JS.length segs)
              segs Hrate 0) as [Hb' Hint']; [lia | lia |].
  set (loop := f0_loop (Some buf) (f0Min params) (f0Max params)
                 (JS.length segs) segs 0) in *.
  assert (Htail : match result loop with
                  | Returns a =>
                      trace
                        (if (0 <? JS.length (f0_values a))%Z
                         then
                           match kMeansClustering (f0_values a) (numSpeakers params) with
                           | Returns clusters => ret (map (label_segment clusters) a)
                           | Throws e => throw e
                           | Diverges => diverge
                           end
                         else ret a)
                  | _ => []
                  end = []).
  { destruct (result loop) as [a| |]; try reflexivity.
    destruct (0 <? JS.length (f0_values a))%Z; [|reflexivity].
    destruct (kMeansClustering (f0_values a) (numSpeakers params)); reflexivity. }
  cbv zeta. rewrite Htail, app_nil_r. split.
  - apply between_app with 50; [lra | lra | |].
    + apply between_map with 0 100; [| | exact Hb].
      * intros x y Hxy. lra.
      * intros x [H0 H100]. lra.
    + apply between_weaken with (50 + rounded 50 (JS.length segs) 0) 100;
        [| apply Qle_refl | exact Hb'].
      pose proof (rounded_zero 50 (JS.length segs)). lra.
  - apply Forall_app. split.
    + apply Forall_forall. intros y Hy. apply in_map_iff in Hy.
      destruct Hy as (x & <- & Hx). rewrite Forall_forall in Hint.
      destruct (Hint x Hx) as [z Hz]. exists z. rewrite <- Hz. ring.
    + apply Forall_forall. intros y Hy. rewrite Forall_forall in Hint'.
      destruct (Hint' y Hy) as [z Hz]. exists (2 * z)%Z.
      rewrite inject_Z_mult, Hz. reflexivity.
Qed.

(** The reports of the feature loop. *)
Lemma feature_loop_trace buf frameSize hopSize :
  (0 <= hopSize)%Z -> (0 <= frameSize)%Z ->
  forall fuel i,
    (0 <= i)%Z ->
    let reports := trace (feature_loop fuel buf frameSize hopSize i) in
    between (10 + rounded 40 (JS.length (channelData buf)) i) 50 reports /\
    Forall integral reports.
Proof.
  intros Hhop Hframe. induction fuel as [|fuel IH]; intros i Hi;
    cbn [feature_loop];
    destruct (i <? JS.length (channelData buf) - frameSize)%Z eqn:E;
    try (split; [apply between_nil | constructor]).
  apply Z.ltb_lt in E.
  destruct (IH (i + hopSize)%Z) as [Hb Hint]; [lia|].
  set (len := JS.length (channelData buf)) in *.
  rewrite trace_bind.
  replace (result (if JS.divisible i 10000
                   then onProgress
                          (10 + inject_Z (JS.Math_round (JS.num i / JS.num len * 40)))
                   else ret tt))
    with (Returns tt) by (destruct (JS.divisible i 10000); reflexivity).
  rewrite trace_bind.
  replace (match result (feature_loop fuel buf frameSize hopSize (i + hopSize)) with
           | Returns a => trace (ret (feature_at buf frameSize i :: a))
           | _ => []
           end) with (@nil Q)
    by (destruct (result (feature_loop fuel buf frameSize hopSize (i + hopSize)));
        reflexivity).
  rewrite app_nil_r.
  destruct (rounded_bounds 40 len i) as [H0 H40]; [lia | lia | lia |].
  change (inject_Z 40) with 40 in H40.
  assert (Hstep : rounded 40 len i <= rounded 40 len (i + hopSize))
    by (apply rounded_le; lia).
  destruct (JS.divisible i 10000).
  - change (trace (onProgress
                     (10 + inject_Z (JS.Math_round (JS.num i / JS.num len * 40)))))
      with [10 + rounded 40 len i].
    cbn [app]. split.
    + apply between_cons with (10 + rounded 40 len (i + hopSize));
        [apply Qle_refl | lra | lra | exact Hb].
    + constructor; [|exact Hint]. apply (integral_plus 10), integral_inject.
  - rewrite trace_ret. cbn [app]. split; [|exact Hint].
    apply between_weaken with (10 + rounded 40 len (i + hopSize)) 50;
      [lra | apply Qle_refl | exact Hb].
Qed.

(** The reports of [segmentByVADClustering]: 10, those of the feature
    loop and, when the loop ends, 50 and 100. *)
Lemma segmentByVADClustering_trace buf params :
  0 < sampleRate buf ->
  let reports := trace (segmentByVADClustering (Some buf) params) in
  between 0 100 reports /\
  Forall integral reports /\
  (forall segs,
     result (segmentByVADClustering (Some buf) params) = Returns segs ->
     exists init, reports = init ++ [100]).
Proof.
  intros Hrate. unfold segmentByVADClustering.
  rewrite trace_bind. cbn [trace result onProgress fst snd].
  rewrite trace_bind.
  destruct (feature_loop_trace buf
              (JS.Math_floor (sampleRate buf * (25 # 1000)))
              (JS.Math_floor (sampleRate buf * (10 # 1000))))
    with (fuel := length (channelData buf)) (i := 0%Z) as [Hb Hint].
  { change 0%Z with (Qfloor 0). apply Qfloor_resp_le. lra. }
  { change 0%Z with (Qfloor 0). apply Qfloor_resp_le. lra. }
  { lia. }
  fold (vad_features buf) in Hb, Hint.
  pose proof (rounded_zero 40 (JS.length (channelData buf))) as Hzero.
  assert (Hloop : between 10 50 (trace (vad_features buf))).
  { apply between_weaken
      with (10 + rounded 40 (JS.length (channelData buf)) 0) 50;
      [lra | apply Qle_refl | exact Hb]. }
  cbv zeta. rewrite result_bind. cbn [result onProgress snd].
  rewrite result_bind.
  destruct (result (vad_features buf)) as [features| |] eqn:E.
  - change (trace (onProgress 50;;; onProgress 100;;; ret (vad_segments features)))
      with [50; 100].
    split; [|split].
    + apply between_cons with 10; [lra | lra | lra |].
      apply between_app with 50; [lra | lra | exact Hloop |].
      apply between_cons with 100; [lra | lra | lra |].
      apply between_cons with 100; [lra | lra | lra |].
      apply between_nil.
    + constructor; [apply (integral_inject 10)|].
      apply Forall_app. split; [exact Hint|].
      constructor; [apply (integral_inject 50)|].
      constructor; [apply (integral_inject 100) | constructor].
    + intros segs _. exists (10 :: trace (vad_features buf) ++ [50]).
      cbn [app]. rewrite <- app_assoc. reflexivity.
  - rewrite app_nil_r. split; [|split].
    + apply between_cons with 10; [lra | lra | lra |].
      apply between_weaken with 10 50; [lra | lra | exact Hloop].
    + constructor; [apply (integral_inject 10) | exact Hint].
    + intros segs H. discriminate.
  - rewrite app_nil_r. split; [|split].
    + apply between_cons with 10; [lra | lra | lra |].
      apply between_weaken with 10 50; [lra | lra | exact Hloop].
    + constructor; [apply (integral_inject 10) | exact Hint].
    + intros segs H. discriminate.
Qed.

Lemma runAutoSegmentation_trace strategy params ids app :
  trace (runAutoSegmentation strategy params ids app)
  = trace (run_strategy strategy (audioBuffer app) params).
Proof.
  unfold runAutoSegmentation. rewrite trace_bind.
  destruct (result (run_strategy strategy (audioBuffer app) params));
    cbn [trace ret fst]; apply app_nil_r.
Qed.

Lemma runAutoSegmentation_result strategy params ids app :
  result (runAutoSegmentation strategy params ids app)
  = match result (run_strategy strategy (audioBuffer app) params) with
    | Returns segs => Returns (create_all ids segs app, segs)
    | Throws e => Throws e
    | Diverges => Diverges
    end.
Proof. unfold runAutoSegmentation. now rewrite result_bind. Qed.

(** C8, as amended: with the audio loaded and a positive sample rate, the
    values a run delivers to the progress callback are in
    non-decreasing order and lie between 0 and 100, whatever the
    strategy.  They are integers for ['silence'] and ['vad_clustering'];
    for ['silence_f0'] they are halves of integers.  A run of
    ['vad_clustering'] that returns has reported 100 last, and it returns
    at 100 Hz and above; the other strategies make no report once their
    loops have ended. *)
Theorem progress_reports :
  forall (app : App) (buf : AudioBuffer) (params : Params) (ids : Z -> string),
    audioBuffer app = Some buf ->
    0 < sampleRate buf ->
    (forall strategy,
       between 0 100 (trace (runAutoSegmentation strategy params ids app))) /\
    Forall integral (trace (runAutoSegmentation "silence" params ids app)) /\
    Forall (fun v => integral (2 * v))
           (trace (runAutoSegmentation "silence_f0" params ids app)) /\
    Forall integral (trace (runAutoSegmentation "vad_clustering" params ids app)) /\
    (forall r,
       result (runAutoSegmentation "vad_clustering" params ids app) = Returns r ->
       exists reports,
         trace (runAutoSegmentation "vad_clustering" params ids app)
         = reports ++ [100]) /\
    (100 <= sampleRate buf ->
     exists r,
       result (runAutoSegmentation "vad_clustering" params ids app) = Returns r).
Proof.
  intros app buf params ids Hbuf Hrate.
  destruct (segmentBySilence_trace (Some buf) params) as [Hs Hsi].
  destruct (segmentBySilenceAndF0_trace buf params Hrate) as [Hf Hfi].
  destruct (segmentByVADClustering_trace buf params Hrate) as (Hv & Hvi & Hlast).
  split; [|split; [|split; [|split; [|split]]]].
  - intros strategy. rewrite runAutoSegmentation_trace, Hbuf. unfold run_strategy.
    destruct (strategy =? "silence")%string; [exact Hs|].
    destruct (strategy =? "silence_f0")%string; [exact Hf|].
    destruct (strategy =? "vad_clustering")%string; [exact Hv|].
    destruct (strategy =? "sliding_window")%string; [exact Hf|].
    apply between_nil.
  - rewrite runAutoSegmentation_trace, Hbuf. exact Hsi.
  - rewrite runAutoSegmentation_trace, Hbuf. exact Hfi.
  - rewrite runAutoSegmentation_trace, Hbuf. exact Hvi.
  - intros r Hr. rewrite runAutoSegmentation_trace, Hbuf.
    rewrite runAutoSegmentation_result, Hbuf in Hr.
    change (run_strategy "vad_clustering" (Some buf) params)
      with (segmentByVADClustering (Some buf) params) in *.
    destruct (result (segmentByVADClustering (Some buf) params)) as [segs| |] eqn:E;
      try discriminate.
    apply (Hlast segs). reflexivity.
  - intros H100. rewrite runAutoSegmentation_result, Hbuf.
    change (run_strategy "vad_clustering" (Some buf) params)
      with (segmentByVADClustering (Some buf) params).
    destruct (vad_features_returns buf H100) as (features & Hfeat).
    rewrite segmentByVADClustering_result, Hfeat. eexists. reflexivity.
Qed.

(** C8, witness: the strategy ['vad_clustering'] on
    [eleven_frames_buffer]. *)
Lemma progress_reports_witness :
  let run :=
    runAutoSegmentation "vad_clustering" (sample_params (1 # 10) (3 # 10) 200)
      sample_ids voiced_app in
  between 0 100 (trace run) /\
  Forall integral (trace run) /\
  (exists r, result run = Returns r) /\
  (exists reports, trace run = reports ++ [100]).
Proof.
  intros run.
  destruct (progress_reports voiced_app eleven_frames_buffer
              (sample_params (1 # 10) (3 # 10) 200) sample_ids eq_refl eq_refl)
    as (Hall & _ & _ & Hint & Hlast & Hret).
  assert (H100 : 100 <= sampleRate eleven_frames_buffer)
    by (unfold Qle; simpl; lia).
  destruct (Hret H100) as [r Hr].
  split; [apply Hall|]. split; [exact Hint|].
  split; [exists r; exact Hr | exact (Hlast r Hr)].
Defined.

(** C8, counterexample: the strategy ['silence'] on [speech_buffer]
    returns after the single report 0, so that the last value the
    callback receives is not 100; and the strategy ['silence_f0'] on
    101000 samples reports 49.5, which is not an integer. *)
Lemma progress_reports_not_final_100 :
  (let run :=
     runAutoSegmentation "silence" (sample_params (1 # 10) (3 # 10) 200)
       sample_ids loaded_app in
   trace run = [0] /\ exists r, result run = Returns r) /\
  (let run :=
     runAutoSegmentation "silence_f0" (sample_params (1 # 10) (3 # 10) 200)
       sample_ids long_silence_app in
   trace run = [0 # 2; 99 # 2] /\ ~ integral (99 # 2)).
Proof.
  split.
  - split; [vm_compute; reflexivity|]. eexists. vm_compute. reflexivity.
  - split; [vm_compute; reflexivity|].
    intros [z Hz]. unfold Qeq in Hz. simpl in Hz. lia.
Qed.

(* ================================================================== *)
(** * Silence segmenter: order of the segments *)
(* ================================================================== *)

Lemma time_nonneg (rate : Q) (i : Z) :
  0 < rate -> (0 <= i)%Z -> 0 <= JS.num i / rate.
Proof.
  intros Hrate Hi. apply Qle_shift_div_l; [exact Hrate|]. rewrite Qmult_0_l.
  unfold JS.num. change 0 with (inject_Z 0). now rewrite <- Zle_Qle.
Qed.

Lemma time_lt (rate : Q) (i j : Z) :
  0 < rate -> (i < j)%Z -> JS.num i / rate < JS.num j / rate.
Proof.
  intros Hrate Hij. unfold Qdiv. apply Qmult_lt_compat_r.
  - now apply Qinv_lt_0_compat.
  - unfold JS.num. now rewrite <- Zlt_Qlt.
Qed.

Lemma sorted_push {A : Type} (R : A -> A -> Prop) (l : list A) (x : A) :
  StronglySorted R l -> Forall (fun a => R a x) l ->
  StronglySorted R (l ++ [x]).
Proof.
  induction 1 as [|a l Hs IH Ha]; intros Hx; simpl.
  - repeat constructor.
  - inversion Hx as [|? ? Hax Hlx]; subst. constructor; [now apply IH|].
    apply Forall_app. split; [exact Ha | now repeat constructor].
Qed.

(** One turn of the scan loop keeps the segments in order. *)
Lemma silence_step_ordered rate threshold minDuration tolerance i x st :
  0 < rate -> (0 <= i)%Z ->
  scan_ordered rate i st ->
  scan_ordered rate (i + 1)
    (silence_step rate threshold minDuration tolerance i x st).
Proof.
  intros Hrate Hi (Hsorted & Hall & Hopen).
  pose proof (time_nonneg rate i Hrate Hi) as H0.
  pose proof (time_lt rate i (i + 1) Hrate ltac:(lia)) as Hnext.
  assert (Hall' : Forall (fun s => 0 <= p_start s /\ p_start s <= p_end s /\
                                   p_end s < JS.num (i + 1) / rate) (found st)).
  { eapply Forall_impl; [|exact Hall]. intros s (H1 & H2 & H3).
    repeat split; try assumption. now apply Qlt_trans with (JS.num i / rate). }
  unfold silence_step.
  destruct (JS.gt (JS.Math_abs x) threshold).
  - split; [exact Hsorted|]. split; [exact Hall'|]. intros _. cbn.
    destruct (inSpeech st) eqn:Es.
    + destruct (Hopen eq_refl) as (Hs0 & Hs1 & Hs2 & Hs3).
      repeat split; try assumption.
      apply Qle_trans with (silenceStart st); [exact Hs1|].
      now apply Qlt_le_weak.
    + repeat split; try assumption; try apply Qle_refl.
      eapply Forall_impl; [|exact Hall]. intros s (_ & _ & H3). exact H3.
  - destruct (inSpeech st) eqn:Es; cbn [andb].
    + destruct (Hopen eq_refl) as (Hs0 & Hs1 & Hs2 & Hs3).
      destruct (JS.gt (JS.num i / rate - silenceStart st) tolerance).
      * cbn. split; [|split; [|discriminate]].
        -- destruct (JS.ge (silenceStart st - segmentStart st) minDuration);
             [|exact Hsorted].
           apply sorted_push; [exact Hsorted | exact Hs3].
        -- destruct (JS.ge (silenceStart st - segmentStart st) minDuration);
             [|exact Hall'].
           apply Forall_app. split; [exact Hall'|].
           constructor; [|constructor]. cbn. repeat split; try assumption.
           now apply Qlt_trans with (JS.num i / rate).
      * split; [exact Hsorted|]. split; [exact Hall'|]. intros _.
        repeat split; try assumption.
        now apply Qlt_trans with (JS.num i / rate).
    + split; [exact Hsorted|]. split; [exact Hall'|]. rewrite Es. discriminate.
Qed.

Lemma silence_run_ordered rate threshold minDuration tolerance samples :
  0 < rate ->
  forall i st,
    (0 <= i)%Z ->
    scan_ordered rate i st ->
    scan_ordered rate (i + JS.length samples)
      (silence_run rate threshold minDuration tolerance samples i st).
Proof.
  intros Hrate. induction samples as [|x rest IH]; intros i st Hi Hst.
  - unfold JS.length. cbn. now rewrite Z.add_0_r.
  - cbn [silence_run].
    replace (i + JS.length (x :: rest))%Z with (i + 1 + JS.length rest)%Z
      by (unfold JS.length; cbn [length]; lia).
    apply IH; [lia|]. now apply silence_step_ordered.
Qed.

Lemma scan0_ordered rate : scan_ordered rate 0 scan0.
Proof. split; [constructor|]. split; [constructor | discriminate]. Qed.

(** X1: with a positive sample rate, the segments [segmentBySilence]
    returns are disjoint and in the order of time: each one ends strictly
    before the next one starts, none starts before time 0, none ends
    before it starts and none ends after the end of the buffer. *)
Theorem segmentBySilence_ordered :
  forall (buf : AudioBuffer) (params : Params) (segs : list ProvSegment),
    0 < sampleRate buf ->
    result (segmentBySilence (Some buf) params) = Returns segs ->
    StronglySorted precedes segs /\
    Forall (fun s => 0 <= p_start s /\ p_start s <= p_end s /\
                     p_end s <= JS.num (JS.length (channelData buf)) / sampleRate buf)
           segs.
Proof.
  intros buf params segs Hrate Hres.
  unfold segmentBySilence in Hres. rewrite segmentBySilenceEvery_result in Hres.
  injection Hres as <-.
  pose proof (silence_run_ordered (sampleRate buf) (silenceThreshold params)
                (minSegmentDuration params) (pauseTolerance params / 1000)
                (channelData buf) Hrate 0 scan0 ltac:(lia)
                (scan0_ordered (sampleRate buf))) as Hst.
  rewrite Z.add_0_l in Hst.
  set (st := silence_run _ _ _ _ _ _ _) in *.
  destruct Hst as (Hsorted & Hall & Hopen).
  assert (Hall' : Forall (fun s => 0 <= p_start s /\ p_start s <= p_end s /\
                     p_end s <= JS.num (JS.length (channelData buf)) / sampleRate buf)
                    (found st)).
  { eapply Forall_impl; [|exact Hall]. intros s (H1 & H2 & H3).
    repeat split; try assumption. now apply Qlt_le_weak. }
  unfold silence_close. destruct (inSpeech st); [|now split].
  destruct (JS.ge _ _); [|now split].
  destruct (Hopen eq_refl) as (Hs0 & Hs1 & Hs2 & Hs3). split.
  - apply sorted_push; [exact Hsorted | exact Hs3].
  - apply Forall_app. split; [exact Hall'|]. constructor; [|constructor]. cbn.
    repeat split; try assumption; [|apply Qle_refl].
    apply Qle_trans with (silenceStart st); [exact Hs1 | now apply Qlt_le_weak].
Qed.

(** X1, witness: the two sounds of [two_voices_buffer] give two
    segments, the first ending before the second starts. *)
Lemma segmentBySilence_ordered_witness :
  exists segs,
    result (segmentBySilence (Some two_voices_buffer) two_voices_params)
    = Returns segs /\
    JS.length segs = 2%Z /\
    StronglySorted precedes segs /\
    Forall (fun s => 0 <= p_start s /\ p_start s <= p_end s /\
                     p_end s <= JS.num (JS.length (channelData two_voices_buffer))
                                / sampleRate two_voices_buffer)
           segs.
Proof.
  eexists. split; [vm_compute; reflexivity|]. split; [reflexivity|].
  apply (segmentBySilence_ordered two_voices_buffer two_voices_params).
  - reflexivity.
  - vm_compute. reflexivity.
Defined.

(* ================================================================== *)
(** * Preview of the silence segmentation *)
(* ================================================================== *)

Lemma gt_tolerance (d t t' : Q) : t == t' -> JS.gt d t = JS.gt d t'.
Proof. intros H. unfold JS.gt. now rewrite H. Qed.

Lemma preview_step_matches rate threshold minDuration tolerance i x pv st :
  tolerance == 3 # 10 ->
  preview_matches pv st ->
  preview_matches (preview_step rate threshold minDuration i x pv)
    (silence_step rate threshold minDuration tolerance i x st).
Proof.
  intros Htol (Hc & Hs & Hstart & Hsil).
  unfold preview_step, silence_step. rewrite Hs, Hstart, Hsil.
  rewrite (gt_tolerance _ tolerance (3 # 10) Htol).
  destruct (JS.gt (JS.Math_abs x) threshold).
  - repeat split; assumption.
  - destruct (inSpeech st && JS.gt (JS.num i / rate - silenceStart st) (3 # 10)).
    + unfold preview_matches. cbn.
      destruct (JS.ge (silenceStart st - segmentStart st) minDuration).
      * rewrite length_push, Hc. repeat split.
      * repeat split; assumption.
    + repeat split; assumption.
Qed.

Lemma preview_loop_matches rate threshold minDuration tolerance samples :
  tolerance == 3 # 10 ->
  forall i pv st,
    preview_matches pv st ->
    preview_matches (preview_loop rate threshold minDuration samples i pv)
      (silence_run rate threshold minDuration tolerance samples i st).
Proof.
  intros Htol. induction samples as [|x rest IH]; intros i pv st H; cbn.
  - exact H.
  - apply IH. now apply preview_step_matches.
Qed.

Lemma filter_all {A : Type} (p : A -> bool) (l : list A) :
  Forall (fun x => p x = true) l -> filter p l = l.
Proof.
  induction 1 as [|x l Hx _ IH]; simpl; [reflexivity|]. now rewrite Hx, IH.
Qed.

(** X2: with a positive sample rate and a pause tolerance of 300 ms, the
    count [previewSegmentation] displays is the number of segments
    [segmentBySilence] returns that end before the end of the buffer: the
    preview leaves out the segment still open at the end of the buffer,
    so that it shows the number of segments created or one less. *)
Theorem previewSegmentation_counts_closed_segments :
  forall (buf : AudioBuffer) (params : Params),
    0 < sampleRate buf ->
    pauseTolerance params == 300 ->
    exists segs count,
      result (segmentBySilence (Some buf) params) = Returns segs /\
      previewSegmentation (Some buf) (silenceThreshold params)
        (minSegmentDuration params) = Returns count /\
      count = JS.length (filter (ends_inside buf) segs) /\
      (JS.length segs = count \/ JS.length segs = count + 1)%Z.
Proof.
  intros buf params Hrate Htol.
  assert (Htol' : pauseTolerance params / 1000 == 3 # 10)
    by (rewrite Htol; reflexivity).
  eexists. eexists. split.
  { unfold segmentBySilence. apply segmentBySilenceEvery_result. }
  split; [reflexivity|].
  pose proof (preview_loop_matches (sampleRate buf) (silenceThreshold params)
                (minSegmentDuration params) (pauseTolerance params / 1000)
                (channelData buf) Htol' 0 preview0 scan0
                ltac:(repeat split)) as (Hc & Hs & _).
  pose proof (silence_run_ordered (sampleRate buf) (silenceThreshold params)
                (minSegmentDuration params) (pauseTolerance params / 1000)
                (channelData buf) Hrate 0 scan0 ltac:(lia)
                (scan0_ordered (sampleRate buf))) as (_ & Hall & _).
  rewrite Z.add_0_l in Hall.
  set (st := silence_run _ _ _ _ _ _ _) in *.
  set (pv := preview_loop _ _ _ _ _ _) in *.
  assert (Hinside : filter (ends_inside buf) (found st) = found st).
  { apply filter_all. eapply Forall_impl; [|exact Hall].
    intros s (_ & _ & H). now apply lt_true. }
  unfold silence_close. destruct (inSpeech st).
  - destruct (JS.ge _ _).
    + unfold JS.push. rewrite filter_app, Hinside. cbn [filter].
      replace (ends_inside buf _) with false.
      * rewrite app_nil_r. split; [exact Hc|]. right.
        rewrite Hc. unfold JS.length. rewrite length_app. cbn. lia.
      * symmetry. unfold ends_inside. cbn [p_end].
        apply not_true_iff_false. rewrite lt_true. apply Qlt_irrefl.
    + rewrite Hinside. split; [exact Hc | left; now rewrite Hc].
  - rewrite Hinside. split; [exact Hc | left; now rewrite Hc].
Qed.

(** X2, witness: on [speech_buffer] with a tolerance of 300 ms the
    preview shows one segment and one segment is returned. *)
Lemma previewSegmentation_counts_closed_segments_witness :
  exists segs count,
    result (segmentBySilence (Some speech_buffer)
              (sample_params (1 # 10) (3 # 10) 300)) = Returns segs /\
    previewSegmentation (Some speech_buffer) (1 # 10) (3 # 10) = Returns count /\
    count = JS.length (filter (ends_inside speech_buffer) segs) /\
    (JS.length segs = count \/ JS.length segs = count + 1)%Z.
Proof.
  apply (previewSegmentation_counts_closed_segments speech_buffer
           (sample_params (1 # 10) (3 # 10) 300)); reflexivity.
Defined.

(* ================================================================== *)
(** * Pitch estimator: range of the estimate *)
(* ================================================================== *)

(** X3: with a positive sample rate and positive pitch bounds, a pitch
    [extractF0] returns comes from a segment of at least 400 samples and
    from a lag [bestLag >= 1] among those examined; it is
    [sampleRate / bestLag], strictly above [f0Min], at most [sampleRate],
    and its period is shorter than half the segment. *)
Theorem extractF0_above_f0Min :
  forall (buf : AudioBuffer) (startTime endTime f0Min f0Max f0 : Q),
    0 < sampleRate buf -> 0 < f0Min -> 0 < f0Max ->
    extractF0 (Some buf) startTime endTime f0Min f0Max = ret (Some f0) ->
    let segment := f0_segment buf startTime endTime in
    (400 <= JS.length segment)%Z /\
    exists bestLag,
      In bestLag (candidate_lags (sampleRate buf) f0Min f0Max segment) /\
      (1 <= bestLag)%Z /\
      f0 = sampleRate buf / JS.num bestLag /\
      f0Min < f0 /\
      f0 <= sampleRate buf /\
      2 * JS.num bestLag < JS.num (JS.length segment).
Proof.
  intros buf startTime endTime f0Min f0Max f0 Hrate Hmin Hmax Hres segment.
  unfold extractF0 in Hres. fold segment in Hres.
  destruct (JS.length segment <? 400)%Z eqn:Elen; [discriminate|].
  apply Z.ltb_ge in Elen. split; [exact Elen|].
  rewrite endless_lags_positive in Hres by exact Hrate.
  destruct (0 <? best_lag (sampleRate buf) f0Min f0Max segment)%Z eqn:Ebest;
    [|discriminate].
  apply Z.ltb_lt in Ebest. injection Hres as <-.
  assert (Hfinite :
            candidate_lags (sampleRate buf) f0Min f0Max segment =
            lag_range (JS.Math_floor (sampleRate buf / f0Max))
              (JS.Math_min (JS.num (JS.Math_floor (sampleRate buf / f0Min)))
                 (JS.num (JS.length segment) / 2))).
  { apply candidate_lags_finite; intros E; rewrite E in *; lra. }
  set (lags := candidate_lags (sampleRate buf) f0Min f0Max segment) in *.
  assert (Hlags : forall l, In l lags ->
            (JS.Math_floor (sampleRate buf / f0Max) <= l)%Z /\
            (l < JS.Math_floor (sampleRate buf / f0Min))%Z /\
            JS.num l < JS.num (JS.length segment) / 2).
  { intros l Hl. rewrite Hfinite in Hl.
    apply in_lag_range in Hl. destruct Hl as [H1 H2].
    apply lt_Math_min in H2. destruct H2 as [H2 H3].
    unfold JS.num in H2. rewrite <- Zlt_Qlt in H2. tauto. }
  destruct lags as [|l0 lags'] eqn:Elags.
  { unfold best_lag in Ebest. fold lags in Ebest. rewrite Elags in Ebest.
    cbn in Ebest. lia. }
  rewrite <- Elags in *.
  destruct (best_lag_fold segment lags) as (best & Hfold & Hin & _).
  { apply candidate_lags_increasing. }
  { intros l Hl. destruct (Hlags l Hl) as [Hl0 _].
    pose proof (floor_quotient_nonneg _ _ Hrate Hmax).
    unfold JS.Math_floor in Hl0. lia. }
  { rewrite Elags. discriminate. }
  assert (Ebl : best_lag (sampleRate buf) f0Min f0Max segment = best).
  { unfold best_lag. fold lags. now rewrite Hfold. }
  rewrite Ebl in *. exists best. split; [exact Hin|]. split; [lia|].
  split; [reflexivity|].
  destruct (Hlags best Hin) as (_ & Hmaxlag & Hhalf).
  assert (Hb : 0 < JS.num best).
  { unfold JS.num. change 0 with (inject_Z 0). rewrite <- Zlt_Qlt. lia. }
  assert (Hb1 : 1 <= JS.num best).
  { unfold JS.num. change 1 with (inject_Z 1). rewrite <- Zle_Qle. lia. }
  split; [|split].
  - apply Qlt_shift_div_l; [exact Hb|].
    assert (Hq : JS.num best < sampleRate buf / f0Min).
    { apply Qlt_le_trans with (JS.num (JS.Math_floor (sampleRate buf / f0Min))).
      - unfold JS.num. now rewrite <- Zlt_Qlt.
      - apply Qfloor_le. }
    apply Qnot_le_lt. intros Hle. apply (Qlt_not_le _ _ Hq).
    apply Qle_shift_div_r; [exact Hmin|]. rewrite Qmult_comm. exact Hle.
  - apply Qle_shift_div_r; [exact Hb|].
    rewrite <- (Qmult_1_r (sampleRate buf)) at 1.
    apply Qmult_le_l; [exact Hrate | exact Hb1].
  - apply Qnot_le_lt. intros Hle. apply (Qlt_not_le _ _ Hhalf).
    apply Qle_shift_div_r; [reflexivity|]. rewrite Qmult_comm. exact Hle.
Qed.

(** X3, witness: the 400 samples of [silent_buffer], where the estimate
    is [8192 / 27]. *)
Lemma extractF0_above_f0Min_witness :
  let segment := f0_segment silent_buffer 0 (400 # 8192) in
  (400 <= JS.length segment)%Z /\
  exists bestLag,
    In bestLag (candidate_lags (sampleRate silent_buffer) 75 300 segment) /\
    (1 <= bestLag)%Z /\
    8192 # 27 = sampleRate silent_buffer / JS.num bestLag /\
    75 < 8192 # 27 /\
    8192 # 27 <= sampleRate silent_buffer /\
    2 * JS.num bestLag < JS.num (JS.length segment).
Proof.
  apply (extractF0_above_f0Min silent_buffer 0 (400 # 8192) 75 300 (8192 # 27));
    [reflexivity | reflexivity | reflexivity | vm_compute; reflexivity].
Defined.

(* ================================================================== *)
(** * Speaker clusterer: nearest centroid and number of centroids *)
(* ================================================================== *)

(** The variables of the loop of [findNearestCluster] after the last
    centroid. *)
Lemma nearest_fold (value : Q) (centroids : list Q) :
  centroids <> [] ->
  exists best c,
    fold_left (nearest_step value) centroids (None, 0%Z, 0%Z)
    = (Some (JS.Math_abs (value - c)), best, JS.length centroids) /\
    (0 <= best < JS.length centroids)%Z /\
    nth_error centroids (Z.to_nat best) = Some c /\
    (forall j c', nth_error centroids j = Some c' ->
       JS.Math_abs (value - c) <= JS.Math_abs (value - c')) /\
    (forall j c', nth_error centroids j = Some c' -> (Z.of_nat j < best)%Z ->
       JS.Math_abs (value - c) < JS.Math_abs (value - c')).
Proof.
  induction centroids as [|x l IH] using rev_ind; [congruence|]. intros _.
  rewrite fold_left_app. cbn [fold_left].
  assert (Hlen : JS.length (l ++ [x]) = (JS.length l + 1)%Z)
    by (apply (length_push l x)).
  destruct l as [|y l'] eqn:El.
  - exists 0%Z, x. cbn. split; [reflexivity|]. split; [lia|].
    split; [reflexivity|]. split.
    + intros [|[|j]] c' H; cbn in H; try discriminate.
      injection H as <-. apply Qle_refl.
    + intros j c' _ Hj. lia.
  - rewrite <- El in *.
    destruct IH as (best & c & Hfold & Hrange & Hnth & Hmin & Hfirst);
      [rewrite El; discriminate|].
    rewrite Hfold. unfold nearest_step. cbn [below].
    assert (Hbest : (Z.to_nat best < length l)%nat)
      by (unfold JS.length in Hrange; lia).
    destruct (JS.lt (JS.Math_abs (value - x)) (JS.Math_abs (value - c))) eqn:E.
    + apply lt_true in E. exists (JS.length l), x.
      rewrite Hlen. split; [reflexivity|]. split; [pose proof (length_nonneg l); lia|].
      split.
      { unfold JS.length. rewrite Nat2Z.id, nth_error_app2 by lia.
        now rewrite Nat.sub_diag. }
      split.
      * intros j c' Hj. destruct (Nat.lt_ge_cases j (length l)) as [Hlt | Hge].
        -- rewrite nth_error_app1 in Hj by exact Hlt.
           apply Qlt_le_weak. eapply Qlt_le_trans; [exact E | now apply (Hmin j)].
        -- rewrite nth_error_app2 in Hj by exact Hge.
           destruct (j - length l)%nat as [|[|k]]; cbn in Hj; try discriminate.
           injection Hj as <-. apply Qle_refl.
      * intros j c' Hj Hlt. unfold JS.length in Hlt.
        rewrite nth_error_app1 in Hj by lia.
        eapply Qlt_le_trans; [exact E | now apply (Hmin j)].
    + assert (E' : JS.Math_abs (value - c) <= JS.Math_abs (value - x)).
      { apply Qnot_lt_le. intros H. apply lt_true in H. congruence. }
      exists best, c. rewrite Hlen. split; [reflexivity|]. split; [lia|].
      split; [rewrite nth_error_app1 by exact Hbest; exact Hnth|]. split.
      * intros j c' Hj. destruct (Nat.lt_ge_cases j (length l)) as [Hlt | Hge].
        -- rewrite nth_error_app1 in Hj by exact Hlt. now apply (Hmin j).
        -- rewrite nth_error_app2 in Hj by exact Hge.
           destruct (j - length l)%nat as [|[|k]]; cbn in Hj; try discriminate.
           injection Hj as <-. exact E'.
      * intros j c' Hj Hlt. rewrite nth_error_app1 in Hj by lia.
        now apply (Hfirst j).
Qed.

(** X4: [findNearestCluster] returns the index of the first centroid at
    the least distance from the value: no centroid is nearer and every
    centroid before it is strictly farther.  Without centroid it returns
    0. *)
Theorem findNearestCluster_first_nearest :
  forall (value : Q) (centroids : list Q),
    findNearestCluster value [] = 0%Z /\
    (centroids <> [] ->
     let best := findNearestCluster value centroids in
     (0 <= best < JS.length centroids)%Z /\
     exists c,
       nth_error centroids (Z.to_nat best) = Some c /\
       (forall j c', nth_error centroids j = Some c' ->
          Qabs (value - c) <= Qabs (value - c')) /\
       (forall j c', nth_error centroids j = Some c' -> (Z.of_nat j < best)%Z ->
          Qabs (value - c) < Qabs (value - c'))).
Proof.
  intros value centroids. split; [reflexivity|]. intros Hne best.
  destruct (nearest_fold value centroids Hne)
    as (b & c & Hfold & Hrange & Hnth & Hmin & Hfirst).
  assert (Eb : best = b).
  { unfold best, findNearestCluster. now rewrite Hfold. }
  rewrite Eb. split; [exact Hrange|]. exists c. now repeat split.
Qed.

(** X4, witness: 150 Hz between the centroids 100, 200 and 100. *)
Lemma findNearestCluster_first_nearest_witness :
  findNearestCluster 150 [] = 0%Z /\
  let best := findNearestCluster 150 [100; 200; 100] in
  (0 <= best < JS.length [100; 200; 100])%Z /\
  exists c,
    nth_error [100; 200; 100] (Z.to_nat best) = Some c /\
    (forall j c', nth_error [100; 200; 100] j = Some c' ->
       Qabs (150 - c) <= Qabs (150 - c')) /\
    (forall j c', nth_error [100; 200; 100] j = Some c' -> (Z.of_nat j < best)%Z ->
       Qabs (150 - c) < Qabs (150 - c')).
Proof.
  split.
  - apply (findNearestCluster_first_nearest 150 []).
  - apply (findNearestCluster_first_nearest 150 [100; 200; 100]). discriminate.
Defined.

Lemma kmeans_round_length values centroids :
  length (kmeans_round values centroids) = length centroids.
Proof.
  unfold kmeans_round, indices, JS.length.
  rewrite length_map, length_combine, length_map, length_seq, Nat2Z.id.
  apply Nat.min_id.
Qed.

Lemma kmeans_rounds_length values centroids :
  length (kmeans_rounds values centroids) = length centroids.
Proof.
  unfold kmeans_rounds. generalize 10%nat as n.
  induction n as [|n IH]; [reflexivity|].
  now rewrite Nat.iter_succ, kmeans_round_length.
Qed.

Lemma initial_centroids_length values k :
  length (initial_centroids values k) = Z.to_nat k.
Proof.
  unfold initial_centroids, indices. now rewrite !length_map, length_seq.
Qed.


(** X5: with [1 <= k <= values.length], [kMeansClustering] returns
    exactly [k] centroids.  With [k < 0] it raises a [RangeError]
    ([Array(k)]), and with [k = 0] and at least one value a [TypeError]
    ([clusters[0]] is [undefined]). *)
Theorem kMeansClustering_k_centroids :
  forall (values : list Q) (k : Z),
    ((1 <= k <= JS.length values)%Z ->
     exists centroids,
       kMeansClustering values k = Returns centroids /\
       JS.length centroids = k) /\
    ((k < 0)%Z -> kMeansClustering values k = Throws RangeError) /\
    (k = 0%Z -> values <> [] -> kMeansClustering values k = Throws TypeError).
Proof.
  intros values k. pose proof (length_nonneg values) as Hlen.
  split; [|split].
  - intros Hk. unfold kMeansClustering.
    replace (JS.length values <? k)%Z with false by (symmetry; apply Z.ltb_ge; lia).
    replace (k <? 0)%Z with false by (symmetry; apply Z.ltb_ge; lia).
    replace (k =? 0)%Z with false by (symmetry; apply Z.eqb_neq; lia).
    eexists. split; [reflexivity|].
    unfold JS.length. rewrite kmeans_rounds_length, initial_centroids_length. lia.
  - intros Hk. unfold kMeansClustering.
    replace (JS.length values <? k)%Z with false by (symmetry; apply Z.ltb_ge; lia).
    replace (k <? 0)%Z with true by (symmetry; apply Z.ltb_lt; lia).
    reflexivity.
  - intros -> Hne. unfold kMeansClustering.
    replace (JS.length values <? 0)%Z with false by (symmetry; apply Z.ltb_ge; lia).
    destruct values; [congruence | reflexivity].
Qed.

(** X5, witness: the six pitches of the scenario with [k = 2], [k = -1]
    and [k = 0]. *)
Lemma kMeansClustering_k_centroids_witness :
  (exists centroids,
     kMeansClustering sample_pitches 2 = Returns centroids /\
     JS.length centroids = 2%Z) /\
  kMeansClustering sample_pitches (-1) = Throws RangeError /\
  kMeansClustering sample_pitches 0 = Throws TypeError.
Proof.
  split; [|split].
  - apply (proj1 (kMeansClustering_k_centroids sample_pitches 2)).
    vm_compute. split; discriminate.
  - apply (proj1 (proj2 (kMeansClustering_k_centroids sample_pitches (-1)))).
    reflexivity.
  - apply (proj2 (proj2 (kMeansClustering_k_centroids sample_pitches 0)));
      [reflexivity | discriminate].
Defined.

(* ================================================================== *)
(** * Silence and pitch strategy: bounds and tags *)
(* ================================================================== *)

(** The pitch estimator reports nothing. *)
Lemma extractF0_trace audioBuffer startTime endTime f0Min f0Max :
  trace (extractF0 audioBuffer startTime endTime f0Min f0Max) = [].
Proof.
  unfold extractF0. destruct audioBuffer as [buf|]; [|reflexivity].
  destruct (JS.length (f0_segment buf startTime endTime) <? 400)%Z;
    [reflexivity|].
  destruct (endless_lags _ _ _ _); [reflexivity|].
  destruct (0 <? best_lag _ _ _ _)%Z; reflexivity.
Qed.

(** The pitch loop keeps the bounds and the tags of the segments and
    gives each the pitch of [extractF0]. *)
Lemma f0_loop_estimates audioBuffer f0Min f0Max n segs : forall i estimated,
  result (f0_loop audioBuffer f0Min f0Max n segs i) = Returns estimated ->
  Forall2 (estimated_from audioBuffer f0Min f0Max) segs estimated.
Proof.
  induction segs as [|seg rest IH]; intros i estimated; cbn [f0_loop].
  - intros H. injection H as <-. constructor.
  - rewrite result_bind. cbn [result onProgress snd]. rewrite result_bind.
    pose proof (extractF0_trace audioBuffer (p_start seg) (p_end seg)
                  f0Min f0Max) as Htrace.
    destruct (extractF0 audioBuffer (p_start seg) (p_end seg) f0Min f0Max)
      as [reports [f0| |]] eqn:Ef0; cbn [result snd]; try discriminate.
    cbn [trace fst] in Htrace. subst reports.
    rewrite result_bind.
    destruct (result (f0_loop audioBuffer f0Min f0Max n rest (i + 1)))
      as [rest'| |] eqn:Erest; try discriminate.
    intros H. injection H as <-.
    constructor; [|now apply (IH (i + 1)%Z)].
    unfold estimated_from. cbn [p_start p_end p_speaker p_f0]. auto.
Qed.


Lemma findNearestCluster_range (value : Q) (centroids : list Q) :
  (0 <= findNearestCluster value centroids)%Z /\
  (centroids <> [] -> (findNearestCluster value centroids < JS.length centroids)%Z).
Proof.
  destruct centroids as [|c l].
  - split; [cbn; lia | congruence].
  - destruct (nearest_fold value (c :: l)) as (b & c' & Hfold & Hrange & _);
      [discriminate|].
    unfold findNearestCluster. rewrite Hfold. cbn [fst snd]. split; [lia|].
    intros _. lia.
Qed.


(** The two stages of [segmentBySilenceAndF0]: the segments of the
    silence segmenter with their pitch, then the clustering. *)
Lemma segmentBySilenceAndF0_result buf params :
  exists segs,
    result (segmentBySilence (Some buf) params) = Returns segs /\
    result (segmentBySilenceAndF0 (Some buf) params) =
    match result (f0_loop (Some buf) (f0Min params) (f0Max params)
                    (JS.length segs) segs 0) with
    | Returns estimated =>
        if (0 <? JS.length (f0_values estimated))%Z then
          match kMeansClustering (f0_values estimated) (numSpeakers params) with
          | Returns clusters => Returns (map (label_segment clusters) estimated)
          | Throws e => Throws e
          | Diverges => Diverges
          end
        else Returns estimated
    | Throws e => Throws e
    | Diverges => Diverges
    end.
Proof.
  destruct (segmentBySilence_returns buf params) as [segs Hsegs].
  exists segs. split; [exact Hsegs|].
  unfold segmentBySilenceAndF0.
  rewrite result_bind, result_with_callback, Hsegs, result_bind.
  destruct (result (f0_loop _ _ _ _ _ _)) as [estimated| |]; try reflexivity.
  destruct (0 <? JS.length (f0_values estimated))%Z; [|reflexivity].
  destruct (kMeansClustering _ _); reflexivity.
Qed.

(** The segments after the pitch loop carry the default tag. *)
Lemma estimated_tags audioBuffer f0Min f0Max segs estimated :
  Forall unlabelled segs ->
  Forall2 (estimated_from audioBuffer f0Min f0Max) segs estimated ->
  Forall (fun e => p_speaker e = spk 1) estimated.
Proof.
  intros Hun Hest. revert Hun.
  induction Hest as [|seg e segs' est' (_ & _ & H3 & _) _ IH]; intros Hun;
    [constructor|].
  inversion Hun as [|? ? [_ Hspk] Hun']; subst.
  constructor; [congruence | now apply IH].
Qed.

(** The tag of a labelled segment is [spk1] or above. *)
Lemma label_segment_tag clusters e :
  p_speaker e = spk 1 ->
  (1 <= speakerNumOf (p_speaker (label_segment clusters e)))%Z.
Proof.
  intros He. unfold label_segment. destruct (p_f0 e) as [f|].
  - cbn. pose proof (proj1 (findNearestCluster_range f clusters)). lia.
  - rewrite He. cbn. lia.
Qed.





(* ================================================================== *)
(** * Orchestrator: the segments a run creates *)
(* ================================================================== *)

(** A speaker number from 1 on has a colour of the palette. *)
Lemma colorOf_defined (n : Z) :
  (1 <= n)%Z -> exists c, colorOf n = Some c /\ In c speakerColors.
Proof.
  intros Hn. unfold colorOf, JS.index, JS.rem.
  change (JS.length speakerColors) with 8%Z.
  assert (Hr : (0 <= Z.rem (n - 1) 8 < 8)%Z) by (apply Z.rem_bound_pos; lia).
  replace (Z.rem (n - 1) 8 <? 0)%Z with false by (symmetry; apply Z.ltb_ge; lia).
  destruct (nth_error speakerColors (Z.to_nat (Z.rem (n - 1) 8))) as [c|] eqn:E.
  - exists c. split; [reflexivity|]. eapply nth_error_In. exact E.
  - apply nth_error_None in E. change (length speakerColors) with 8%nat in E. lia.
Qed.

(** The voice-activity loop only adds segments tagged [spk1]. *)
Lemma vad_fold_tags features : forall acc,
  Forall (fun seg => p_speaker seg = spk 1) (snd acc) ->
  Forall (fun seg => p_speaker seg = spk 1) (snd (fold_left vad_step features acc)).
Proof.
  induction features as [|feat features IH]; intros acc Hacc; cbn [fold_left];
    [exact Hacc|].
  apply IH. unfold vad_step. destruct acc as [[[start feats]|] segs]; cbn in Hacc.
  - destruct (isVoiced feat); [exact Hacc|].
    destruct (10 <? JS.length feats)%Z; [|exact Hacc].
    cbn. unfold JS.push. apply Forall_app. split; [exact Hacc|].
    constructor; [reflexivity | constructor].
  - destruct (isVoiced feat); exact Hacc.
Qed.

(** Every strategy returns segments tagged [spk1] or above. *)
Lemma run_strategy_tags strategy audioBuffer params segs :
  result (run_strategy strategy audioBuffer params) = Returns segs ->
  Forall (fun seg => (1 <= speakerNumOf (p_speaker seg))%Z) segs.
Proof.
  assert (Hsilence : forall segs',
    result (segmentBySilence audioBuffer params) = Returns segs' ->
    Forall (fun seg => (1 <= speakerNumOf (p_speaker seg))%Z) segs').
  { intros segs' H. destruct audioBuffer as [buf|]; [|discriminate].
    apply segmentBySilence_unlabelled in H.
    eapply Forall_impl; [|exact H]. intros seg [_ ->]. cbn. lia. }
  assert (Hf0 : forall segs',
    result (segmentBySilenceAndF0 audioBuffer params) = Returns segs' ->
    Forall (fun seg => (1 <= speakerNumOf (p_speaker seg))%Z) segs').
  { intros segs' H. destruct audioBuffer as [buf|]; [|discriminate].
    destruct (segmentBySilenceAndF0_result buf params)
      as (silent & Hsilent & Hres).
    rewrite Hres in H. clear Hres.
    destruct (result (f0_loop (Some buf) (f0Min params) (f0Max params)
                        (JS.length silent) silent 0))
      as [estimated| |] eqn:Hloop; try discriminate.
    assert (Htags : Forall (fun e => p_speaker e = spk 1) estimated).
    { eapply estimated_tags.
      - exact (segmentBySilence_unlabelled buf params silent Hsilent).
      - exact (f0_loop_estimates _ _ _ _ _ _ _ Hloop). }
    destruct (0 <? JS.length (f0_values estimated))%Z.
    - destruct (kMeansClustering _ _) as [clusters| |]; try discriminate.
      injection H as <-. apply Forall_map.
      eapply Forall_impl; [|exact Htags].
      intros e He. now apply label_segment_tag.
    - injection H as <-. eapply Forall_impl; [|exact Htags].
      intros e ->. cbn. lia. }
  unfold run_strategy.
  destruct (strategy =? "silence")%string; [apply Hsilence|].
  destruct (strategy =? "silence_f0")%string; [apply Hf0|].
  destruct (strategy =? "vad_clustering")%string.
  - intros H. destruct audioBuffer as [buf|]; [|discriminate].
    rewrite segmentByVADClustering_result in H.
    destruct (result (vad_features buf)) as [features| |]; try discriminate.
    injection H as <-.
    eapply Forall_impl;
      [|apply (vad_fold_tags features (None, [])); constructor].
    intros seg ->. cbn. lia.
  - destruct (strategy =? "sliding_window")%string; [apply Hf0|].
    intros H. injection H as <-. constructor.
Qed.

(** Creating segments touches neither the tracks, nor the selection,
    nor the history. *)
Lemma create_all_rest ids segs app :
  speakerTracks (create_all ids segs app) = speakerTracks app /\
  selectedSegment (create_all ids segs app) = selectedSegment app /\
  undoStack (create_all ids segs app) = undoStack app /\
  redoStack (create_all ids segs app) = redoStack app.
Proof.
  unfold create_all. generalize (indexed segs) as l.
  intros l. revert app. induction l as [|[k seg] l IH]; intros app;
    cbn [fold_left].
  - auto.
  - destruct (IH (createSegment (ids k) (p_start seg) (p_end seg)
                    (speakerNumOf (p_speaker seg)) "" app))
      as (-> & -> & -> & ->).
    auto.
Qed.

(** X7: whatever the strategy and the parameters, a run of
    [runAutoSegmentation] that returns has appended one live segment per
    returned segment and changed nothing else of the live state; each
    created segment has a speaker number from 1 on, a colour of the
    palette (never [undefined]) and an empty transcription. *)
Theorem runAutoSegmentation_created_segments :
  forall (strategy : string) (params : Params) (ids : Z -> string)
         (app app' : App) (segs : list ProvSegment),
    result (runAutoSegmentation strategy params ids app) = Returns (app', segs) ->
    let created := map (fun '(k, seg) => created_segment (ids k) seg) (indexed segs) in
    segments app' = segments app ++ created /\
    JS.length created = JS.length segs /\
    Forall well_coloured created /\
    speakerTracks app' = speakerTracks app /\
    selectedSegment app' = selectedSegment app /\
    undoStack app' = undoStack app /\
    redoStack app' = redoStack app.
Proof.
  intros strategy params ids app app' segs H created.
  rewrite runAutoSegmentation_result in H.
  destruct (result (run_strategy strategy (audioBuffer app) params))
    as [segs'| |] eqn:Hrun; try discriminate.
  injection H as <- <-.
  apply run_strategy_tags in Hrun.
  split; [apply create_all_segments|].
  split.
  { unfold created, indexed, indices, JS.length.
    now rewrite length_map, length_combine, length_map, length_seq, Nat2Z.id,
      Nat.min_id. }
  split.
  { unfold created. apply Forall_map. apply Forall_forall.
    intros [k seg] Hin. unfold indexed in Hin. apply in_combine_r in Hin.
    rewrite Forall_forall in Hrun. specialize (Hrun seg Hin).
    unfold well_coloured, created_segment. cbn.
    split; [exact Hrun|]. split; [now apply colorOf_defined | reflexivity]. }
  apply create_all_rest.
Qed.

(** X7, witness: the strategy ['silence_f0'] on [speech_buffer]. *)
Lemma runAutoSegmentation_created_segments_witness :
  exists app' segs,
    result (runAutoSegmentation "silence_f0" (sample_params (1 # 10) (3 # 10) 200)
              sample_ids loaded_app) = Returns (app', segs) /\
    let created :=
      map (fun '(k, seg) => created_segment (sample_ids k) seg) (indexed segs) in
    segments app' = segments loaded_app ++ created /\
    JS.length created = JS.length segs /\
    Forall well_coloured created /\
    speakerTracks app' = speakerTracks loaded_app /\
    selectedSegment app' = selectedSegment loaded_app /\
    undoStack app' = undoStack loaded_app /\
    redoStack app' = redoStack loaded_app.
Proof.
  eexists. eexists. split; [vm_compute; reflexivity|].
  apply (runAutoSegmentation_created_segments "silence_f0"
           (sample_params (1 # 10) (3 # 10) 200) sample_ids loaded_app).
  vm_compute. reflexivity.
Defined.

(* ================================================================== *)
(** * Frame features: ranges *)
(* ================================================================== *)

Lemma num_length_cons {A : Type} (x : A) (l : list A) :
  JS.num (JS.length (x :: l)) == JS.num (JS.length l) + 1.
Proof.
  unfold JS.num, JS.length. cbn [length]. rewrite Nat2Z.inj_succ.
  unfold Z.succ. now rewrite inject_Z_plus.
Qed.

Lemma num_length_pos {A : Type} (l : list A) :
  l <> [] -> 0 < JS.num (JS.length l).
Proof.
  destruct l; [congruence|]. intros _. unfold JS.num, JS.length.
  change 0 with (inject_Z 0). rewrite <- Zlt_Qlt. cbn [length]. lia.
Qed.

(** The sum of the squares, from [acc] on. *)
Lemma energy_fold frame : forall acc,
  0 <= acc ->
  0 <= fold_left (fun sum x => sum + x * x) frame acc /\
  (Forall (fun x => Qabs x <= 1) frame ->
   fold_left (fun sum x => sum + x * x) frame acc
   <= acc + JS.num (JS.length frame)).
Proof.
  induction frame as [|x rest IH]; intros acc Hacc; cbn [fold_left].
  - split; [exact Hacc|]. intros _.
    change (JS.num (JS.length (@nil Q))) with 0. lra.
  - assert (Hx : 0 <= x * x) by nra.
    destruct (IH (acc + x * x)) as [H0 H1]; [lra|].
    split; [exact H0|]. intros Hall.
    inversion Hall as [|? ? Hx1 Hrest]; subst.
    specialize (H1 Hrest). rewrite num_length_cons.
    apply Qabs_Qle_condition in Hx1. assert (x * x <= 1) by nra. lra.
Qed.

(** The counter of the crossings grows by at most one per sample. *)
Lemma zcr_loop_bounds frame : forall prev count,
  (count <= zcr_loop prev frame count <= count + JS.length frame)%Z.
Proof.
  induction frame as [|x rest IH]; intros prev count; cbn [zcr_loop].
  - unfold JS.length. cbn. lia.
  - unfold JS.length in *. cbn [length]. rewrite Nat2Z.inj_succ.
    destruct (_ || _);
      [specialize (IH x (count + 1)%Z) | specialize (IH x count)]; lia.
Qed.

(** The weighted sum stays between 0 and [rate] times the sum of the
    magnitudes. *)
Lemma centroid_loop_bounds rate len :
  0 <= rate -> (0 < len)%Z ->
  forall frame i acc,
    (0 <= i)%Z -> (i + JS.length frame <= len)%Z ->
    0 <= fst acc -> fst acc <= rate * snd acc -> 0 <= snd acc ->
    0 <= fst (centroid_loop rate len frame i acc) /\
    fst (centroid_loop rate len frame i acc)
    <= rate * snd (centroid_loop rate len frame i acc) /\
    0 <= snd (centroid_loop rate len frame i acc).
Proof.
  intros Hrate Hlen.
  induction frame as [|x rest IH]; intros i acc Hi Hbound Hw Hle Hs;
    cbn [centroid_loop]; [auto|].
  assert (Hrest : (i + 1 + JS.length rest <= len)%Z).
  { unfold JS.length in *. cbn [length] in Hbound. lia. }
  assert (Hm : 0 <= JS.Math_abs x) by apply Qabs_nonneg.
  assert (Hpos : 0 < JS.num len).
  { unfold JS.num. change 0 with (inject_Z 0). rewrite <- Zlt_Qlt. exact Hlen. }
  assert (Hi0 : 0 <= JS.num i).
  { unfold JS.num. change 0 with (inject_Z 0). rewrite <- Zle_Qle. exact Hi. }
  assert (Hil : JS.num i <= JS.num len).
  { unfold JS.num. rewrite <- Zle_Qle. pose proof (length_nonneg rest). lia. }
  assert (Hf0 : 0 <= JS.num i * rate / JS.num len).
  { apply Qle_shift_div_l; [exact Hpos|]. nra. }
  assert (Hf1 : JS.num i * rate / JS.num len <= rate).
  { apply Qle_shift_div_r; [exact Hpos|]. nra. }
  apply IH; cbn [fst snd]; try lia; nra.
Qed.

(** X8: on a frame that is not empty, [calculateEnergy] is not negative,
    and at most 1 when every sample is between -1 and 1;
    [calculateZCR] is in [0, 1); and, for a sample rate that is not
    negative, [calculateSpectralCentroid] is between 0 and the sample
    rate. *)
Theorem frame_features_ranges :
  forall (frame : list Q) (rate : Q),
    frame <> [] -> 0 <= rate ->
    0 <= calculateEnergy frame /\
    (Forall (fun x => Qabs x <= 1) frame -> calculateEnergy frame <= 1) /\
    0 <= calculateZCR frame /\ calculateZCR frame < 1 /\
    0 <= calculateSpectralCentroid frame rate /\
    calculateSpectralCentroid frame rate <= rate.
Proof.
  intros frame rate Hne Hrate.
  pose proof (num_length_pos frame Hne) as Hpos.
  destruct (energy_fold frame 0) as [He0 He1]; [lra|].
  assert (Hzcr : 0 <= calculateZCR frame /\ calculateZCR frame < 1).
  { unfold calculateZCR. destruct frame as [|x rest]; [congruence|].
    pose proof (zcr_loop_bounds rest x 0) as Hc.
    assert (Hc0 : 0 <= JS.num (zcr_loop x rest 0)).
    { unfold JS.num. change 0 with (inject_Z 0). rewrite <- Zle_Qle. lia. }
    assert (Hc1 : JS.num (zcr_loop x rest 0) < JS.num (JS.length (x :: rest))).
    { unfold JS.num. rewrite <- Zlt_Qlt. unfold JS.length in *.
      cbn [length]. lia. }
    split.
    - apply Qle_shift_div_l; [exact Hpos | lra].
    - apply Qlt_shift_div_r; [exact Hpos | lra]. }
  assert (Hcen : 0 <= calculateSpectralCentroid frame rate /\
                 calculateSpectralCentroid frame rate <= rate).
  { unfold calculateSpectralCentroid.
    assert (Hlen : (0 < JS.length frame)%Z).
    { destruct frame; [congruence|]. unfold JS.length. cbn [length]. lia. }
    destruct (centroid_loop_bounds rate (JS.length frame) Hrate Hlen frame 0
                (0, 0)) as (Hw & Hle & Hs); cbn [fst snd]; try lia; try lra.
    destruct (centroid_loop rate (JS.length frame) frame 0 (0, 0))
      as [weightedSum sum]. cbn [fst snd] in *.
    destruct (JS.gt sum 0) eqn:E; [|split; [lra | exact Hrate]].
    apply gt_true in E. split.
    - apply Qle_shift_div_l; [exact E | lra].
    - apply Qle_shift_div_r; [exact E | exact Hle]. }
  split.
  { unfold calculateEnergy. apply Qle_shift_div_l; [exact Hpos | lra]. }
  split.
  { intros Hall. unfold calculateEnergy.
    apply Qle_shift_div_r; [exact Hpos|]. specialize (He1 Hall). lra. }
  tauto.
Qed.

(** X8, witness: a frame of three samples at 8000 Hz. *)
Lemma frame_features_ranges_witness :
  let frame := [1 # 2; - (1 # 2); 1 # 4] in
  0 <= calculateEnergy frame /\
  (Forall (fun x => Qabs x <= 1) frame -> calculateEnergy frame <= 1) /\
  0 <= calculateZCR frame /\ calculateZCR frame < 1 /\
  0 <= calculateSpectralCentroid frame 8000 /\
  calculateSpectralCentroid frame 8000 <= 8000.
Proof.
  apply (frame_features_ranges [1 # 2; - (1 # 2); 1 # 4] 8000).
  - discriminate.
  - unfold Qle. simpl. lia.
Defined.

(* ================================================================== *)
(** * Speaker tracks: numbering *)
(* ================================================================== *)

Lemma indices_succ (n : nat) :
  indices (Z.of_nat (S n)) = indices (Z.of_nat n) ++ [Z.of_nat n].
Proof.
  unfold indices. rewrite !Nat2Z.id, seq_S, map_app. reflexivity.
Qed.

Lemma in_indices (i n : Z) : In i (indices n) <-> (0 <= i < n)%Z.
Proof.
  unfold indices. rewrite in_map_iff. split.
  - intros (j & <- & Hj). apply in_seq in Hj. lia.
  - intros Hi. exists (Z.to_nat i). split; [lia|]. apply in_seq. lia.
Qed.

Lemma length_indices (n : Z) : length (indices n) = Z.to_nat n.
Proof. unfold indices. now rewrite length_map, length_seq. Qed.

Lemma numbered_in tracks n :
  numbered tracks ->
  (In n (map speakerNum tracks) <-> (1 <= n <= JS.length tracks)%Z).
Proof.
  intros ->. rewrite in_map_iff. split.
  - intros (i & <- & Hi). apply in_indices in Hi. lia.
  - intros Hn. exists (n - 1)%Z. split; [lia|]. apply in_indices. lia.
Qed.

Lemma numbered_NoDup tracks : numbered tracks -> NoDup (map speakerNum tracks).
Proof.
  intros ->. unfold indices. rewrite map_map.
  apply Finite.Injective_map_NoDup; [|apply seq_NoDup].
  intros i j H. lia.
Qed.

Lemma renumber_length tracks : length (renumber tracks) = length tracks.
Proof.
  unfold renumber, JS.length. now rewrite length_map, length_indices, Nat2Z.id.
Qed.

Lemma renumber_numbered tracks : numbered (renumber tracks).
Proof.
  unfold numbered, JS.length. rewrite renumber_length.
  unfold renumber, JS.length. rewrite map_map. reflexivity.
Qed.

Lemma push_numbered tracks nm :
  numbered tracks ->
  numbered (JS.push tracks {| speakerNum := JS.length tracks + 1; name := nm |}).
Proof.
  unfold numbered, JS.push, JS.length. intros H.
  rewrite length_app, map_app, H. cbn [length map speakerNum].
  rewrite Nat.add_1_r, indices_succ, map_app. reflexivity.
Qed.

Lemma remove_track_length k tracks :
  In k (map speakerNum tracks) ->
  length tracks = S (length (remove_track k tracks)).
Proof.
  induction tracks as [|t rest IH]; cbn [map remove_track]; [intros []|].
  intros Hin. destruct (speakerNum t =? k)%Z eqn:E; [reflexivity|].
  apply Z.eqb_neq in E. destruct Hin as [Ht|Hin]; [congruence|].
  cbn [length]. now rewrite <- IH.
Qed.

Lemma existsb_track k tracks :
  existsb (fun t => (speakerNum t =? k)%Z) tracks = true
  <-> In k (map speakerNum tracks).
Proof.
  rewrite existsb_exists, in_map_iff. split.
  - intros (t & Hin & Ht). apply Z.eqb_eq in Ht. now exists t.
  - intros (t & Ht & Hin). exists t. split; [exact Hin | now apply Z.eqb_eq].
Qed.

(** X9: tracks numbered 1, 2, ..., n in order stay so under every
    sequence of [addSpeaker] and [removeSpeaker]; in particular no two
    tracks ever carry the same number.  [createDefaultSpeakers] adds three
    tracks and keeps the numbering. *)
Theorem roster_numbered :
  forall (ops : list RosterOp) (app : App),
    numbered (speakerTracks app) ->
    numbered (speakerTracks (fold_left run_roster_op ops app)) /\
    NoDup (map speakerNum (speakerTracks (fold_left run_roster_op ops app))) /\
    numbered (speakerTracks (createDefaultSpeakers app)) /\
    JS.length (speakerTracks (createDefaultSpeakers app))
    = (JS.length (speakerTracks app) + 3)%Z.
Proof.
  intros ops app Hnum.
  assert (Hadd : forall a, numbered (speakerTracks a) ->
                           numbered (speakerTracks (addSpeaker a))).
  { intros a Ha. unfold addSpeaker. cbn [with_live speakerTracks].
    now apply push_numbered. }
  assert (H : numbered (speakerTracks (fold_left run_roster_op ops app))).
  { revert app Hnum. induction ops as [|op ops IH]; intros app Hnum;
      cbn [fold_left]; [exact Hnum|].
    apply IH. destruct op as [|k]; cbn [run_roster_op].
    - now apply Hadd.
    - unfold removeSpeaker.
      destruct (existsb _ _); [|exact Hnum].
      cbn [with_live speakerTracks]. apply renumber_numbered. }
  split; [exact H|]. split; [now apply numbered_NoDup|].
  split; [unfold createDefaultSpeakers; auto|].
  unfold createDefaultSpeakers, addSpeaker. cbn [with_live speakerTracks].
  rewrite !length_push. lia.
Qed.

(** X9, witness: the three default tracks, one more, and the second
    removed. *)
Lemma roster_numbered_witness :
  let app' :=
    fold_left run_roster_op [AddSpeaker; RemoveSpeaker 2] sample_app in
  numbered (speakerTracks app') /\
  NoDup (map speakerNum (speakerTracks app')) /\
  numbered (speakerTracks (createDefaultSpeakers sample_app)) /\
  JS.length (speakerTracks (createDefaultSpeakers sample_app))
  = (JS.length (speakerTracks sample_app) + 3)%Z.
Proof.
  apply (roster_numbered [AddSpeaker; RemoveSpeaker 2] sample_app).
  reflexivity.
Defined.

(** X10: [removeSpeaker] of a number no track carries changes nothing.
    On tracks numbered 1 to n, [removeSpeaker(k)] with a track numbered
    [k] leaves n - 1 tracks, numbered 1 to n - 1 and all with their
    default name; it removes the segments of speaker [k] and keeps the
    others as they are, speaker number included: a segment of speaker n
    (with [k <> n]) stays and names a speaker that no track carries any
    more. *)
Theorem removeSpeaker_keeps_segment_numbers :
  forall (app : App) (k : Z),
    (~ In k (map speakerNum (speakerTracks app)) -> removeSpeaker k app = app) /\
    (numbered (speakerTracks app) ->
     In k (map speakerNum (speakerTracks app)) ->
     let app' := removeSpeaker k app in
     JS.length (speakerTracks app') = (JS.length (speakerTracks app) - 1)%Z /\
     numbered (speakerTracks app') /\
     Forall default_named (speakerTracks app') /\
     segments app' = filter (fun s => negb (speaker s =? k)%Z) (segments app) /\
     forall s, In s (segments app) ->
               speaker s = JS.length (speakerTracks app) ->
               speaker s <> k ->
               In s (segments app') /\
               ~ In (speaker s) (map speakerNum (speakerTracks app'))).
Proof.
  intros app k. split.
  - intros Hnot. unfold removeSpeaker.
    destruct (existsb _ _) eqn:E; [|reflexivity].
    apply existsb_track in E. contradiction.
  - intros Hnum Hin app'. unfold app', removeSpeaker.
    rewrite (proj2 (existsb_track k (speakerTracks app)) Hin).
    cbn [with_live speakerTracks segments].
    pose proof (remove_track_length k (speakerTracks app) Hin) as Hlen.
    assert (Hlen' : JS.length (renumber (remove_track k (speakerTracks app)))
                    = (JS.length (speakerTracks app) - 1)%Z).
    { unfold JS.length. rewrite renumber_length, Hlen. lia. }
    split; [exact Hlen'|]. split; [apply renumber_numbered|].
    split.
    { unfold renumber. apply Forall_map. apply Forall_forall. intros idx _.
      reflexivity. }
    split; [reflexivity|].
    intros s Hs Hn Hk. split.
    + apply filter_In. split; [exact Hs|].
      apply negb_true_iff. now apply Z.eqb_neq.
    + rewrite (numbered_in _ _ (renumber_numbered _)), Hlen'. lia.
Qed.

(** X10, witness: no track of [named_app] is numbered 7; and the second
    of its three tracks is removed: the segment of speaker 3 stays, and no
    track is numbered 3. *)
Lemma removeSpeaker_keeps_segment_numbers_witness :
  removeSpeaker 7 named_app = named_app /\
  let app' := removeSpeaker 2 named_app in
  JS.length (speakerTracks app') = (JS.length (speakerTracks named_app) - 1)%Z /\
  numbered (speakerTracks app') /\
  Forall default_named (speakerTracks app') /\
  segments app' = filter (fun s => negb (speaker s =? 2)%Z) (segments named_app) /\
  forall s, In s (segments named_app) ->
            speaker s = JS.length (speakerTracks named_app) ->
            speaker s <> 2%Z ->
            In s (segments app') /\
            ~ In (speaker s) (map speakerNum (speakerTracks app')).
Proof.
  split.
  - apply (proj1 (removeSpeaker_keeps_segment_numbers named_app 7)).
    cbn. intuition discriminate.
  - apply (proj2 (removeSpeaker_keeps_segment_numbers named_app 2)).
    + reflexivity.
    + cbn. auto.
Defined.

(* ================================================================== *)
(** * Deleting the selected segment *)
(* ================================================================== *)

(** The live state after an [undo] that finds the state [state] on top of
    the undo stack. *)
Lemma undo_live now app state rest :
  JS.pop (undoStack app) = Some (state, rest) ->
  NoDup (map saved_num (state_speakers state)) ->
  map speakerNum (speakerTracks app) = map saved_num (state_speakers state) ->
  live_state (undo now app) = (state_segments state, state_speakers state).
Proof.
  intros Hpop Hnodup Hnums. unfold undo. rewrite Hpop.
  destruct (redraw_raises state);
    [|change (live_state (showToast ?m ?t ?a)) with (live_state a)];
    apply restoreState_live; [exact Hnodup | exact Hnums | exact Hnodup | exact Hnums].
Qed.

(** X11: without a selection [deleteSegment] does nothing.  With the
    segment [id] selected it records a state, removes every segment that
    carries [id], keeps the other segments and the tracks, and clears the
    selection; when the tracks carry distinct numbers, a following [undo]
    brings back the segments and the speaker names of before. *)
Theorem deleteSegment_undo :
  forall (app : App) (now now' : Z),
    (selectedSegment app = None -> deleteSegment now app = app) /\
    (forall id, selectedSegment app = Some id ->
       let app1 := deleteSegment now app in
       segments app1 = filter (fun s => negb (seg_id s =? id)%string) (segments app) /\
       ~ In id (map seg_id (segments app1)) /\
       selectedSegment app1 = None /\
       speakerTracks app1 = speakerTracks app /\
       (NoDup (map speakerNum (speakerTracks app)) ->
        live_state (undo now' app1) = live_state app)).
Proof.
  intros app now now'. split.
  - intros Hsel. unfold deleteSegment. now rewrite Hsel.
  - intros id Hsel app1. unfold app1, deleteSegment. rewrite Hsel.
    cbn [showToast closeEditor with_live saveState with_stacks segments
         selectedSegment speakerTracks].
    split; [reflexivity|]. split.
    { rewrite in_map_iff. intros (s & Hid & Hs). apply filter_In in Hs.
      destruct Hs as [_ Hs]. apply negb_true_iff in Hs.
      apply String.eqb_neq in Hs. contradiction. }
    split; [reflexivity|]. split; [reflexivity|].
    intros Hnodup.
    destruct (pop_saveState "delete segment" now app) as [rest Hpop].
    rewrite (undo_live now' _ (current_state "delete segment" now app) rest).
    + reflexivity.
    + exact Hpop.
    + cbn [current_state state_speakers]. now rewrite saved_nums.
    + cbn [current_state state_speakers speakerTracks]. now rewrite saved_nums.
Qed.

(** X11, witness: nothing is selected in [sample_app]; the segment
    [seg_0] of [named_app] is deleted and the deletion undone. *)
Lemma deleteSegment_undo_witness :
  deleteSegment 0 sample_app = sample_app /\
  let app1 := deleteSegment 0 named_app in
  segments app1
  = filter (fun s => negb (seg_id s =? "seg_0")%string) (segments named_app) /\
  ~ In "seg_0"%string (map seg_id (segments app1)) /\
  selectedSegment app1 = None /\
  speakerTracks app1 = speakerTracks named_app /\
  live_state (undo 1 app1) = live_state named_app.
Proof.
  split.
  - apply (proj1 (deleteSegment_undo sample_app 0 1)). reflexivity.
  - destruct (proj2 (deleteSegment_undo named_app 0 1) "seg_0"%string eq_refl)
      as (H1 & H2 & H3 & H4 & H5).
    split; [exact H1|]. split; [exact H2|]. split; [exact H3|].
    split; [exact H4|]. apply H5.
    cbn. repeat constructor; cbn; intuition discriminate.
Defined.

(* ================================================================== *)
(** * Automatic segmentation and the history *)
(* ================================================================== *)

(** Without audio the four strategies of the form fail. *)
Lemma run_strategy_without_audio strategy params :
  named_strategy strategy ->
  exists e, result (run_strategy strategy None params) = Throws e.
Proof.
  intros [-> | [-> | [-> | ->]]]; eexists; reflexivity.
Qed.

(** X12: a call of [autoSegment] that comes to its end, with or without
    an error of the strategy, has recorded the state of before and
    emptied the redo stack; it keeps the tracks, and, when these carry
    distinct numbers, a following [undo] brings back the segments and the
    speaker names of before.  Without audio, each of the four strategies
    of the form ends on the toast "Segmentation error" with no segment
    created, the state recorded all the same. *)
Theorem autoSegment_undo :
  forall (strategy : string) (inputs : FormInputs) (now now' : Z)
         (ids : Z -> string) (app app' : App),
    result (autoSegment strategy inputs now ids app) = Returns app' ->
    redoStack app' = [] /\
    speakerTracks app' = speakerTracks app /\
    (NoDup (map speakerNum (speakerTracks app)) ->
     live_state (undo now' app') = live_state app) /\
    (audioBuffer app = None -> named_strategy strategy ->
     app' = showToast "Segmentation error" "danger"
              (saveState "auto-segmentation" now app)).
Proof.
  intros strategy inputs now now' ids app app' H.
  set (app1 := saveState "auto-segmentation" now app).
  assert (Hshape : exists a msg type,
            app' = showToast msg type a /\
            undoStack a = undoStack app1 /\ redoStack a = redoStack app1 /\
            speakerTracks a = speakerTracks app).
  { unfold autoSegment in H. fold app1 in H.
    rewrite runAutoSegmentation_result in H.
    destruct (result (run_strategy strategy (audioBuffer app1) (params_of inputs)))
      as [segs|e|]; cbn in H.
    - injection H as <-. eexists. eexists. eexists. split; [reflexivity|].
      destruct (create_all_rest ids segs app1) as (Ht & _ & Hu & Hr).
      rewrite Hu, Hr, Ht. auto.
    - injection H as <-. eexists. eexists. eexists. split; [reflexivity|]. auto.
    - discriminate. }
  destruct Hshape as (a & msg & type & Happ & Hu & Hr & Ht).
  split; [rewrite Happ; cbn [showToast redoStack]; rewrite Hr; reflexivity|].
  split; [rewrite Happ; exact Ht|]. split.
  - intros Hnodup. rewrite Happ.
    destruct (pop_saveState "auto-segmentation" now app) as [rest Hpop].
    rewrite (undo_live now' _ (current_state "auto-segmentation" now app) rest).
    + reflexivity.
    + cbn [showToast undoStack]. rewrite Hu. exact Hpop.
    + cbn [current_state state_speakers]. now rewrite saved_nums.
    + cbn [current_state state_speakers showToast speakerTracks].
      now rewrite saved_nums, Ht.
  - intros Hnone Hnamed. unfold autoSegment in H. fold app1 in H.
    rewrite runAutoSegmentation_result in H.
    change (audioBuffer app1) with (audioBuffer app) in H. rewrite Hnone in H.
    destruct (run_strategy_without_audio strategy (params_of inputs) Hnamed)
      as [e He].
    rewrite He in H. cbn in H. now injection H as <-.
Qed.

(** X12, witness: the strategy ['silence'] with the audio of
    [loaded_app], and without audio in [sample_app]. *)
Lemma autoSegment_undo_witness :
  (exists app',
     result (autoSegment "silence" sample_inputs 0 sample_ids loaded_app)
     = Returns app' /\
     redoStack app' = [] /\
     speakerTracks app' = speakerTracks loaded_app /\
     live_state (undo 1 app') = live_state loaded_app) /\
  result (autoSegment "silence" sample_inputs 0 sample_ids sample_app)
  = Returns (showToast "Segmentation error" "danger"
               (saveState "auto-segmentation" 0 sample_app)).
Proof.
  split.
  - eexists. split; [vm_compute; reflexivity|].
    destruct (autoSegment_undo "silence" sample_inputs 0 1 sample_ids loaded_app
                _ eq_refl) as (H1 & H2 & H3 & _).
    split; [exact H1|]. split; [exact H2|]. apply H3.
    cbn. repeat constructor; cbn; intuition discriminate.
  - assert (H : exists app',
               result (autoSegment "silence" sample_inputs 0 sample_ids sample_app)
               = Returns app') by (eexists; vm_compute; reflexivity).
    destruct H as [app' H]. rewrite H. f_equal.
    apply (autoSegment_undo "silence" sample_inputs 0 1 sample_ids sample_app
             app' H); [reflexivity | left; reflexivity].
Defined.

(* ================================================================== *)
(** * Saving a project and importing it *)
(* ================================================================== *)

Lemma map_snd_indexed {A B : Type} (f : A -> B) (l : list A) :
  map (fun '(k, x) => f x) (indexed l) = map f l.
Proof.
  unfold indexed, indices, JS.length. rewrite Nat2Z.id.
  generalize 0%nat as from.
  induction l as [|x l IH]; intros from; cbn; [reflexivity|].
  now rewrite IH.
Qed.

Lemma map_fst_indexed {A B : Type} (f : Z -> B) (l : list A) :
  map (fun '(k, x) => f k) (indexed l) = map f (indices (JS.length l)).
Proof.
  unfold indexed, indices, JS.length. rewrite Nat2Z.id.
  generalize 0%nat as from.
  induction l as [|x l IH]; intros from; cbn; [reflexivity|].
  now rewrite IH.
Qed.

(** A speaker number from 1 on has a colour. *)
Lemma colourless_valid (n : Z) : (1 <= n)%Z -> colourless n = false.
Proof.
  intros Hn. unfold colourless.
  destruct (colorOf_defined n Hn) as (c & -> & _). reflexivity.
Qed.

(** The tracks of a project whose speakers are numbered from 1 on. *)
Lemma import_tracks_valid speakers : forall tracks,
  Forall (fun spk => (1 <= saved_num spk)%Z) speakers ->
  import_tracks speakers tracks =
  (tracks ++ map (fun spk => {| speakerNum := saved_num spk;
                                name := saved_name spk |}) speakers,
   false).
Proof.
  induction speakers as [|saved rest IH]; intros tracks Hall;
    cbn [import_tracks map].
  - now rewrite app_nil_r.
  - inversion Hall as [|? ? Hspk Hrest]; subst.
    rewrite (colourless_valid _ Hspk), IH by exact Hrest.
    unfold JS.push. now rewrite <- app_assoc.
Qed.

(** The segments and the tracks after the loop of [importProject], for
    segments whose speakers are numbered from 1 on. *)
Lemma import_segments_valid (ids : Z -> string)
    (l : list (Z * ProjectSegment)) :
  forall app : App,
    Forall (fun item => (1 <= project_speaker (snd item))%Z) l ->
    exists app',
      import_segments ids l app = (app', false) /\
      segments app'
      = segments app
        ++ map (fun '(k, seg) =>
                  {| seg_id := ids k; start := project_start seg;
                     end_ := project_end seg; speaker := project_speaker seg;
                     transcription := project_transcription seg;
                     color := colorOf (project_speaker seg) |}) l /\
      speakerTracks app' = speakerTracks app.
Proof.
  induction l as [|[k seg] l IH]; intros app Hall; cbn [import_segments map].
  - exists app. now rewrite app_nil_r.
  - inversion Hall as [|? ? Hseg Hrest]; subst. cbn [snd] in Hseg.
    rewrite (colourless_valid _ Hseg).
    destruct (IH (createSegment (ids k) (project_start seg) (project_end seg)
                    (project_speaker seg) (project_transcription seg) app)
                 Hrest)
      as (app' & Hrun & Hsegs & Htracks).
    exists app'. split; [exact Hrun|]. rewrite Hsegs, Htracks.
    unfold createSegment. cbn [with_live segments speakerTracks].
    unfold JS.push. now rewrite <- app_assoc.
Qed.

(** X13: let the tracks and the segments of an application carry speaker
    numbers from 1 on.  Importing the project that [saveProject] writes
    for it, into any application, gives back the segments saved, in
    order, with the same start, end, speaker and transcription, under the
    fresh identifiers and each with the colour of its speaker; the tracks
    carry the saved numbers and names when the saved roster is not empty
    (saving again then writes the same speakers and segments), and are
    those of the importing application when it is empty. *)
Theorem saveProject_importProject :
  forall (app other : App) (now : Z) (ids : Z -> string),
    Forall (fun t => (1 <= speakerNum t)%Z) (speakerTracks app) ->
    Forall (fun s => (1 <= speaker s)%Z) (segments app) ->
    let app' := importProject (saveProject app) now ids other in
    project_segments (saveProject app') = project_segments (saveProject app) /\
    map seg_id (segments app') = map ids (indices (JS.length (segments app))) /\
    Forall coloured (segments app') /\
    (speakerTracks app <> [] -> saveProject app' = saveProject app) /\
    (speakerTracks app = [] -> speakerTracks app' = speakerTracks other).
Proof.
  intros app other now ids Htracks Hvalid app'.
  set (l := indexed (project_segments (saveProject app))).
  set (app1 := saveState "before import" now other).
  set (tracks :=
         if (0 <? JS.length (project_speakers (saveProject app)))%Z
         then map (fun spk => {| speakerNum := saved_num spk;
                                 name := saved_name spk |})
                  (project_speakers (saveProject app))
         else speakerTracks app1).
  assert (Hl : Forall (fun item => (1 <= project_speaker (snd item))%Z) l).
  { apply Forall_forall. intros [k seg] Hin. unfold l, indexed in Hin.
    apply in_combine_r in Hin. unfold saveProject in Hin.
    cbn [project_segments] in Hin. apply in_map_iff in Hin.
    destruct Hin as (s & <- & Hs). rewrite Forall_forall in Hvalid.
    exact (Hvalid s Hs). }
  destruct (import_segments_valid ids l
              (with_live tracks [] (selectedSegment app1) app1) Hl)
    as (app3 & Hrun & Hsegs & Htr).
  cbn [with_live segments speakerTracks app_nil_l] in Hsegs, Htr.
  assert (Happ : app' =
            showToast
              ("Project imported: "
               ++ numeral (JS.length (project_segments (saveProject app)))
               ++ " segments")%string
              "success"%string app3).
  { unfold app', importProject. fold app1.
    destruct (0 <? JS.length (project_speakers (saveProject app)))%Z eqn:E.
    - rewrite import_tracks_valid.
      + rewrite app_nil_l. fold l. unfold tracks in Hrun. rewrite Hrun.
        reflexivity.
      + unfold saveProject. cbn [project_speakers].
        apply Forall_map. eapply Forall_impl; [|exact Htracks].
        intros t Ht. exact Ht.
    - fold l. unfold tracks in Hrun. rewrite Hrun. reflexivity. }
  assert (Hsegs' : segments app' =
            map (fun '(k, seg) =>
                   {| seg_id := ids k; start := project_start seg;
                      end_ := project_end seg; speaker := project_speaker seg;
                      transcription := project_transcription seg;
                      color := colorOf (project_speaker seg) |}) l)
    by (rewrite Happ; exact Hsegs).
  assert (Htracks' : speakerTracks app' = tracks)
    by (rewrite Happ; exact Htr).
  assert (Hproj : project_segments (saveProject app')
                  = project_segments (saveProject app)).
  { unfold saveProject at 1. cbn [project_segments]. rewrite Hsegs'.
    rewrite map_map. unfold l.
    rewrite <- (map_id (project_segments (saveProject app))) at 2.
    rewrite <- (map_snd_indexed (fun x => x)).
    apply map_ext. intros [k [s e n t]]. reflexivity. }
  split; [exact Hproj|]. split.
  { rewrite Hsegs', map_map. unfold l.
    rewrite (map_ext _ (fun '(k, _) => ids k)) by (intros [k seg]; reflexivity).
    rewrite map_fst_indexed. unfold saveProject. cbn [project_segments].
    unfold JS.length. now rewrite length_map. }
  split.
  { rewrite Hsegs'. apply Forall_map. apply Forall_forall.
    intros [k seg] Hin. rewrite Forall_forall in Hl.
    specialize (Hl _ Hin). cbn [snd] in Hl.
    unfold coloured. cbn. split; [reflexivity|]. now apply colorOf_defined. }
  split.
  - intros Hne. unfold saveProject at 1. rewrite Htracks'.
    fold (project_segments (saveProject app')) in Hproj.
    change (map _ (segments app')) with (project_segments (saveProject app')).
    rewrite Hproj. unfold tracks.
    replace (0 <? JS.length (project_speakers (saveProject app)))%Z with true.
    + unfold saveProject. cbn [project_speakers project_segments].
      f_equal. rewrite !map_map. apply map_ext. intros [n nm]. reflexivity.
    + symmetry. apply Z.ltb_lt. unfold saveProject. cbn [project_speakers].
      destruct (speakerTracks app); [congruence|].
      unfold JS.length. cbn [map length]. lia.
  - intros Hnil. rewrite Htracks'. unfold tracks.
    unfold saveProject. cbn [project_speakers]. rewrite Hnil. reflexivity.
Qed.

(** X13, witness: the project of [named_app] imported into
    [sample_app]. *)
Lemma saveProject_importProject_witness :
  let app' := importProject (saveProject named_app) 0 sample_ids sample_app in
  project_segments (saveProject app') = project_segments (saveProject named_app) /\
  map seg_id (segments app')
  = map sample_ids (indices (JS.length (segments named_app))) /\
  Forall coloured (segments app') /\
  saveProject app' = saveProject named_app.
Proof.
  destruct (saveProject_importProject named_app sample_app 0 sample_ids)
    as (H1 & H2 & H3 & H4 & _).
  - cbn. repeat constructor; cbn; lia.
  - cbn. repeat constructor; cbn; lia.
  - split; [exact H1|]. split; [exact H2|]. split; [exact H3|].
    apply H4. discriminate.
Defined.

(** Without the condition on the numbers the import stops on its error.
    A project whose speaker is numbered 0 leaves the application without
    track, its segments as they were; a project whose segment is of
    speaker 0 leaves that segment, without colour, in the application.
    Both end on the toast "Error: invalid file". *)
Lemma importProject_stops_on_error :
  (let app' := importProject colourless_speaker_project 0 sample_ids named_app in
   speakerTracks app' = [] /\
   segments app' = segments named_app /\
   toasts app' = [("Error: invalid file", "danger")]%string) /\
  (let app' := importProject colourless_segment_project 0 sample_ids named_app in
   speakerTracks app' = speakerTracks named_app /\
   map color (segments app') = [None] /\
   toasts app' = [("Error: invalid file", "danger")]%string).
Proof. vm_compute. repeat split. Qed.

(* ================================================================== *)
(** * Sorting the segments by start: [exportCSV] and the navigation *)
(* ================================================================== *)

Lemma insert_by_start_perm s l : Permutation (insert_by_start s l) (s :: l).
Proof.
  induction l as [|t rest IH]; cbn [insert_by_start]; [reflexivity|].
  destruct (Qle_bool (start s) (start t)); [reflexivity|].
  rewrite IH. apply perm_swap.
Qed.

Lemma sort_by_start_perm l : Permutation (sort_by_start l) l.
Proof.
  induction l as [|s l IH]; cbn [sort_by_start fold_right]; [reflexivity|].
  rewrite insert_by_start_perm. now apply perm_skip.
Qed.

Lemma insert_by_start_sorted s l :
  StronglySorted starts_before l ->
  StronglySorted starts_before (insert_by_start s l).
Proof.
  induction l as [|t rest IH]; intros Hl; cbn [insert_by_start].
  - constructor; constructor.
  - inversion Hl as [|? ? Hrest Hall]; subst.
    destruct (Qle_bool (start s) (start t)) eqn:E.
    + apply Qle_bool_iff in E. constructor; [exact Hl|].
      constructor; [exact E|].
      eapply Forall_impl; [|exact Hall].
      intros u Hu. unfold starts_before in *. lra.
    + assert (Hts : start t <= start s).
      { apply Qlt_le_weak. apply Qnot_le_lt. intros H.
        apply Qle_bool_iff in H. congruence. }
      constructor; [now apply IH|].
      rewrite (insert_by_start_perm s rest). constructor; assumption.
Qed.

Lemma sort_by_start_sorted l : StronglySorted starts_before (sort_by_start l).
Proof.
  induction l as [|s l IH]; cbn [sort_by_start fold_right]; [constructor|].
  now apply insert_by_start_sorted.
Qed.

(** Segments in the order of their starts are left as they are. *)
Lemma sort_by_start_fixed l :
  StronglySorted starts_before l -> sort_by_start l = l.
Proof.
  induction l as [|s l IH]; intros Hl; cbn [sort_by_start fold_right];
    [reflexivity|].
  inversion Hl as [|? ? Hrest Hall]; subst.
  fold (sort_by_start l). rewrite IH by exact Hrest.
  destruct l as [|t rest]; cbn [insert_by_start]; [reflexivity|].
  inversion Hall as [|? ? Hst _]; subst.
  apply Qle_bool_iff in Hst. now rewrite Hst.
Qed.

(** X14: [exportCSV] reorders the live segments: after the export they
    are the same segments, in the order of their starts, and nothing else
    of the application has changed; segments that were in that order
    already are left exactly as they were. *)
Theorem exportCSV_sorts_segments :
  forall (toFixed3 : Q -> string) (app : App),
    let app' := snd (exportCSV toFixed3 app) in
    Permutation (segments app') (segments app) /\
    StronglySorted starts_before (segments app') /\
    speakerTracks app' = speakerTracks app /\
    selectedSegment app' = selectedSegment app /\
    undoStack app' = undoStack app /\
    redoStack app' = redoStack app /\
    (StronglySorted starts_before (segments app) -> app' = app).
Proof.
  intros toFixed3 app app'. unfold app', exportCSV.
  cbn [snd with_live segments speakerTracks selectedSegment undoStack redoStack].
  split; [apply sort_by_start_perm|].
  split; [apply sort_by_start_sorted|].
  split; [reflexivity|]. split; [reflexivity|].
  split; [reflexivity|]. split; [reflexivity|].
  intros Hsorted. rewrite sort_by_start_fixed by exact Hsorted.
  destruct app. reflexivity.
Qed.

(** X14, witness: [named_app], whose segments are in order, and
    [unsorted_app], whose segments come back in order. *)
Lemma exportCSV_sorts_segments_witness :
  snd (exportCSV sample_toFixed3 named_app) = named_app /\
  segments (snd (exportCSV sample_toFixed3 unsorted_app)) = segments named_app.
Proof.
  split.
  - apply (exportCSV_sorts_segments sample_toFixed3 named_app).
    repeat constructor; unfold starts_before, Qle; simpl; lia.
  - reflexivity.
Defined.

Lemma findIndex_from_nth {A : Type} (p : A -> bool) (l : list A) :
  forall (i : nat) (k : Z) (x : A),
    nth_error l i = Some x -> p x = true ->
    (forall j y, (j < i)%nat -> nth_error l j = Some y -> p y = false) ->
    findIndex_from p l k = (k + Z.of_nat i)%Z.
Proof.
  induction l as [|a l IH]; intros [|i] k x Hx Hp Hbefore;
    cbn [nth_error] in Hx; try discriminate; cbn [findIndex_from].
  - injection Hx as ->. rewrite Hp. lia.
  - rewrite (Hbefore 0%nat a) by (try lia; reflexivity).
    rewrite (IH i (k + 1)%Z x Hx Hp); [lia|].
    intros j y Hj Hy. apply (Hbefore (S j) y); [lia | exact Hy].
Qed.

Lemma findIndex_from_none {A : Type} (p : A -> bool) (l : list A) :
  forall k, (forall x, In x l -> p x = false) ->
            findIndex_from p l k = (-1)%Z.
Proof.
  induction l as [|a l IH]; intros k Hall; cbn [findIndex_from]; [reflexivity|].
  rewrite (Hall a) by now left. apply IH. intros x Hx. apply Hall. now right.
Qed.

(** With distinct identifiers, the index of a segment is the one
    [findIndex] returns for its identifier. *)
Lemma findIndex_id (l : list Segment) (i : nat) (s : Segment) :
  NoDup (map seg_id l) ->
  nth_error l i = Some s ->
  findIndex (fun x => (seg_id x =? seg_id s)%string) l = Z.of_nat i.
Proof.
  intros Hnodup Hs. unfold findIndex.
  rewrite (findIndex_from_nth _ l i 0 s Hs (String.eqb_refl _)); [lia|].
  intros j y Hj Hy. apply String.eqb_neq. intros Heq.
  assert (Hlen : (j < length (map seg_id l))%nat).
  { rewrite length_map. apply nth_error_Some. congruence. }
  pose proof (proj1 (NoDup_nth_error (map seg_id l)) Hnodup j i Hlen) as Hij.
  rewrite !nth_error_map, Hy, Hs in Hij. cbn in Hij.
  rewrite Heq in Hij. specialize (Hij eq_refl). lia.
Qed.

Lemma sorted_nth {A : Type} (R : A -> A -> Prop) (l : list A) :
  StronglySorted R l ->
  forall i j x y, (i < j)%nat ->
    nth_error l i = Some x -> nth_error l j = Some y -> R x y.
Proof.
  induction 1 as [|a l Hl IH Hall]; intros i j x y Hij Hx Hy.
  - destruct i; discriminate.
  - destruct j as [|j]; [lia|]. cbn [nth_error] in Hy.
    destruct i as [|i]; cbn [nth_error] in Hx.
    + injection Hx as <-. rewrite Forall_forall in Hall. apply Hall.
      eapply nth_error_In. exact Hy.
    + apply (IH i j); [lia | exact Hx | exact Hy].
Qed.

Lemma index_of_nat {A : Type} (l : list A) (i : nat) :
  JS.index l (Z.of_nat i) = nth_error l i.
Proof.
  unfold JS.index.
  replace (Z.of_nat i <? 0)%Z with false by (symmetry; apply Z.ltb_ge; lia).
  now rewrite Nat2Z.id.
Qed.

(** X15: let the identifiers of the segments be distinct and the
    selected segment be at index [i] of the segments in the order of
    their starts.  If a segment follows at index [i + 1],
    [goToNextSegment] selects it, it starts no earlier than the selected
    one, and [goToPreviousSegment] then selects the first one again; if
    none follows, [goToNextSegment] changes nothing.  A selection that no
    segment carries any more makes [goToNextSegment] select the first
    segment in the order of the starts, and [goToPreviousSegment] do
    nothing. *)
Theorem navigation_next_previous :
  forall (app : App) (id : string),
    selectedSegment app = Some id ->
    let sorted := sort_by_start (segments app) in
    (NoDup (map seg_id (segments app)) ->
     forall i cur, nth_error sorted i = Some cur -> seg_id cur = id ->
       match nth_error sorted (S i) with
       | Some following =>
           selectedSegment (goToNextSegment app) = Some (seg_id following) /\
           segments (goToNextSegment app) = segments app /\
           start cur <= start following /\
           selectedSegment (goToPreviousSegment (goToNextSegment app)) = Some id
       | None => goToNextSegment app = app
       end) /\
    (~ In id (map seg_id (segments app)) ->
     goToPreviousSegment app = app /\
     match sorted with
     | first :: _ =>
         selectedSegment (goToNextSegment app) = Some (seg_id first) /\
         Forall (starts_before first) (segments app)
     | [] => goToNextSegment app = app
     end).
Proof.
  intros app id Hsel sorted. split.
  - intros Hnodup i cur Hcur Hid.
    assert (Hnodup' : NoDup (map seg_id sorted)).
    { eapply Permutation_NoDup; [|exact Hnodup].
      apply Permutation_map. symmetry. apply sort_by_start_perm. }
    pose proof (findIndex_id sorted i cur Hnodup' Hcur) as Hidx.
    rewrite Hid in Hidx.
    destruct (nth_error sorted (S i)) as [following|] eqn:Hnext.
    + assert (Hlen : (S i < length sorted)%nat).
      { apply nth_error_Some. congruence. }
      assert (Hgo : goToNextSegment app = selectSegment following app).
      { unfold goToNextSegment. rewrite Hsel. fold sorted. rewrite Hidx.
        replace (Z.of_nat i <? JS.length sorted - 1)%Z with true
          by (symmetry; apply Z.ltb_lt; unfold JS.length; lia).
        replace (Z.of_nat i + 1)%Z with (Z.of_nat (S i)) by lia.
        now rewrite index_of_nat, Hnext. }
      rewrite Hgo. cbn [selectSegment with_live selectedSegment segments].
      split; [reflexivity|]. split; [reflexivity|]. split.
      { apply (sorted_nth starts_before sorted (sort_by_start_sorted _)
                 i (S i)); [lia | exact Hcur | exact Hnext]. }
      unfold goToPreviousSegment.
      cbn [selectSegment with_live selectedSegment segments]. fold sorted.
      rewrite (findIndex_id sorted (S i) following Hnodup' Hnext).
      replace (0 <? Z.of_nat (S i))%Z with true by (symmetry; apply Z.ltb_lt; lia).
      replace (Z.of_nat (S i) - 1)%Z with (Z.of_nat i) by lia.
      rewrite index_of_nat, Hcur.
      cbn [selectSegment with_live selectedSegment]. now rewrite Hid.
    + unfold goToNextSegment. rewrite Hsel. fold sorted. rewrite Hidx.
      apply nth_error_None in Hnext.
      replace (Z.of_nat i <? JS.length sorted - 1)%Z with false
        by (symmetry; apply Z.ltb_ge; unfold JS.length; lia).
      reflexivity.
  - intros Hstale.
    assert (Hidx : findIndex (fun s => (seg_id s =? id)%string) sorted = (-1)%Z).
    { apply findIndex_from_none. intros s Hs. apply String.eqb_neq.
      intros Heq. apply Hstale. apply in_map_iff. exists s. split; [exact Heq|].
      eapply Permutation_in; [apply sort_by_start_perm | exact Hs]. }
    split.
    + unfold goToPreviousSegment. rewrite Hsel. fold sorted. now rewrite Hidx.
    + unfold goToNextSegment. rewrite Hsel. fold sorted. rewrite Hidx.
      pose proof (sort_by_start_sorted (segments app)) as Hsorted.
      pose proof (sort_by_start_perm (segments app)) as Hperm.
      fold sorted in Hsorted, Hperm.
      destruct sorted as [|first rest]; [reflexivity|].
      replace (-1 <? JS.length (first :: rest) - 1)%Z with true
        by (symmetry; apply Z.ltb_lt; unfold JS.length; cbn [length]; lia).
      cbn [JS.index Z.add Z.ltb Z.compare Z.to_nat nth_error].
      split; [reflexivity|].
      inversion Hsorted as [|? ? _ Hall]; subst.
      apply Forall_forall. intros s Hs.
      apply (Permutation_in _ (Permutation_sym Hperm)) in Hs.
      destruct Hs as [<- | Hs]; [unfold starts_before; lra|].
      rewrite Forall_forall in Hall. now apply Hall.
Qed.

(** X15, witness: from [seg_0], the first of the two segments of
    [named_app], to [seg_1] and back; and the selection [seg_9], which no
    segment carries. *)
Lemma navigation_next_previous_witness :
  (selectedSegment (goToNextSegment named_app) = Some "seg_1"%string /\
   selectedSegment (goToPreviousSegment (goToNextSegment named_app))
   = Some "seg_0"%string) /\
  goToPreviousSegment stale_app = stale_app /\
  selectedSegment (goToNextSegment stale_app) = Some "seg_0"%string.
Proof.
  split.
  - destruct (navigation_next_previous named_app "seg_0"%string eq_refl)
      as [Hnext _].
    assert (Hnodup : NoDup (map seg_id (segments named_app))).
    { cbn. repeat constructor; cbn; intuition discriminate. }
    specialize (Hnext Hnodup 0%nat sample_segment eq_refl eq_refl).
    cbn in Hnext. destruct Hnext as (H1 & _ & _ & H2).
    split; [exact H1 | exact H2].
  - destruct (navigation_next_previous stale_app "seg_9"%string eq_refl)
      as [_ Hstale].
    assert (Hnot : ~ In "seg_9"%string (map seg_id (segments stale_app))).
    { cbn. intuition discriminate. }
    destruct (Hstale Hnot) as [Hprev Hfirst]. split; [exact Hprev|].
    cbn in Hfirst. exact (proj1 Hfirst).
Defined.

(* ================================================================== *)
(** * Escaping for XML *)
(* ================================================================== *)

Lemma string_app_assoc (a b c : string) :
  ((a ++ b) ++ c)%string = (a ++ (b ++ c))%string.
Proof. induction a as [|x a IH]; cbn; [reflexivity | now rewrite IH]. Qed.

Lemma replace_all_app c by_ (a b : string) :
  replace_all c by_ (a ++ b)%string
  = (replace_all c by_ a ++ replace_all c by_ b)%string.
Proof.
  induction a as [|x a IH]; cbn [append replace_all]; [reflexivity|].
  rewrite IH. destruct (Ascii.eqb x c); [|reflexivity].
  now rewrite string_app_assoc.
Qed.

Lemma occurs_app c (a b : string) :
  occurs c (a ++ b)%string <-> occurs c a \/ occurs c b.
Proof.
  unfold occurs. induction a as [|x a IH]; cbn; [tauto|].
  rewrite IH. tauto.
Qed.

(** The five replacements in a row escape every character once. *)
Lemma escapeXml_chars text : escapeXml text = escape_chars text.
Proof.
  unfold escapeXml. induction text as [|x text IH]; [reflexivity|].
  cbn [escape_chars]. rewrite <- IH. unfold escape_char.
  cbn [replace_all].
  destruct (Ascii.eqb x amp) eqn:E1.
  { rewrite !replace_all_app. reflexivity. }
  cbn [replace_all].
  destruct (Ascii.eqb x lt_sign) eqn:E2.
  { rewrite !replace_all_app. reflexivity. }
  cbn [replace_all].
  destruct (Ascii.eqb x gt_sign) eqn:E3.
  { rewrite !replace_all_app. reflexivity. }
  cbn [replace_all].
  destruct (Ascii.eqb x quote) eqn:E4.
  { rewrite !replace_all_app. reflexivity. }
  cbn [replace_all].
  destruct (Ascii.eqb x apos) eqn:E5; reflexivity.
Qed.

(** X16: [escapeXml] escapes every character exactly once: the five
    replacements in a row give the text in which each of [&], [<], [>],
    the double quote and the apostrophe is replaced by its entity and
    every other character is kept, so that an entity is never escaped
    again.  The result holds none of [<], [>], the double quote and the
    apostrophe, and a text without these and without [&] is returned as
    it is. *)
Theorem escapeXml_single_pass :
  forall (text : string),
    escapeXml text = escape_chars text /\
    (forall c, markup c -> ~ occurs c (escapeXml text)) /\
    ((forall c, occurs c text -> c <> amp /\ ~ markup c) ->
     escapeXml text = text).
Proof.
  intros text. split; [apply escapeXml_chars|]. rewrite escapeXml_chars.
  split.
  - intros c Hc. induction text as [|x text IH]; [intros []|].
    cbn [escape_chars]. rewrite occurs_app. intros [Hx | Hrest]; [|now apply IH].
    unfold escape_char in Hx.
    destruct (Ascii.eqb x amp);
      [destruct Hc as [-> | [-> | [-> | ->]]]; cbn in Hx;
       intuition discriminate|].
    destruct (Ascii.eqb x lt_sign) eqn:E2;
      [destruct Hc as [-> | [-> | [-> | ->]]]; cbn in Hx;
       intuition discriminate|].
    destruct (Ascii.eqb x gt_sign) eqn:E3;
      [destruct Hc as [-> | [-> | [-> | ->]]]; cbn in Hx;
       intuition discriminate|].
    destruct (Ascii.eqb x quote) eqn:E4;
      [destruct Hc as [-> | [-> | [-> | ->]]]; cbn in Hx;
       intuition discriminate|].
    destruct (Ascii.eqb x apos) eqn:E5;
      [destruct Hc as [-> | [-> | [-> | ->]]]; cbn in Hx;
       intuition discriminate|].
    cbn in Hx. destruct Hx as [<- | []].
    apply Ascii.eqb_neq in E2, E3, E4, E5. unfold markup in Hc. tauto.
  - induction text as [|x text IH]; intros Hplain; [reflexivity|].
    cbn [escape_chars]. rewrite IH.
    + destruct (Hplain x) as [Hamp Hmark]; [now left|].
      unfold escape_char.
      replace (Ascii.eqb x amp) with false
        by (symmetry; now apply Ascii.eqb_neq).
      replace (Ascii.eqb x lt_sign) with false
        by (symmetry; apply Ascii.eqb_neq; unfold markup in Hmark; tauto).
      replace (Ascii.eqb x gt_sign) with false
        by (symmetry; apply Ascii.eqb_neq; unfold markup in Hmark; tauto).
      replace (Ascii.eqb x quote) with false
        by (symmetry; apply Ascii.eqb_neq; unfold markup in Hmark; tauto).
      replace (Ascii.eqb x apos) with false
        by (symmetry; apply Ascii.eqb_neq; unfold markup in Hmark; tauto).
      reflexivity.
    + intros c Hc. apply Hplain. now right.
Qed.

(** X16, witness: a text with [<] and [&], and a text without any of the
    five characters. *)
Lemma escapeXml_single_pass_witness :
  escapeXml "a<b&c" = "a&lt;b&amp;c"%string /\
  ~ occurs lt_sign (escapeXml "a<b&c") /\
  escapeXml "abc" = "abc"%string.
Proof.
  split; [reflexivity|]. split.
  - apply (proj1 (proj2 (escapeXml_single_pass "a<b&c"))).
    left. reflexivity.
  - apply (proj2 (proj2 (escapeXml_single_pass "abc"))).
    intros c Hc. cbn in Hc.
    destruct Hc as [<- | [<- | [<- | []]]];
      (split; [discriminate | unfold markup; intuition discriminate]).
Defined.

(* ================================================================== *)
(** * Voice-activity strategy: order of the segments *)
(* ================================================================== *)

Lemma last_in {A : Type} (l : list A) (d : A) : l <> [] -> In (last l d) l.
Proof.
  induction l as [|a l IH]; [congruence|]. intros _.
  destruct l as [|b l]; [now left|].
  right. apply IH. discriminate.
Qed.

(** One turn of the loop over the features keeps the segments in order. *)
Lemma vad_step_ordered lo hi t acc feat :
  vad_ordered lo hi t acc ->
  t < time feat -> lo <= time feat -> time feat < hi ->
  vad_ordered lo hi (time feat) (vad_step acc feat).
Proof.
  intros (Hsorted & Hall & Hopen) Ht Hlo Hhi.
  destruct acc as [[[start feats]|] segs]; cbn [fst snd] in *; unfold vad_step.
  - destruct Hopen as (first & rest & -> & -> & Hfeats & Hbounds & Hends).
    destruct (isVoiced feat).
    + split; [exact Hsorted|]. split; [exact Hall|]. cbn [fst snd].
      exists first, (rest ++ [feat]). split; [reflexivity|].
      split; [reflexivity|]. split.
      { apply (sorted_push earlier (first :: rest) feat Hfeats).
        eapply Forall_impl; [|exact Hbounds].
        intros f (_ & Hf & _). unfold earlier. lra. }
      split; [|exact Hends].
      unfold JS.push. apply Forall_app. split.
      * eapply Forall_impl; [|exact Hbounds]. intros f (H1 & H2 & H3).
        split; [exact H1|]. split; [lra | exact H3].
      * constructor; [|constructor]. split; [exact Hlo|]. split; [lra | exact Hhi].
    + assert (Hfirst : time first <= t).
      { inversion Hbounds as [|? ? (_ & H & _) _]; subst. exact H. }
      assert (Hold : Forall (fun s => p_end s <= time feat) segs).
      { eapply Forall_impl; [|exact Hends]. intros s Hs. cbn beta in Hs. lra. }
      destruct (10 <? JS.length (first :: rest))%Z eqn:E.
      * apply Z.ltb_lt in E.
        assert (Hrest : rest <> []).
        { intros ->. unfold JS.length in E. cbn in E. lia. }
        assert (Hlast : In (last (first :: rest) feat) rest).
        { destruct rest as [|b rest]; [congruence|].
          change (last (first :: b :: rest) feat) with (last (b :: rest) feat).
          now apply last_in. }
        inversion Hfeats as [|? ? _ Hhead]; subst.
        rewrite Forall_forall in Hhead. specialize (Hhead _ Hlast).
        rewrite Forall_forall in Hbounds.
        destruct (Hbounds (last (first :: rest) feat)) as (H1 & H2 & H3);
          [now right|].
        destruct (Hbounds first) as (H4 & _ & _); [now left|].
        unfold earlier in Hhead. cbn [fst snd]. split.
        { apply sorted_push; [exact Hsorted|]. exact Hends. }
        split.
        { unfold JS.push. apply Forall_app. split; [exact Hall|].
          constructor; [|constructor]. cbn [p_start p_end]. auto. }
        unfold JS.push. apply Forall_app. split; [exact Hold|].
        constructor; [|constructor]. cbn [p_end]. lra.
      * cbn [fst snd]. split; [exact Hsorted|]. split; [exact Hall | exact Hold].
  - destruct (isVoiced feat); cbn [fst snd].
    + split; [exact Hsorted|]. split; [exact Hall|].
      exists feat, []. split; [reflexivity|]. split; [reflexivity|].
      split; [repeat constructor|]. split.
      * constructor; [|constructor]. split; [exact Hlo|]. split; [lra | exact Hhi].
      * eapply Forall_impl; [|exact Hopen]. intros s Hs. cbn beta in Hs. lra.
    + split; [exact Hsorted|]. split; [exact Hall|].
      eapply Forall_impl; [|exact Hopen]. intros s Hs. cbn beta in Hs. lra.
Qed.

(** The loop over features taken at increasing times. *)
Lemma vad_fold_ordered lo hi features : forall t acc,
  StronglySorted earlier features ->
  Forall (fun f => t < time f /\ lo <= time f /\ time f < hi) features ->
  vad_ordered lo hi t acc ->
  exists t', vad_ordered lo hi t' (fold_left vad_step features acc).
Proof.
  induction features as [|feat features IH]; intros t acc Hsorted Hall Hacc;
    cbn [fold_left]; [now exists t|].
  inversion Hsorted as [|? ? Hrest Hhead]; subst.
  inversion Hall as [|? ? (Ht & Hlo & Hhi) Hall']; subst.
  apply (IH (time feat)); [exact Hrest| |now apply (vad_step_ordered lo hi t)].
  rewrite Forall_forall in *. intros f Hf.
  destruct (Hall' f Hf) as (_ & H1 & H2). split; [now apply Hhead | auto].
Qed.

(** With a hop of no sample the loop over the frames, once entered, never
    ends. *)
Lemma feature_loop_stuck buf frameSize :
  forall fuel i features,
    (i <? JS.length (channelData buf) - frameSize)%Z = true ->
    result (feature_loop fuel buf frameSize 0 i) <> Returns features.
Proof.
  induction fuel as [|fuel IH]; intros i features Hin; cbn [feature_loop];
    rewrite Hin; [discriminate|].
  rewrite result_bind.
  replace (result (if JS.divisible i 10000 then _ else ret tt))
    with (Returns tt) by (destruct (JS.divisible i 10000); reflexivity).
  rewrite result_bind, Z.add_0_r.
  destruct (result (feature_loop fuel buf frameSize 0 i)) as [rest| |] eqn:E;
    try discriminate.
  exfalso. exact (IH i rest Hin E).
Qed.

(** The frames are taken at increasing times within the buffer. *)
Lemma feature_loop_times buf frameSize hopSize :
  0 < sampleRate buf -> (0 <= hopSize)%Z ->
  forall fuel i features,
    (0 <= i)%Z ->
    result (feature_loop fuel buf frameSize hopSize i) = Returns features ->
    StronglySorted earlier features /\
    Forall (fun f => JS.num i / sampleRate buf <= time f /\
                     time f < JS.num (JS.length (channelData buf) - frameSize)
                              / sampleRate buf) features.
Proof.
  intros Hrate Hhop. induction fuel as [|fuel IH]; intros i features Hi;
    cbn [feature_loop];
    destruct (i <? JS.length (channelData buf) - frameSize)%Z eqn:Hin;
    try (intros H; injection H as <-; split; constructor);
    try discriminate.
  rewrite result_bind.
  replace (result (if JS.divisible i 10000 then _ else ret tt))
    with (Returns tt) by (destruct (JS.divisible i 10000); reflexivity).
  rewrite result_bind.
  destruct (result (feature_loop fuel buf frameSize hopSize (i + hopSize)))
    as [rest| |] eqn:E; try discriminate.
  intros H. injection H as <-.
  assert (Hpos : (1 <= hopSize)%Z).
  { destruct (Z.eq_dec hopSize 0) as [H0|H0]; [|lia]. subst hopSize.
    rewrite Z.add_0_r in E. exfalso.
    exact (feature_loop_stuck buf frameSize fuel i rest Hin E). }
  destruct (IH (i + hopSize)%Z rest) as [Hsorted Hall]; [lia | exact E|].
  pose proof (time_lt (sampleRate buf) i (i + hopSize) Hrate ltac:(lia)) as Hnext.
  apply Z.ltb_lt in Hin.
  pose proof (time_lt (sampleRate buf) i _ Hrate Hin) as Hlast.
  split.
  - constructor; [exact Hsorted|].
    eapply Forall_impl; [|exact Hall]. intros f [Hf _].
    unfold earlier, feature_at. cbn [time]. lra.
  - constructor.
    + unfold feature_at. cbn [time]. split; [lra | exact Hlast].
    + eapply Forall_impl; [|exact Hall]. intros f [Hf Hf']. split; [lra | exact Hf'].
Qed.

(** X17: with a positive sample rate, the segments a run of
    [segmentByVADClustering] returns are in order and do not overlap, each
    ending before the next starts; each starts at 0 or later, ends after
    it starts and ends before the end of the buffer. *)
Theorem segmentByVADClustering_ordered :
  forall (buf : AudioBuffer) (params : Params) (segs : list ProvSegment),
    0 < sampleRate buf ->
    result (segmentByVADClustering (Some buf) params) = Returns segs ->
    StronglySorted precedes segs /\
    Forall (fun s => 0 <= p_start s /\ p_start s < p_end s /\
                     p_end s < JS.num (JS.length (channelData buf))
                               / sampleRate buf)
           segs.
Proof.
  intros buf params segs Hrate H.
  rewrite segmentByVADClustering_result in H.
  destruct (result (vad_features buf)) as [features| |] eqn:E; try discriminate.
  injection H as <-.
  assert (Hrate0 : 0 <= sampleRate buf) by lra.
  pose proof (frame_nonneg (sampleRate buf) Hrate0) as Hframe.
  assert (Hhop : (0 <= JS.Math_floor (sampleRate buf * (10 # 1000)))%Z).
  { change 0%Z with (Qfloor 0). apply Qfloor_resp_le. lra. }
  unfold vad_features in E.
  destruct (feature_loop_times buf _ _ Hrate Hhop _ 0 features ltac:(lia) E)
    as [Hsorted Hall].
  set (hi := JS.num (JS.length (channelData buf)) / sampleRate buf).
  destruct (vad_fold_ordered 0 hi features (-(1)) (None, [])) as [t' Hfinal].
  - exact Hsorted.
  - eapply Forall_impl; [|exact Hall]. intros f [Hf Hf'].
    assert (H0 : JS.num 0 / sampleRate buf == 0).
    { unfold JS.num. change (inject_Z 0) with 0. unfold Qdiv. ring. }
    rewrite H0 in Hf.
    assert (Hle : JS.num (JS.length (channelData buf)
                          - JS.Math_floor (sampleRate buf * (25 # 1000)))
                  / sampleRate buf <= hi).
    { unfold hi, Qdiv. apply Qmult_le_compat_r.
      - unfold JS.num. rewrite <- Zle_Qle. lia.
      - apply Qlt_le_weak. now apply Qinv_lt_0_compat. }
    split; [lra|]. split; [exact Hf | lra].
  - split; [constructor|]. split; constructor.
  - destruct Hfinal as (H1 & H2 & _). split; [exact H1 | exact H2].
Qed.

(** X17, witness: the two runs of voiced frames of [two_runs_buffer]
    give two segments, the first ending before the second starts. *)
Lemma segmentByVADClustering_ordered_witness :
  exists segs,
    result (segmentByVADClustering (Some two_runs_buffer)
              (sample_params (1 # 10) (3 # 10) 200)) = Returns segs /\
    JS.length segs = 2%Z /\
    StronglySorted precedes segs /\
    Forall (fun s => 0 <= p_start s /\ p_start s < p_end s /\
                     p_end s < JS.num (JS.length (channelData two_runs_buffer))
                               / sampleRate two_runs_buffer)
           segs.
Proof.
  eexists. split; [vm_compute; reflexivity|]. split; [reflexivity|].
  apply (segmentByVADClustering_ordered two_runs_buffer
           (sample_params (1 # 10) (3 # 10) 200)).
  - reflexivity.
  - vm_compute. reflexivity.
Defined.
